(** * Weekly recommendations: cycle, streak and invitation engine

    A shallow embedding of the services of the weekly-recommendations
    server: [EmailProcessor] (submission intake), [WeeklyAutomation]
    (cycle open / close / manual compile, reminders and streak
    bookkeeping), [InvitationService] (eligibility, invitation tokens,
    expiry), the inbound e-mail webhook with its signature guard, the
    invitation status route, the member routes of the admin API, and the
    address patterns.  The Prisma store is a record of tables, each table
    a list of rows in insertion order; every service method is a state
    transformer over that record. *)

From Stdlib Require Import ZArith List String Ascii Bool Lia DecimalString.
Import ListNotations.
Local Open Scope string_scope.
Local Open Scope Z_scope.
Local Open Scope list_scope.

Set Implicit Arguments.

(** ** JavaScript values *)

(** A nullable integer column read back into JavaScript: [None] is [null].
    [!x] holds for [null] and for [0]. *)
Definition falsy (x : option Z) : bool :=
  match x with
  | None => true
  | Some n => n =? 0
  end.

(** [a || b] on strings: the empty string is falsy. *)
Definition str_or (a b : string) : string :=
  if String.eqb a "" then b else a.

(** [x || d] on a nullable string. *)
Definition opt_or (x : option string) (d : string) : string :=
  match x with
  | Some s => str_or s d
  | None => d
  end.

(** [parseInt(v) || d]: an unset variable parses to NaN, and NaN and 0 are
    both falsy. *)
Definition parseInt_or (v : option Z) (d : Z) : Z :=
  match v with
  | Some n => if n =? 0 then d else n
  | None => d
  end.

(** [v || d] with [v] left as text; a set variable is a non-empty string,
    hence truthy, and is coerced to its number when compared. *)
Definition raw_or (v : option Z) (d : Z) : Z :=
  match v with
  | Some n => n
  | None => d
  end.

(** ** Data model *)

Inductive WeekStatus := open | closed | compiled.
Inductive InviteStatus := pending | accepted | expired.

Definition WeekStatus_eqb (a b : WeekStatus) : bool :=
  match a, b with
  | open, open | closed, closed | compiled, compiled => true
  | _, _ => false
  end.

Definition InviteStatus_eqb (a b : InviteStatus) : bool :=
  match a, b with
  | pending, pending | accepted, accepted | expired, expired => true
  | _, _ => false
  end.

Record Week := mkWeek {
  week_id : Z;
  weekNumber : Z;
  startDate : Z;
  deadline : Z;
  week_status : WeekStatus;
  createdAt : Z
}.

Record User := mkUser {
  user_id : Z;
  email : string;
  firstName : option string;
  lastName : option string;
  isActive : bool;
  inviteCount : Z
}.

Record UserStreak := mkStreak {
  streak_userId : Z;
  currentStreak : Z;
  longestStreak : Z;
  lastSubmissionWeek : option Z;
  canInvite : bool;
  inviteEligibleSince : option Z
}.

Record Submission := mkSubmission {
  submission_id : Z;
  userId : Z;
  weekId : Z;
  recommendation : string;
  reasons : string;
  message : string
}.

Record Invite := mkInvite {
  invite_id : Z;
  inviterId : Z;
  inviteeEmail : string;
  inviteToken : string;
  invite_status : InviteStatus;
  expiresAt : Z;
  acceptedAt : option Z
}.

(** Outgoing mail, one constructor per [EmailService] method. *)
Inductive Mail :=
| WeeklyPrompt (recipient : string) (week : Z)
| WeeklyCompilation (recipients : list string) (week : Z)
| SubmissionConfirmation (recipient : string) (week : Z)
| ErrorEmail (recipient errorType text : string)
| SubmissionFormatError (recipient : string)
| Invitation (inviterName recipient token : string)
| InviteEligibilityNotification (recipient name : string) (streakCount : Z).

(** The effects whose order matters below: writes of a week's status,
    writes of a member's streak row, and mail handed to the transport,
    whether the transport then takes it or not. *)
Inductive Effect :=
| WeekWrite (id : Z) (st : WeekStatus)
| StreakWrite (user : Z)
| Sent (m : Mail).

(** ** The environment

    What the process runs in.  The variables of [process.env]: a variable
    is unset ([None]) or holds the decimal text of an integer ([Some n]).
    The zone of the server's clock, given as what
    [moment().add(n, 'days')] makes of the instant [t].  The mail
    transport behind [sgMail.send], given as its answer to a message
    after everything recorded so far: it takes the message ([true]) or
    the call throws ([false]). *)
Record Env := mkEnv {
  STREAK_REQUIRED_FOR_INVITE : option Z;
  MAX_INVITES_PER_USER : option Z;
  INVITE_EXPIRY_DAYS : option Z;
  WEEKLY_DEADLINE_HOUR : option Z;
  moment_add_days : Z -> Z -> Z;
  transport : list Effect -> Mail -> bool
}.

Definition day_ms : Z := 86400000.

(** Nothing set, a zone without clock changes, a transport that takes
    every message. *)
Definition default_env : Env :=
  mkEnv None None None None (fun t n => t + n * day_ms) (fun _ _ => true).

(** The transport takes whatever it is handed, whenever. *)
Definition reliable (env : Env) : Prop :=
  forall (j : list Effect) (m : Mail), transport env j m = true.

Record Db := mkDb {
  weeks : list Week;
  users : list User;
  streaks : list UserStreak;
  submissions : list Submission;
  invites : list Invite;
  journal : list Effect
}.

Definition empty_db : Db := mkDb [] [] [] [] [] [].

(** ** The store

    Every [await prisma...] call is a step of the state monad [M].  A
    call that Prisma rejects (a unique constraint, a missing row) throws;
    the primitive then returns [None] or [false] and leaves the store as
    it was, and the caller says what its [try]/[catch] does with it. *)

Definition M (A : Type) : Type := Db -> A * Db.

Definition ret (A : Type) (a : A) : M A := fun db => (a, db).

Definition bind (A B : Type) (m : M A) (k : A -> M B) : M B :=
  fun db => let (a, db') := m db in k a db'.

Notation "x <- m ;; k" := (bind m (fun x => k))
  (at level 61, m at next level, right associativity).
Notation "m ;; k" := (bind m (fun _ => k))
  (at level 61, right associativity).

Definition reads (A : Type) (f : Db -> A) : M A := fun db => (f db, db).

Definition with_weeks (ws : list Week) (db : Db) : Db :=
  mkDb ws (users db) (streaks db) (submissions db) (invites db) (journal db).
Definition with_users (us : list User) (db : Db) : Db :=
  mkDb (weeks db) us (streaks db) (submissions db) (invites db) (journal db).
Definition with_streaks (ss : list UserStreak) (db : Db) : Db :=
  mkDb (weeks db) (users db) ss (submissions db) (invites db) (journal db).
Definition with_submissions (ss : list Submission) (db : Db) : Db :=
  mkDb (weeks db) (users db) (streaks db) ss (invites db) (journal db).
Definition with_invites (ivs : list Invite) (db : Db) : Db :=
  mkDb (weeks db) (users db) (streaks db) (submissions db) ivs (journal db).
Definition with_journal (j : list Effect) (db : Db) : Db :=
  mkDb (weeks db) (users db) (streaks db) (submissions db) (invites db) j.

Definition emit (e : Effect) : M unit :=
  fun db => (tt, with_journal (journal db ++ [e]) db).

(** [sgMail.send]: the message is handed to the transport; the answer is
    whether the transport took it.  [false] is a rejected promise. *)
Definition sgMail_send (env : Env) (m : Mail) : M bool :=
  fun db => (transport env (journal db) m,
             with_journal (journal db ++ [Sent m]) db).

(** The hand-over inside [sendErrorEmail], [sendSubmissionFormatError] and
    [sendInviteEligibilityNotification]: these methods catch and log what
    the transport throws, so the caller goes on either way.  The methods
    that log and throw again ([sendWeeklyCompilation],
    [sendSubmissionConfirmation], [sendInvitation]) are [sgMail_send] as
    it stands. *)
Definition send (m : Mail) : M unit := emit (Sent m).

(** Autoincrement primary keys. *)
Definition next_id (ids : list Z) : Z := 1 + fold_right Z.max 0 ids.

Definition update_where (A : Type) (p : A -> bool) (f : A -> A) (l : list A) : list A :=
  map (fun x => if p x then f x else x) l.

Module prisma.

(** *** week *)

Definition is_status (st : WeekStatus) (w : Week) : bool :=
  WeekStatus_eqb (week_status w) st.

(** [week.findFirst({ where: { status } })] *)
Definition week_findFirst (st : WeekStatus) (db : Db) : option Week :=
  find (is_status st) (weeks db).

Fixpoint latest (ws : list Week) : option Week :=
  match ws with
  | [] => None
  | w :: rest =>
      match latest rest with
      | Some w' => if createdAt w' >? createdAt w then Some w' else Some w
      | None => Some w
      end
  end.

(** [week.findFirst({ where: { status }, orderBy: { createdAt: 'desc' } })] *)
Definition week_findFirst_desc (st : WeekStatus) (db : Db) : option Week :=
  latest (filter (is_status st) (weeks db)).

(** [week.findUnique({ where: { id } })] *)
Definition week_findUnique (id : Z) (db : Db) : option Week :=
  find (fun w => week_id w =? id) (weeks db).

(** Modelled from the spec: the Prisma schema is not among the sources;
    the store enforces uniqueness of the cycle identifier (the seed
    script upserts weeks by [weekNumber]), so [week.create] throws when
    the number is taken. *)
Definition week_create (wn sd dl : Z) (st : WeekStatus) (now : Z) : M (option Week) :=
  fun db =>
    if existsb (fun w => weekNumber w =? wn) (weeks db) then (None, db)
    else
      let w := mkWeek (next_id (map week_id (weeks db))) wn sd dl st now in
      (Some w, with_journal (journal db ++ [WeekWrite (week_id w) st])
                 (with_weeks (weeks db ++ [w]) db)).

Definition set_week_status (st : WeekStatus) (w : Week) : Week :=
  mkWeek (week_id w) (weekNumber w) (startDate w) (deadline w) st (createdAt w).

(** [week.update({ where: { id }, data: { status } })] *)
Definition week_update (id : Z) (st : WeekStatus) : M bool :=
  fun db =>
    match week_findUnique id db with
    | None => (false, db)
    | Some _ =>
        (true, with_journal (journal db ++ [WeekWrite id st])
                 (with_weeks (update_where (fun w => week_id w =? id)
                                           (set_week_status st) (weeks db)) db))
    end.

(** *** user *)

Definition user_findUnique_email (e : string) (db : Db) : option User :=
  find (fun u => String.eqb (email u) e) (users db).

Definition user_findUnique (id : Z) (db : Db) : option User :=
  find (fun u => user_id u =? id) (users db).

(** [user.findMany({ where: { isActive: true } })] *)
Definition user_findMany_active (db : Db) : list User :=
  filter isActive (users db).

(** [user.create]: [email] is unique; [inviteCount] defaults to 0. *)
Definition user_create (e : string) (fn ln : option string) (active : bool)
  : M (option User) :=
  fun db =>
    match user_findUnique_email e db with
    | Some _ => (None, db)
    | None =>
        let u := mkUser (next_id (map user_id (users db))) e fn ln active 0 in
        (Some u, with_users (users db ++ [u]) db)
    end.

Definition bump_inviteCount (u : User) : User :=
  mkUser (user_id u) (email u) (firstName u) (lastName u) (isActive u)
         (inviteCount u + 1).

(** [user.update({ where: { id }, data: { inviteCount: { increment: 1 } } })] *)
Definition user_increment_inviteCount (id : Z) : M bool :=
  fun db =>
    match user_findUnique id db with
    | None => (false, db)
    | Some _ =>
        (true, with_users (update_where (fun u => user_id u =? id)
                                        bump_inviteCount (users db)) db)
    end.

(** *** userStreak *)

Definition userStreak_findUnique (uid : Z) (db : Db) : option UserStreak :=
  find (fun s => streak_userId s =? uid) (streaks db).

(** [userStreak.create]: at most one row per member. *)
Definition userStreak_create (s : UserStreak) : M bool :=
  fun db =>
    match userStreak_findUnique (streak_userId s) db with
    | Some _ => (false, db)
    | None =>
        (true, with_journal (journal db ++ [StreakWrite (streak_userId s)])
                 (with_streaks (streaks db ++ [s]) db))
    end.

(** [userStreak.update({ where: { userId }, data })]; [data] is given as
    the function that overwrites the listed fields. *)
Definition userStreak_update (uid : Z) (data : UserStreak -> UserStreak) : M bool :=
  fun db =>
    match userStreak_findUnique uid db with
    | None => (false, db)
    | Some _ =>
        (true, with_journal (journal db ++ [StreakWrite uid])
                 (with_streaks (update_where (fun s => streak_userId s =? uid)
                                             data (streaks db)) db))
    end.

(** *** submission *)

Definition is_pair (uid wid : Z) (s : Submission) : bool :=
  (userId s =? uid) && (weekId s =? wid).

(** [submission.findUnique({ where: { userId_weekId } })] *)
Definition submission_findUnique (uid wid : Z) (db : Db) : option Submission :=
  find (is_pair uid wid) (submissions db).

(** [submission.create]: the pair (member, week) is unique. *)
Definition submission_create (uid wid : Z) (rec rsn msg : string)
  : M (option Submission) :=
  fun db =>
    match submission_findUnique uid wid db with
    | Some _ => (None, db)
    | None =>
        let s := mkSubmission (next_id (map submission_id (submissions db)))
                              uid wid rec rsn msg in
        (Some s, with_submissions (submissions db ++ [s]) db)
    end.

(** [include: { submissions }] on a week. *)
Definition week_submissions (wid : Z) (db : Db) : list Submission :=
  filter (fun s => weekId s =? wid) (submissions db).

(** *** invite *)

Definition invite_findUnique_token (tok : string) (db : Db) : option Invite :=
  find (fun i => String.eqb (inviteToken i) tok) (invites db).

(** [invite.findFirst] for an unexpired pending invitation to an address. *)
Definition invite_findFirst_pending (e : string) (now : Z) (db : Db) : option Invite :=
  find (fun i => String.eqb (inviteeEmail i) e
                 && InviteStatus_eqb (invite_status i) pending
                 && (expiresAt i >? now)) (invites db).

(** [invite.create]: the token is unique; [status] defaults to pending. *)
Definition invite_create (inviter : Z) (e tok : string) (exp : Z) : M (option Invite) :=
  fun db =>
    match invite_findUnique_token tok db with
    | Some _ => (None, db)
    | None =>
        let i := mkInvite (next_id (map invite_id (invites db)))
                          inviter e tok pending exp None in
        (Some i, with_invites (invites db ++ [i]) db)
    end.

Definition invite_update (id : Z) (data : Invite -> Invite) : M bool :=
  fun db =>
    if existsb (fun i => invite_id i =? id) (invites db)
    then (true, with_invites (update_where (fun i => invite_id i =? id)
                                           data (invites db)) db)
    else (false, db).

(** [include: { sentInvites: { where: { status: { in: [pending, accepted] } } } }] *)
Definition user_sentInvites (uid : Z) (db : Db) : list Invite :=
  filter (fun i => (inviterId i =? uid)
                   && (InviteStatus_eqb (invite_status i) pending
                       || InviteStatus_eqb (invite_status i) accepted))
         (invites db).

(** [invite.updateMany({ where, data })]: the number of rows rewritten. *)
Definition invite_updateMany (p : Invite -> bool) (data : Invite -> Invite) : M Z :=
  fun db =>
    (Z.of_nat (List.length (filter p (invites db))),
     with_invites (update_where p data (invites db)) db).

(** [user.update({ where: { id }, data })]: the rewritten row, or a throw
    when no row has the id. *)
Definition user_update (id : Z) (data : User -> User) : M (option User) :=
  fun db =>
    match user_findUnique id db with
    | None => (None, db)
    | Some u =>
        (Some (data u),
         with_users (update_where (fun u => user_id u =? id) data (users db)) db)
    end.

End prisma.

(** ** Results *)

(** What an [async] service method hands back: [{ success: true, ... }],
    [{ success: false, error }], or a rejected promise. *)
Inductive Result (A : Type) :=
| Success (a : A)
| Failure (error : string)
| Thrown.
Arguments Failure {A} error.
Arguments Thrown {A}.

Fixpoint for_each (A : Type) (l : list A) (body : A -> M unit) : M unit :=
  match l with
  | [] => ret tt
  | x :: rest => body x ;; for_each rest body
  end.

Definition length_Z (A : Type) (l : list A) : Z := Z.of_nat (List.length l).

(** [EmailService.sendWeeklyPrompt]: one message per member, each in its
    own [try]/[catch]; the answer counts the messages the transport took. *)
Fixpoint sendWeeklyPrompt (env : Env) (users : list User) (weekNumber : Z) : M Z :=
  match users with
  | [] => ret 0
  | user :: rest =>
      taken <- sgMail_send env (WeeklyPrompt (email user) weekNumber) ;;
      count <- sendWeeklyPrompt env rest weekNumber ;;
      ret ((if taken then 1 else 0) + count)
  end.

Definition show_Z (n : Z) : string := NilZero.string_of_int (Z.to_int n).

(** ** Text handling

    Sender extraction, the submission template, the invite command and the
    address check are regular-expression matches run by the JavaScript
    engine; the services are stated over any implementation of them. *)

Record ParsedSubmission := mkParsed {
  parsed_recommendation : option string;
  parsed_reasonWhy : option string;
  parsed_digressions : option string
}.

Class TextParsing := {
  extractEmail : string -> option string;
  parseSubmission : string -> string -> ParsedSubmission;
  parseInviteCommand : string -> option string;
  isValidEmail : string -> bool;
  toLowerCase_trim : string -> string
}.

(** ** EmailProcessor (services/emailProcessor.js) *)

Record Email := mkEmail {
  from : string;
  to : string;
  subject : string;
  text : string;
  html : string
}.

Record SubmissionData := mkData {
  data_recommendation : string;
  data_reasonWhy : string;
  data_digressions : string
}.

Module EmailProcessor.
Section Service.
Context {T : TextParsing}.
Variable env : Env.

Definition in_range (lo hi : nat) (s : string) : bool :=
  ((lo <=? String.length s) && (String.length s <=? hi))%nat.

(** The Joi schema: three required strings with length bounds. *)
Definition validateSubmissionFormat (p : ParsedSubmission) : option SubmissionData :=
  match parsed_recommendation p, parsed_reasonWhy p, parsed_digressions p with
  | Some r, Some w, Some d =>
      if in_range 5 500 r && in_range 10 1000 w && in_range 5 1000 d
      then Some (mkData r w d)
      else None
  | _, _, _ => None
  end.

Definition isConsecutiveWeek (lastWeek : option Z) (currentWeek : Z) : bool :=
  if falsy lastWeek then false
  else match lastWeek with
       | Some lw => currentWeek =? lw + 1
       | None => false
       end.

Definition updateUserStreak (uid currentWeekNumber now : Z) : M unit :=
  found <- reads (prisma.userStreak_findUnique uid) ;;
  match found with
  | None =>
      _ <- prisma.userStreak_create
             (mkStreak uid 1 1 (Some currentWeekNumber) false None) ;;
      ret tt
  | Some userStreak =>
      let isConsecutive :=
        isConsecutiveWeek (lastSubmissionWeek userStreak) currentWeekNumber in
      let newCurrentStreak :=
        if isConsecutive then currentStreak userStreak + 1 else 1 in
      let newLongestStreak := Z.max (longestStreak userStreak) newCurrentStreak in
      let canInvite' :=
        newCurrentStreak >=? raw_or (STREAK_REQUIRED_FOR_INVITE env) 4 in
      let inviteEligibleSince' :=
        if canInvite' && negb (canInvite userStreak)
        then Some now else inviteEligibleSince userStreak in
      ok <- prisma.userStreak_update uid
              (fun _ => mkStreak uid newCurrentStreak newLongestStreak
                                 (Some currentWeekNumber) canInvite'
                                 inviteEligibleSince') ;;
      if ok && canInvite' && negb (canInvite userStreak) then
        user <- reads (prisma.user_findUnique uid) ;;
        match user with
        | Some user =>
            send (InviteEligibilityNotification
                    (email user) (opt_or (firstName user) "Friend")
                    newCurrentStreak)
        | None => ret tt
        end
      else ret tt
  end.

Definition processInboundEmail (payload : Email) (now : Z) : M (Result Z) :=
  match extractEmail (from payload) with
  | None => ret (Failure "Invalid sender email")
  | Some senderEmail =>
      let reject_unknown :=
        send (ErrorEmail senderEmail "Unknown User"
                "You are not registered for the weekly recommendations system.") ;;
        ret (Failure "Unknown user") in
      user <- reads (prisma.user_findUnique_email senderEmail) ;;
      match user with
      | None => reject_unknown
      | Some user =>
          if negb (isActive user) then reject_unknown
          else
            currentWeek <- reads (prisma.week_findFirst_desc open) ;;
            match currentWeek with
            | None =>
                send (ErrorEmail senderEmail "No Active Week"
                        "There is no active week for submissions right now.") ;;
                ret (Failure "No active week")
            | Some currentWeek =>
                existingSubmission <-
                  reads (prisma.submission_findUnique
                           (user_id user) (week_id currentWeek)) ;;
                match existingSubmission with
                | Some _ =>
                    send (ErrorEmail senderEmail "Already Submitted"
                            "You have already submitted a recommendation for this week.") ;;
                    ret (Failure "Already submitted")
                | None =>
                    let emailBody := str_or (text payload) (str_or (html payload) "") in
                    let parsedData := parseSubmission emailBody (subject payload) in
                    match validateSubmissionFormat parsedData with
                    | None =>
                        send (SubmissionFormatError senderEmail) ;;
                        ret (Failure "Invalid format")
                    | Some data =>
                        created <- prisma.submission_create
                                     (user_id user) (week_id currentWeek)
                                     (data_recommendation data)
                                     (data_reasonWhy data)
                                     (data_digressions data) ;;
                        match created with
                        | None => ret (Failure "Processing failed")
                        | Some submission =>
                            updateUserStreak (user_id user)
                                             (weekNumber currentWeek) now ;;
                            confirmed <- sgMail_send env
                                           (SubmissionConfirmation senderEmail
                                              (weekNumber currentWeek)) ;;
                            if confirmed
                            then ret (Success (submission_id submission))
                            else ret (Failure "Processing failed")
                        end
                    end
                end
            end
      end
  end.

End Service.
End EmailProcessor.

(** ** WeeklyAutomation (services/weeklyAutomation.js, the source part
    that defines [class WeeklyAutomation]) *)

(** A reading of the clock through moment-timezone: the instant, what
    [format('YYYY')] and [week()] give, and the derived dates. *)
Record Moment := mkMoment {
  instant : Z;
  year : Z;
  week : Z;
  thursday_startOfDay : Z;
  sunday_at_hour : Z -> Z
}.

Record CompileResult := mkCompileResult {
  result_weekNumber : Z;
  result_submissionCount : Z;
  result_emailsSent : option Z
}.

(** One reminder message: recipient, greeting name, week, deadline and the
    whole hours left. *)
Record Reminder := mkReminder {
  reminder_to : string;
  reminder_name : string;
  reminder_week : Z;
  reminder_deadline : Z;
  reminder_hours : Z
}.

Definition ms_per_hour : Z := 3600000.

Module WeeklyAutomation.
Section Service.
Variable env : Env.

(** [Math.floor (x / 100)] is [Z.div]; the remainder operator [%]
    truncates, like [Z.rem]. *)
Definition isConsecutiveWeek (lastWeek : option Z) (currentWeek : Z) : bool :=
  if falsy lastWeek then false
  else match lastWeek with
       | None => false
       | Some lw =>
           let lastYear := lw / 100 in
           let lastWeekNum := Z.rem lw 100 in
           let currentYear := currentWeek / 100 in
           let currentWeekNum := Z.rem currentWeek 100 in
           if lastYear =? currentYear then currentWeekNum =? lastWeekNum + 1
           else if currentYear =? lastYear + 1
                then (lastWeekNum >=? 52) && (currentWeekNum =? 1)
                else false
       end.

Definition startNewWeek (now : Moment) : M (Result (Week * Z)) :=
  existingOpenWeek <- reads (prisma.week_findFirst open) ;;
  match existingOpenWeek with
  | Some _ => ret (Failure "Week already open")
  | None =>
      let weekNumber := year now * 100 + week now in
      let startDate := thursday_startOfDay now in
      let deadline :=
        sunday_at_hour now (parseInt_or (WEEKLY_DEADLINE_HOUR env) 18) in
      created <- prisma.week_create weekNumber startDate deadline open
                   (instant now) ;;
      match created with
      | None => ret Thrown
      | Some newWeek =>
          activeUsers <- reads prisma.user_findMany_active ;;
          if length_Z activeUsers =? 0 then ret (Success (newWeek, 0))
          else
            emailsSent <- sendWeeklyPrompt env activeUsers weekNumber ;;
            ret (Success (newWeek, emailsSent))
      end
  end.

(** [user] is a row of [findMany({ include: { streak: true } })]: the
    member together with the streak row read at that moment. *)
Definition updateUserStreak (user : User) (streak : option UserStreak)
    (weekNumber : Z) (didSubmit : bool) (now : Z) : M unit :=
  match streak with
  | None =>
      _ <- prisma.userStreak_create
             (mkStreak (user_id user)
                       (if didSubmit then 1 else 0)
                       (if didSubmit then 1 else 0)
                       (if didSubmit then Some weekNumber else None)
                       false None) ;;
      ret tt
  | Some st =>
      let newCurrentStreak :=
        if didSubmit then
          if isConsecutiveWeek (lastSubmissionWeek st) weekNumber
          then currentStreak st + 1 else 1
        else 0 in
      let newLongestStreak := Z.max (longestStreak st) newCurrentStreak in
      let streakRequired := parseInt_or (STREAK_REQUIRED_FOR_INVITE env) 4 in
      let maxInvites := parseInt_or (MAX_INVITES_PER_USER env) 5 in
      let canInvite' :=
        (newCurrentStreak >=? streakRequired) && (inviteCount user <? maxInvites) in
      let inviteEligibleSince' :=
        if canInvite' && negb (canInvite st)
        then Some now else inviteEligibleSince st in
      ok <- prisma.userStreak_update (user_id user)
              (fun _ => mkStreak (user_id user) newCurrentStreak newLongestStreak
                                 (if didSubmit then Some weekNumber
                                  else lastSubmissionWeek st)
                                 canInvite' inviteEligibleSince') ;;
      if ok && canInvite' && negb (canInvite st) then
        send (InviteEligibilityNotification
                (email user) (opt_or (firstName user) "Friend") newCurrentStreak)
      else ret tt
  end.

Definition with_streak (db : Db) (u : User) : User * option UserStreak :=
  (u, prisma.userStreak_findUnique (user_id u) db).

Definition updateAllUserStreaks (weekNumber : Z) (subs : list Submission)
    (now : Z) : M unit :=
  allUsers <- reads (fun db => map (with_streak db) (prisma.user_findMany_active db)) ;;
  let submittedUserIds := map userId subs in
  for_each allUsers
    (fun row =>
       let didSubmit := existsb (Z.eqb (user_id (fst row))) submittedUserIds in
       updateUserStreak (fst row) (snd row) weekNumber didSubmit now).

(** [submissions.map(sub => sub.user)], as the addresses the compilation
    goes to; the rows come with the week, from the one query that finds it. *)
Definition participants (subs : list Submission) (db : Db) : list string :=
  flat_map (fun s => match prisma.user_findUnique (userId s) db with
                     | Some u => [email u]
                     | None => []
                     end) subs.

Definition closeWeekAndCompile (now : Z) : M (Result CompileResult) :=
  currentWeek <- reads (prisma.week_findFirst open) ;;
  match currentWeek with
  | None => ret (Failure "No open week")
  | Some currentWeek =>
      subs <- reads (prisma.week_submissions (week_id currentWeek)) ;;
      who <- reads (participants subs) ;;
      _ <- prisma.week_update (week_id currentWeek) closed ;;
      if length_Z subs =? 0 then
        _ <- prisma.week_update (week_id currentWeek) compiled ;;
        ret (Success (mkCompileResult (weekNumber currentWeek) 0 (Some 0)))
      else
        compilationSent <- sgMail_send env
                             (WeeklyCompilation who (weekNumber currentWeek)) ;;
        if negb compilationSent then ret Thrown
        else
          _ <- prisma.week_update (week_id currentWeek) compiled ;;
          updateAllUserStreaks (weekNumber currentWeek) subs now ;;
          ret (Success (mkCompileResult (weekNumber currentWeek)
                          (length_Z subs) (Some (length_Z who))))
  end.

Definition manualStartWeek (now : Moment) : M (Result (Week * Z)) :=
  startNewWeek now.

Definition manualCompileWeek (weekId : option Z) (now : Z) : M (Result CompileResult) :=
  if falsy weekId then closeWeekAndCompile now
  else match weekId with
       | None => closeWeekAndCompile now
       | Some id =>
           found <- reads (prisma.week_findUnique id) ;;
           match found with
           | None => ret (Failure "Week not found")
           | Some wk =>
               if WeekStatus_eqb (week_status wk) compiled
               then ret (Failure "Week already compiled")
               else
                 subs <- reads (prisma.week_submissions id) ;;
                 who <- reads (participants subs) ;;
                 compilationSent <-
                   (if length_Z subs >? 0
                    then sgMail_send env (WeeklyCompilation who (weekNumber wk))
                    else ret true) ;;
                 if negb compilationSent then ret Thrown
                 else
                   _ <- prisma.week_update id compiled ;;
                   ret (Success (mkCompileResult (weekNumber wk) (length_Z subs)
                                                 None))
           end
       end.

(** [sendReminders]: the messages are built and then handed to
    [this.emailService.sgMail], a property that [EmailService] does not
    have (its module keeps the transport in a constant of its own), so
    with a message to send the call throws before anything leaves; the
    batch that was built is returned beside the result.
    [deadline.diff(now, 'hours')] drops the fraction, towards zero. *)
Definition sendReminders (now : Z) : M (Result Z * list Reminder) :=
  currentWeek <- reads (prisma.week_findFirst open) ;;
  match currentWeek with
  | None => ret (Failure "No active week", [])
  | Some currentWeek =>
      let hoursUntilDeadline := Z.quot (deadline currentWeek - now) ms_per_hour in
      if hoursUntilDeadline >? 24 then ret (Failure "Too early for reminders", [])
      else
        subs <- reads (prisma.week_submissions (week_id currentWeek)) ;;
        let submittedUserIds := map userId subs in
        usersWhoHaventSubmitted <-
          reads (fun db =>
                   filter (fun u => isActive u
                                    && negb (existsb (Z.eqb (user_id u))
                                                     submittedUserIds))
                          (users db)) ;;
        if length_Z usersWhoHaventSubmitted =? 0 then ret (Success 0, [])
        else
          ret (Thrown,
               map (fun u => mkReminder (email u) (opt_or (firstName u) "Friend")
                                        (weekNumber currentWeek)
                                        (deadline currentWeek) hoursUntilDeadline)
                   usersWhoHaventSubmitted)
  end.

End Service.
End WeeklyAutomation.

(** ** InvitationService (services/invitationService.js, the class that
    follows [EmailService] in the sources) *)

Inductive Eligibility :=
| Eligible (invitesUsed invitesRemaining current : Z)
| NotEligible (reason : string).

Record InviteSent := mkInviteSent {
  sent_inviteId : Z;
  sent_inviteToken : string;
  sent_expiresAt : Z;
  sent_invitesRemaining : Z
}.

Record UserData := mkUserData {
  given_firstName : option string;
  given_lastName : option string
}.

(** What a successful acceptance answers: four columns of the new member,
    and the inviter as selected with the invitation, by name and address. *)
Record NewMember := mkNewMember {
  member_id : Z;
  member_email : string;
  member_firstName : option string;
  member_lastName : option string
}.

Record InviterInfo := mkInviterInfo {
  inviter_firstName : option string;
  inviter_lastName : option string;
  inviter_email : string
}.

Record Accepted := mkAccepted {
  accepted_user : NewMember;
  accepted_inviter : option InviterInfo
}.

Definition member_of (u : User) : NewMember :=
  mkNewMember (user_id u) (email u) (firstName u) (lastName u).

(** [select: { firstName: true, lastName: true, email: true }] *)
Definition inviter_of (u : User) : InviterInfo :=
  mkInviterInfo (firstName u) (lastName u) (email u).

(** [x || null] on an optional string. *)
Definition or_null (x : option string) : option string :=
  match x with
  | Some s => if String.eqb s "" then None else Some s
  | None => None
  end.

Module InvitationService.
Section Service.
Context {T : TextParsing}.
Variable env : Env.

Definition maxInvitesPerUser : Z := parseInt_or (MAX_INVITES_PER_USER env) 5.
Definition inviteExpiryDays : Z := parseInt_or (INVITE_EXPIRY_DAYS env) 7.
Definition streakRequired : Z := parseInt_or (STREAK_REQUIRED_FOR_INVITE env) 4.

Definition checkInviteEligibility (uid : Z) (db : Db) : Eligibility :=
  match prisma.user_findUnique uid db with
  | None => NotEligible "User not found or inactive"
  | Some user =>
      if negb (isActive user) then NotEligible "User not found or inactive"
      else
        match prisma.userStreak_findUnique uid db with
        | None => NotEligible "No submission history"
        | Some streak =>
            let used := length_Z (prisma.user_sentInvites uid db) in
            if currentStreak streak <? streakRequired then
              NotEligible ("Requires " ++ show_Z streakRequired
                           ++ " consecutive weeks (current: "
                           ++ show_Z (currentStreak streak) ++ ")")%string
            else if used >=? maxInvitesPerUser then
              NotEligible ("Maximum " ++ show_Z maxInvitesPerUser
                           ++ " invites per user reached")%string
            else Eligible used (maxInvitesPerUser - used) (currentStreak streak)
        end
  end.

Definition inviterName (inviter : User) : string :=
  match or_null (firstName inviter) with
  | Some first =>
      match or_null (lastName inviter) with
      | Some last => (first ++ " " ++ last)%string
      | None => first
      end
  | None => email inviter
  end.

Definition sendInvitation (inviter : Z) (invitee : string) (now : Z)
    (token : string) : M (Result InviteSent) :=
  eligibility <- reads (checkInviteEligibility inviter) ;;
  match eligibility with
  | NotEligible reason => ret (Failure reason)
  | Eligible _ remaining _ =>
      let cleanEmail := toLowerCase_trim invitee in
      if negb (isValidEmail cleanEmail) then ret (Failure "Invalid email address")
      else
        existingUser <- reads (prisma.user_findUnique_email cleanEmail) ;;
        match existingUser with
        | Some _ => ret (Failure "User is already a member")
        | None =>
            existingInvite <- reads (prisma.invite_findFirst_pending cleanEmail now) ;;
            match existingInvite with
            | Some _ =>
                ret (Failure "Pending invitation already exists for this email")
            | None =>
                let expires := moment_add_days env now inviteExpiryDays in
                who <- reads (prisma.user_findUnique inviter) ;;
                created <- prisma.invite_create inviter cleanEmail token expires ;;
                match created, who with
                | Some invite, Some who =>
                    invitationSent <- sgMail_send env
                                        (Invitation (inviterName who) cleanEmail
                                                    token) ;;
                    if negb invitationSent then ret Thrown
                    else
                      _ <- prisma.user_increment_inviteCount inviter ;;
                      ret (Success (mkInviteSent (invite_id invite) token expires
                                                 (remaining - 1)))
                | _, _ => ret Thrown
                end
            end
        end
  end.

Definition mark (st : InviteStatus) (at_ : option Z) (i : Invite) : Invite :=
  mkInvite (invite_id i) (inviterId i) (inviteeEmail i) (inviteToken i) st
           (expiresAt i) at_.

(** [include: { inviter: { select } }] is read together with the
    invitation. *)
Definition processInviteAcceptance (token : string) (userData : UserData)
    (now : Z) : M (Result Accepted) :=
  found <- reads (prisma.invite_findUnique_token token) ;;
  match found with
  | None => ret (Failure "Invalid invitation link")
  | Some invite =>
      inviter <- reads (fun db => option_map inviter_of
                                    (prisma.user_findUnique (inviterId invite) db)) ;;
      if negb (InviteStatus_eqb (invite_status invite) pending)
      then ret (Failure "Invitation already processed")
      else if now >? expiresAt invite then
        _ <- prisma.invite_update (invite_id invite)
               (fun i => mark expired (acceptedAt i) i) ;;
        ret (Failure "Invitation has expired")
      else
        existingUser <- reads (prisma.user_findUnique_email (inviteeEmail invite)) ;;
        match existingUser with
        | Some _ =>
            _ <- prisma.invite_update (invite_id invite) (mark accepted (Some now)) ;;
            ret (Failure "User already exists")
        | None =>
            created <- prisma.user_create (inviteeEmail invite)
                         (or_null (given_firstName userData))
                         (or_null (given_lastName userData)) true ;;
            match created with
            | None => ret Thrown
            | Some newUser =>
                ok <- prisma.userStreak_create
                        (mkStreak (user_id newUser) 0 0 None false None) ;;
                if negb ok then ret Thrown
                else
                  _ <- prisma.invite_update (invite_id invite)
                         (mark accepted (Some now)) ;;
                  ret (Success (mkAccepted (member_of newUser) inviter))
            end
        end
  end.

Definition set_eligibility (flag : bool) (since : option Z) (s : UserStreak)
  : UserStreak :=
  mkStreak (streak_userId s) (currentStreak s) (longestStreak s)
           (lastSubmissionWeek s) flag since.

(** The loop of [checkAllUsersEligibility] over the rows read up front;
    the accumulator counts the rows it rewrote. *)
Fixpoint sweep (rows : list (User * option UserStreak * list Invite))
    (now eligibilityUpdates : Z) : M (option Z) :=
  match rows with
  | [] => ret (Some eligibilityUpdates)
  | (user, None, _) :: rest => sweep rest now eligibilityUpdates
  | (user, Some streak, sentInvites) :: rest =>
      let shouldBeEligible :=
        (currentStreak streak >=? streakRequired)
        && (length_Z sentInvites <? maxInvitesPerUser) in
      let currentlyEligible := canInvite streak in
      if Bool.eqb shouldBeEligible currentlyEligible
      then sweep rest now eligibilityUpdates
      else
        ok <- prisma.userStreak_update (user_id user)
                (set_eligibility shouldBeEligible
                   (if shouldBeEligible && negb currentlyEligible
                    then Some now else inviteEligibleSince streak)) ;;
        if negb ok then ret None
        else
          (if shouldBeEligible && negb currentlyEligible
           then send (InviteEligibilityNotification
                        (email user) (opt_or (firstName user) "Friend")
                        (currentStreak streak))
           else ret tt) ;;
          sweep rest now (eligibilityUpdates + 1)
  end.

Definition with_relations (db : Db) (u : User)
  : User * option UserStreak * list Invite :=
  (u, prisma.userStreak_findUnique (user_id u) db,
   prisma.user_sentInvites (user_id u) db).

Definition checkAllUsersEligibility (now : Z) : M (Result (Z * Z)) :=
  rows <- reads (fun db => map (with_relations db) (prisma.user_findMany_active db)) ;;
  done <- sweep rows now 0 ;;
  match done with
  | Some eligibilityUpdates => ret (Success (length_Z rows, eligibilityUpdates))
  | None => ret Thrown
  end.

Definition processInviteCommand (fromEmail invitee : string) (now : Z)
    (token : string) : M (Result InviteSent) :=
  inviter <- reads (prisma.user_findUnique_email fromEmail) ;;
  match inviter with
  | None => ret (Failure "Inviter not found")
  | Some inviter =>
      result <- sendInvitation (user_id inviter) invitee now token ;;
      match result with
      | Success _ =>
          send (ErrorEmail fromEmail "Invitation Sent"
                  ("Your invitation has been sent to " ++ invitee
                   ++ "! They have " ++ show_Z inviteExpiryDays
                   ++ " days to accept.")%string) ;;
          ret result
      | Failure error =>
          send (ErrorEmail fromEmail "Invitation Failed"
                  ("Could not send invitation to " ++ invitee ++ ": "
                   ++ error)%string) ;;
          ret result
      | Thrown => ret (Failure "Processing failed")
      end
  end.

Definition is_lapsed (now : Z) (i : Invite) : bool :=
  InviteStatus_eqb (invite_status i) pending && (expiresAt i <? now).

(** [cleanupExpiredInvites]: every pending invitation with
    [expiresAt < now] is written as expired. *)
Definition cleanupExpiredInvites (now : Z) : M (Result Z) :=
  expiredCount <- prisma.invite_updateMany (is_lapsed now)
                    (fun i => mark expired (acceptedAt i) i) ;;
  ret (Success expiredCount).

End Service.
End InvitationService.

(** ** The inbound e-mail webhook (routes/webhooks.js) *)

Inductive EntryType := invite | submission.

Record Entry := mkEntry {
  entry_email : string;
  entry_success : bool;
  entry_type : option EntryType;
  entry_submissionId : option Z;
  entry_error : option string
}.

(** What the outside world supplies while one message is handled: the
    clock and the bytes [crypto.randomBytes] would return, in hex. *)
Record Ambient := mkAmbient {
  clock : Z;
  randomToken : string
}.

Module Webhooks.
Section Route.
Context {T : TextParsing}.
Variable env : Env.

Definition result_success (A : Type) (r : Result A) : bool :=
  match r with
  | Success _ => true
  | _ => false
  end.

(** [result.error || null] *)
Definition result_error (A : Type) (r : Result A) : option string :=
  match r with
  | Failure e => or_null (Some e)
  | _ => None
  end.

Definition result_submissionId (r : Result Z) : option Z :=
  match r with
  | Success id => if id =? 0 then None else Some id
  | _ => None
  end.

(** The body of the loop over the messages of one webhook call. *)
Definition handle_email (e : Email) (amb : Ambient) : M Entry :=
  match extractEmail (from e) with
  | None => ret (mkEntry (from e) false None None (Some "Invalid sender"))
  | Some senderEmail =>
      let emailBody := str_or (text e) (str_or (html e) "") in
      match parseInviteCommand emailBody with
      | Some invitee =>
          inviteResult <- InvitationService.processInviteCommand env
                            senderEmail invitee (clock amb) (randomToken amb) ;;
          ret (mkEntry senderEmail (result_success inviteResult) (Some invite)
                       None (result_error inviteResult))
      | None =>
          result <- EmailProcessor.processInboundEmail env e (clock amb) ;;
          ret (mkEntry senderEmail (result_success result) (Some submission)
                       (result_submissionId result) (result_error result))
      end
  end.

Fixpoint inbound_email (batch : list (Email * Ambient)) : M (list Entry) :=
  match batch with
  | [] => ret []
  | (e, amb) :: rest =>
      entry <- handle_email e amb ;;
      entries <- inbound_email rest ;;
      ret (entry :: entries)
  end.

End Route.
End Webhooks.

(** ** Triggers and reachable stores *)

(** The entry points that the cron jobs, the webhook and the routes call. *)
Inductive Command :=
| StartNewWeek (now : Moment)
| CloseWeekAndCompile (now : Z)
| ManualCompileWeek (id : option Z) (now : Z)
| InboundEmail (batch : list (Email * Ambient))
| AcceptInvite (token : string) (userData : UserData) (now : Z)
| CheckAllUsersEligibility (now : Z).

Section Reachability.
Context {T : TextParsing}.
Variable env : Env.

Definition run (c : Command) (db : Db) : Db :=
  match c with
  | StartNewWeek now => snd (WeeklyAutomation.startNewWeek env now db)
  | CloseWeekAndCompile now => snd (WeeklyAutomation.closeWeekAndCompile env now db)
  | ManualCompileWeek id now => snd (WeeklyAutomation.manualCompileWeek env id now db)
  | InboundEmail batch => snd (Webhooks.inbound_email env batch db)
  | AcceptInvite token userData now =>
      snd (InvitationService.processInviteAcceptance token userData now db)
  | CheckAllUsersEligibility now =>
      snd (InvitationService.checkAllUsersEligibility env now db)
  end.

(** The stores the service can be in after any number of triggers, from
    the store [init] it was started on (empty, or seeded with members). *)
Inductive reachable (init : Db) : Db -> Prop :=
| reachable_init : reachable init init
| reachable_step (c : Command) (db : Db) :
    reachable init db -> reachable init (run c db).

End Reachability.

(** ** Vocabulary of the properties *)

(** A cycle identifier is [year * 100 + week] with a week of the year. *)
Definition cycle_id (y w : Z) : Z := y * 100 + w.

Definition is_week_of_year (w : Z) : Prop := 1 <= w <= 53.

(** The eligibility rule in the words of the data model: the streak has
    reached the threshold and the invitations sent are below the cap. *)
Definition eligibility_flag (threshold cap current invitationsSent : Z) : bool :=
  (current >=? threshold) && (invitationsSent <? cap).

Definition open_weeks (db : Db) : list Week :=
  filter (prisma.is_status open) (weeks db).

Definition open_count (db : Db) : nat := List.length (open_weeks db).

Definition at_most_one_open (db : Db) : Prop := (open_count db <= 1)%nat.

(** A monadic step opens no week. *)
Definition opens_nothing (A : Type) (m : M A) : Prop :=
  forall db, (open_count (snd (m db)) <= open_count db)%nat.

Definition is_eligibility_notice (e : Effect) : bool :=
  match e with
  | Sent (InviteEligibilityNotification _ _ _) => true
  | _ => false
  end.

Definition eligibility_notices (db : Db) : nat :=
  List.length (filter is_eligibility_notice (journal db)).

Definition is_WeekWrite (e : Effect) : bool :=
  match e with
  | WeekWrite _ _ => true
  | _ => false
  end.

(** "Every streak update of the close has run before the week is written
    as compiled": wherever the journal [j] records that write, each member
    of [members] already has a streak write before it. *)
Definition streaks_before_compiled (wid : Z) (members : list Z) (j : list Effect)
  : Prop :=
  forall before after,
    j = before ++ WeekWrite wid compiled :: after ->
    forall u, In u members -> In (StreakWrite u) before.

(** The transport's answer to the compilation of week [w], asked when the
    close of [db] hands it over, that is after the write that closes the
    week. *)
Definition compilation_taken (env : Env) (db : Db) (w : Week) : bool :=
  transport env (journal db ++ [WeekWrite (week_id w) closed])
    (WeeklyCompilation
       (WeeklyAutomation.participants (prisma.week_submissions (week_id w) db) db)
       (weekNumber w)).

(** What one run of [m] appends to the journal. *)
Definition effects_of (A : Type) (m : M A) (db : Db) : list Effect :=
  skipn (List.length (journal db)) (journal (snd (m db))).

(** The members that have a streak row. *)
Definition streak_keys (db : Db) : list Z := map streak_userId (streaks db).

(** The member a row of the sweep belongs to. *)
Definition row_id (r : User * option UserStreak * list Invite) : Z :=
  user_id (fst (fst r)).

(** A monadic step leaves a component [f] of the store alone. *)
Definition preserves (X : Type) (f : Db -> X) (A : Type) (m : M A) : Prop :=
  forall db, f (snd (m db)) = f db.

(** Streak rows belong to stored members. *)
Definition streaks_refer_to_users (db : Db) : Prop :=
  forall s, In s (streaks db) -> In (streak_userId s) (map user_id (users db)).



(** ** Scenarios *)

Module Scenario.

Definition nl : string := String (ascii_of_nat 10) EmptyString.

(** A reply in the template.  The patterns close a field at a line break
    followed by another label, so a last line repeats one. *)
Definition submission_body : string :=
  ("RECOMMENDATION: The Wire" ++ nl
   ++ "REASON WHY: It rewards patience" ++ nl
   ++ "DIGRESSIONS: Hello everyone" ++ nl
   ++ "RECOMMENDATION: as above")%string.

Definition invite_body : string := "INVITE: carol@example.com".

(** A reply in the template that also carries an invite command. *)
Definition reply_with_invite_body : string :=
  (submission_body ++ nl ++ invite_body)%string.

(** What the source's patterns return on the messages used below; no other
    text occurs in the scenarios. *)
Definition text_of_scenarios : TextParsing := {|
  extractEmail s :=
    if String.eqb s "Ann <ann@example.com>" then Some "ann@example.com"
    else if String.eqb s "bob@example.com" then Some "bob@example.com"
    else None;
  parseSubmission body _ :=
    if String.eqb body submission_body || String.eqb body reply_with_invite_body
    then mkParsed (Some "The Wire") (Some "It rewards patience")
                  (Some "Hello everyone")
    else mkParsed None None None;
  parseInviteCommand body :=
    if String.eqb body invite_body || String.eqb body reply_with_invite_body
    then Some "carol@example.com" else None;
  isValidEmail s := String.eqb s "carol@example.com";
  toLowerCase_trim s := s
|}.

Definition ann : User := mkUser 1 "ann@example.com" (Some "Ann") None true 0.
Definition bob : User := mkUser 2 "bob@example.com" (Some "Bob") None true 5.

Definition hour_ms : Z := 3600000.

(** The clock during week [w] of year [y]. *)
Definition at_week (y w : Z) : Moment :=
  let t := (y * 53 + w) * 7 * day_ms in
  mkMoment t y w t (fun h => t + 3 * day_ms + h * hour_ms).

Definition ann_submits : Email :=
  mkEmail "Ann <ann@example.com>" "submit@weeklyrecs.com" "Re: this week"
          submission_body "".

Definition members_only : Db := with_users [ann] empty_db.

(** One cycle: the week opens, Ann replies, the week is closed. *)
Definition cycle (y w : Z)
  : M (Result (Week * Z) * Result Z * Result CompileResult) :=
  let now := at_week y w in
  started <- WeeklyAutomation.startNewWeek default_env now ;;
  taken <- EmailProcessor.processInboundEmail (T := text_of_scenarios)
             default_env ann_submits (instant now + day_ms) ;;
  finished <- WeeklyAutomation.closeWeekAndCompile default_env
                (instant now + 3 * day_ms) ;;
  ret (started, taken, finished).

Definition four_cycles
  : M (list (Result (Week * Z) * Result Z * Result CompileResult)) :=
  r1 <- cycle 2024 1 ;;
  r2 <- cycle 2024 2 ;;
  r3 <- cycle 2024 3 ;;
  r4 <- cycle 2024 4 ;;
  ret [r1; r2; r3; r4].

(** Bob has used his five invitations and has submitted three weeks running. *)
Definition bob_at_cap : Db :=
  with_streaks [mkStreak 2 3 3 (Some 202403) false None]
    (with_users [ann; bob] empty_db).

(** Week 5 of 2024 is open and nobody has replied; Ann's streak stands at 4. *)
Definition quiet_week : Db :=
  with_streaks [mkStreak 1 4 4 (Some 202404) true (Some 0)]
    (with_weeks [mkWeek 1 202405 0 0 open 0] members_only).

(** Week 1 of 2024 is open and holds Ann's reply. *)
Definition week_with_reply : Db :=
  with_journal []
    (snd ((WeeklyAutomation.startNewWeek default_env (at_week 2024 1) ;;
           EmailProcessor.processInboundEmail (T := text_of_scenarios)
             default_env ann_submits 1) members_only)).

(** Week 1 of 2024 has been compiled. *)
Definition after_first_cycle : Db := snd (cycle 2024 1 members_only).

(** Invitations Ann has sent: one open, one past its expiry at time 100,
    one already used, one to somebody who has joined since. *)
Definition with_invitations : Db :=
  with_invites
    [mkInvite 1 1 "carol@example.com" "token-carol" pending 1000 None;
     mkInvite 2 1 "dave@example.com" "token-dave" pending 50 None;
     mkInvite 3 1 "erin@example.com" "token-erin" accepted 1000 (Some 10);
     mkInvite 4 1 "bob@example.com" "token-bob" pending 1000 None]
    (with_users [ann; bob] empty_db).

(** The quiet week again, except that Bob has replied. *)
Definition week_with_bobs_reply : Db :=
  with_submissions [mkSubmission 1 2 1 "The Wire" "It rewards patience" "Hello"]
    (with_users [ann; bob] quiet_week).

(** Bob's streak stands at 4 and one of his five invitations has lapsed. *)
Definition bob_with_lapsed_invitation : Db :=
  with_invites
    [mkInvite 1 2 "c1@example.com" "t1" accepted 10 (Some 5);
     mkInvite 2 2 "c2@example.com" "t2" accepted 10 (Some 5);
     mkInvite 3 2 "c3@example.com" "t3" accepted 10 (Some 5);
     mkInvite 4 2 "c4@example.com" "t4" pending 1000 None;
     mkInvite 5 2 "c5@example.com" "t5" expired 10 None]
    (with_streaks [mkStreak 2 4 4 (Some 202404) false None]
       (with_users [ann; bob] empty_db)).

(** The same four replies seen by one update path only. *)
Definition intake_only : M unit :=
  EmailProcessor.updateUserStreak default_env 1 202401 1 ;;
  EmailProcessor.updateUserStreak default_env 1 202402 2 ;;
  EmailProcessor.updateUserStreak default_env 1 202403 3 ;;
  EmailProcessor.updateUserStreak default_env 1 202404 4.

Definition reply_in (wid : Z) : list Submission :=
  [mkSubmission wid 1 wid "The Wire" "It rewards patience" "Hello everyone"].

Definition close_only : M unit :=
  WeeklyAutomation.updateAllUserStreaks default_env 202401 (reply_in 1) 1 ;;
  WeeklyAutomation.updateAllUserStreaks default_env 202402 (reply_in 2) 2 ;;
  WeeklyAutomation.updateAllUserStreaks default_env 202403 (reply_in 3) 3 ;;
  WeeklyAutomation.updateAllUserStreaks default_env 202404 (reply_in 4) 4.

Definition all_succeeded
    (r : Result (Week * Z) * Result Z * Result CompileResult) : bool :=
  match r with
  | (Success _, Success _, Success _) => true
  | _ => false
  end.

(** A message without a sender address that carries an invite command. *)
Definition invite_from_nobody : Email :=
  mkEmail "Mailer Daemon" "submit@weeklyrecs.com" "" invite_body "".

Definition reply_with_invite_from_ann : Email :=
  mkEmail "Ann <ann@example.com>" "submit@weeklyrecs.com" "Re: this week"
          reply_with_invite_body "".

Definition at_noon : Ambient := mkAmbient 100 "0f1e2d3c".

(** A transport that is down, and one that refuses invitations only. *)
Definition transport_down : Env :=
  mkEnv None None None None (fun t n => t + n * day_ms) (fun _ _ => false).

Definition no_invitations : Env :=
  mkEnv None None None None (fun t n => t + n * day_ms)
        (fun _ m => match m with
                    | Invitation _ _ _ => false
                    | _ => true
                    end).

End Scenario.

(** ** Text in the source's own patterns

    Strings are read as sequences of code units below 256.  The three
    address patterns use only literal characters, character classes and
    greedy repetition of a class, with one capture group; [Regex] is a
    backtracking matcher for that fragment. *)

Definition code (c : ascii) : nat := nat_of_ascii c.

(** [\s], and what [trim] strips, among the code units below 256. *)
Definition is_space (c : ascii) : bool :=
  ((9 <=? code c) && (code c <=? 13) || (code c =? 32) || (code c =? 160))%nat.

Definition is_upper (c : ascii) : bool := ((65 <=? code c) && (code c <=? 90))%nat.
Definition is_lower (c : ascii) : bool := ((97 <=? code c) && (code c <=? 122))%nat.
Definition is_digit (c : ascii) : bool := ((48 <=? code c) && (code c <=? 57))%nat.
Definition is_letter (c : ascii) : bool := is_upper c || is_lower c.

(** [toLowerCase] on one code unit: A-Z, and the capitals of U+00C0-U+00DE
    other than the multiplication sign. *)
Definition lower_char (c : ascii) : ascii :=
  if is_upper c
     || ((192 <=? code c) && (code c <=? 222) && negb (code c =? 215))%nat
  then ascii_of_nat (code c + 32) else c.

(** Case folding for a literal under the [i] flag: a code unit below 256
    matches an ASCII letter only as that letter in either case. *)
Definition fold_char (c : ascii) : ascii :=
  if is_upper c then ascii_of_nat (code c + 32) else c.

Fixpoint toLowerCase (s : string) : string :=
  match s with
  | EmptyString => EmptyString
  | String c rest => String (lower_char c) (toLowerCase rest)
  end.

Fixpoint trimStart (s : string) : string :=
  match s with
  | String c rest => if is_space c then trimStart rest else s
  | EmptyString => EmptyString
  end.

Fixpoint trimEnd (s : string) : string :=
  match s with
  | EmptyString => EmptyString
  | String c rest =>
      match trimEnd rest with
      | EmptyString => if is_space c then EmptyString else String c EmptyString
      | kept => String c kept
      end
  end.

Definition trim (s : string) : string := trimEnd (trimStart s).

Module Regex.

Inductive Item :=
| Chr (c : ascii)
| ChrI (c : ascii)
| Rep (min : nat) (cls : ascii -> bool).

(** [cls{min,}], greedy: take one more while possible, and fall back to
    stopping here when the rest of the pattern fails further on. *)
Fixpoint rep (R : Type) (cls : ascii -> bool) (min : nat) (s : string)
    (k : string -> option R) : option R :=
  let stop := if (min =? 0)%nat then k s else None in
  match s with
  | String c rest =>
      if cls c then
        match rep cls (pred min) rest k with
        | Some r => Some r
        | None => stop
        end
      else stop
  | EmptyString => stop
  end.

(** The items in sequence from the start of [s]; [k] is the rest of the
    match and receives what is left of the input. *)
Fixpoint run (R : Type) (items : list Item) (s : string)
    (k : string -> option R) : option R :=
  match items with
  | [] => k s
  | Chr c :: more =>
      match s with
      | String x rest => if Ascii.eqb x c then run more rest k else None
      | EmptyString => None
      end
  | ChrI c :: more =>
      match s with
      | String x rest =>
          if Ascii.eqb (fold_char x) (fold_char c) then run more rest k else None
      | EmptyString => None
      end
  | Rep min cls :: more => rep cls min s (fun rest => run more rest k)
  end.

(** An unanchored pattern is tried at every position, leftmost first. *)
Fixpoint search (R : Type) (attempt : string -> option R) (s : string) : option R :=
  match attempt s with
  | Some r => Some r
  | None =>
      match s with
      | String _ rest => search attempt rest
      | EmptyString => None
      end
  end.

(** The text between the start of [s] and its suffix [rest]. *)
Definition consumed (s rest : string) : string :=
  substring 0 (String.length s - String.length rest) s.

Definition at_end (rest : string) : option unit :=
  match rest with
  | EmptyString => Some tt
  | _ => None
  end.

End Regex.

Module Patterns.
Import Regex.

Definition not_space_at (c : ascii) : bool :=
  negb (is_space c) && negb (Ascii.eqb c "@").

(** [[a-zA-Z0-9._%+-]] *)
Definition local_char (c : ascii) : bool :=
  is_letter c || is_digit c
  || Ascii.eqb c "." || Ascii.eqb c "_" || Ascii.eqb c "%"
  || Ascii.eqb c "+" || Ascii.eqb c "-".

(** [[a-zA-Z0-9.-]] *)
Definition domain_char (c : ascii) : bool :=
  is_letter c || is_digit c || Ascii.eqb c "." || Ascii.eqb c "-".

(** [[a-zA-Z0-9._%+-]+@[a-zA-Z0-9.-]+\.[a-zA-Z]{2,}] *)
Definition emailRegex : list Item :=
  [Rep 1 local_char; Chr "@"; Rep 1 domain_char; Chr "."; Rep 2 is_letter].

(** [[^\s@]+@[^\s@]+\.[^\s@]+] *)
Definition address : list Item :=
  [Rep 1 not_space_at; Chr "@"; Rep 1 not_space_at; Chr "."; Rep 1 not_space_at].

(** [INVITE:\s*] under the [i] flag *)
Definition invite_keyword : list Item :=
  [ChrI "I"; ChrI "N"; ChrI "V"; ChrI "I"; ChrI "T"; ChrI "E"; Chr ":";
   Rep 0 is_space].

(** [EmailProcessor.extractEmail]: null for an empty field, else group 1 of
    the first match, lower-cased. *)
Definition extractEmail (emailString : string) : option string :=
  if String.eqb emailString "" then None
  else search (fun s => run emailRegex s
                          (fun rest => Some (toLowerCase (consumed s rest))))
              emailString.

(** [InvitationService.isValidEmail]: the address pattern between [^] and [$]. *)
Definition isValidEmail (email : string) : bool :=
  match run address email at_end with
  | Some _ => true
  | None => false
  end.

(** [InvitationService.parseInviteCommand]: group 1 of the first match,
    lower-cased and trimmed. *)
Definition parseInviteCommand (emailBody : string) : option string :=
  search (fun s => run invite_keyword s
                     (fun s1 => run address s1
                                  (fun rest => Some (trim (toLowerCase (consumed s1 rest))))))
         emailBody.

(** The text functions of the services, with the submission parser left
    open. *)
Definition text (parser : string -> string -> ParsedSubmission) : TextParsing :=
  Build_TextParsing extractEmail parser parseInviteCommand isValidEmail
                    (fun s => trim (toLowerCase s)).

End Patterns.

(** ** Route guards and administration (routes/) *)

(** What a middleware does with a request: pass it on, or answer. *)
Inductive Verdict :=
| Next
| Refuse (code : Z) (error : string).

(** What a route answers: a JSON body, or a status with an error. *)
Inductive Reply (A : Type) :=
| Json (a : A)
| Status (code : Z) (error : string).
Arguments Status {A} code error.

(** [!x] on an optional header or variable: absent or empty. *)
Definition missing (x : option string) : bool :=
  match x with
  | Some s => String.eqb s ""
  | None => true
  end.

Module Admin.

(** [requireAuth] (routes/admin.js) *)
Definition requireAuth (adminKey authHeader : option string) : Verdict :=
  match adminKey with
  | None => Refuse 501 "Admin functionality not configured"
  | Some key =>
      if String.eqb key "" then Refuse 501 "Admin functionality not configured"
      else
        match authHeader with
        | None => Refuse 401 "Unauthorized"
        | Some header =>
            if String.eqb header "" || negb (String.eqb header ("Bearer " ++ key))
            then Refuse 401 "Unauthorized"
            else Next
        end
  end.

(** The body of [PATCH /users/:id]: a field is absent or carries a value. *)
Record UserPatch := mkUserPatch {
  patch_isActive : option bool;
  patch_firstName : option (option string);
  patch_lastName : option (option string)
}.

Definition apply_patch (p : UserPatch) (u : User) : User :=
  mkUser (user_id u) (email u)
         (match patch_firstName p with Some v => v | None => firstName u end)
         (match patch_lastName p with Some v => v | None => lastName u end)
         (match patch_isActive p with Some v => v | None => isActive u end)
         (inviteCount u).

Definition patchUser (id : Z) (p : UserPatch) : M (Reply User) :=
  updated <- prisma.user_update id (apply_patch p) ;;
  match updated with
  | Some user => ret (Json user)
  | None => ret (Status 500 "Failed to update user")
  end.

(** [DELETE /users/:id]: the member is kept and made inactive. *)
Definition deleteUser (id : Z) : M (Reply string) :=
  updated <- prisma.user_update id (apply_patch (mkUserPatch (Some false) None None)) ;;
  match updated with
  | Some _ => ret (Json "User deactivated")
  | None => ret (Status 500 "Failed to deactivate user")
  end.

End Admin.

Module WebhookGuard.
Section Guard.

(** [crypto.createHmac('sha256', key).update(data).digest('base64')] *)
Variable hmac_sha256_base64 : string -> string -> string.

(** [s.split(',')[0]] *)
Fixpoint first_piece (s : string) : string :=
  match s with
  | EmptyString => EmptyString
  | String c rest =>
      if Ascii.eqb c "," then EmptyString else String c (first_piece rest)
  end.

(** [s.replace(pat, '')] for a string [pat]: the first occurrence goes. *)
Fixpoint remove_first (pat s : string) : string :=
  if String.prefix pat s then substring (String.length pat) (String.length s) s
  else match s with
       | EmptyString => EmptyString
       | String c rest => String c (remove_first pat rest)
       end.

(** [verifyWebhookSignature] (routes/webhooks.js) *)
Definition verifyWebhookSignature (signature timestamp : option string)
    (body : string) (secret : option string) : Verdict :=
  match signature, timestamp with
  | Some sig, Some ts =>
      if String.eqb sig "" || String.eqb ts ""
      then Refuse 401 "Missing signature headers"
      else if missing secret then Next
      else
        let expectedSignature :=
          hmac_sha256_base64 (match secret with Some k => k | None => "" end)
                             (ts ++ body)%string in
        let actualSignature := remove_first "v1=" (first_piece sig) in
        if String.eqb expectedSignature actualSignature then Next
        else Refuse 401 "Invalid signature"
  | _, _ => Refuse 401 "Missing signature headers"
  end.

End Guard.
End WebhookGuard.

(** What [GET /status/:token] shows of an invitation. *)
Record InviteView := mkInviteView {
  view_status : InviteStatus;
  view_inviteeEmail : string;
  view_expiresAt : Z;
  view_acceptedAt : option Z;
  view_isExpired : bool;
  view_inviterName : string
}.

Module InviteRoutes.

(** [GET /status/:token] (routes/invites.js); the [sentAt] column is not
    among the columns of [Invite] and is left out of the view. *)
Definition status (token : string) (now : Z) (db : Db) : Reply InviteView :=
  match prisma.invite_findUnique_token token db with
  | None => Status 404 "Invitation not found"
  | Some inv =>
      match prisma.user_findUnique (inviterId inv) db with
      | None => Status 500 "Failed to check invitation status"
      | Some inviter =>
          let isExpired := now >? expiresAt inv in
          let shown :=
            if isExpired && InviteStatus_eqb (invite_status inv) pending
            then expired else invite_status inv in
          let name :=
            match or_null (firstName inviter) with
            | Some first => trim (first ++ " " ++ opt_or (lastName inviter) "")%string
            | None => email inviter
            end in
          Json (mkInviteView shown (inviteeEmail inv) (expiresAt inv)
                             (acceptedAt inv) isExpired name)
      end
  end.

End InviteRoutes.

(** ** Vocabulary of the further properties *)

(** A monadic step keeps a property of the store. *)
Definition keeps (P : Db -> Prop) (A : Type) (m : M A) : Prop :=
  forall db, P db -> P (snd (m db)).

(** A streak row counts from zero and never above its own record. *)
Definition streak_sane (s : UserStreak) : Prop :=
  0 <= currentStreak s <= longestStreak s.

Definition streaks_sane (db : Db) : Prop := Forall streak_sane (streaks db).

(** A row flagged as eligible has the streak the configuration asks for. *)
Definition flag_backed (env : Env) (s : UserStreak) : Prop :=
  canInvite s = true ->
  parseInt_or (STREAK_REQUIRED_FOR_INVITE env) 4 <= currentStreak s.

(** One streak row per member, each flag backed by its streak. *)
Definition flags_backed (env : Env) (db : Db) : Prop :=
  NoDup (streak_keys db) /\ Forall (flag_backed env) (streaks db).

(** The store a successful [sendInvitation] leaves. *)
Definition invited (env : Env) (inviter : Z) (who : User) (clean token : string) (now : Z)
    (db : Db) : Invite * Db :=
  let expires := moment_add_days env now (InvitationService.inviteExpiryDays env) in
  let inv := mkInvite (next_id (map invite_id (invites db))) inviter clean token
                      pending expires None in
  (inv,
   with_users (update_where (fun u => user_id u =? inviter)
                            prisma.bump_inviteCount (users db))
     (with_journal
        (journal db ++ [Sent (Invitation (InvitationService.inviterName who)
                                         clean token)])
        (with_invites (invites db ++ [inv]) db))).

(** The store [sendInvitation] leaves when the transport refuses the
    invitation mail: the invitation is stored, the inviter's count is as
    it was. *)
Definition stranded (env : Env) (inviter : Z) (who : User) (clean token : string)
    (now : Z) (db : Db) : Db :=
  with_journal
    (journal db ++ [Sent (Invitation (InvitationService.inviterName who)
                                     clean token)])
    (with_invites (invites db ++ [fst (invited env inviter who clean token now db)])
                  db).

(** A header value with more than one piece. *)
Fixpoint has_comma (s : string) : bool :=
  match s with
  | EmptyString => false
  | String c rest => Ascii.eqb c "," || has_comma rest
  end.

(** ** Vocabulary of the text properties *)

(** Every character of [s] is in the class. *)
Fixpoint all_in (cls : ascii -> bool) (s : string) : bool :=
  match s with
  | EmptyString => true
  | String c rest => cls c && all_in cls rest
  end.

(** The strings a sequence of items matches from end to end. *)
Inductive Matches : list Regex.Item -> string -> Prop :=
| Matches_end : Matches [] EmptyString
| Matches_chr (c : ascii) more s :
    Matches more s -> Matches (Regex.Chr c :: more) (String c s)
| Matches_chrI (c x : ascii) more s :
    fold_char x = fold_char c ->
    Matches more s -> Matches (Regex.ChrI c :: more) (String x s)
| Matches_rep (min : nat) (cls : ascii -> bool) more c s :
    all_in cls c = true -> (min <= String.length c)%nat ->
    Matches more s -> Matches (Regex.Rep min cls :: more) (c ++ s)%string.

(** Every character an item can match is in [P]. *)
Definition item_within (P : ascii -> bool) (it : Regex.Item) : Prop :=
  match it with
  | Regex.Chr c => P c = true
  | Regex.ChrI c => forall x, fold_char x = fold_char c -> P x = true
  | Regex.Rep _ cls => forall x, cls x = true -> P x = true
  end.

(** What an item matches, it still matches after [toLowerCase]. *)
Definition item_lower_stable (it : Regex.Item) : Prop :=
  match it with
  | Regex.Chr c => lower_char c = c
  | Regex.ChrI c => forall x, fold_char x = fold_char c ->
                              fold_char (lower_char x) = fold_char c
  | Regex.Rep _ cls => forall x, cls x = true -> cls (lower_char x) = true
  end.

(** The second item matches whatever the first does. *)
Definition item_weaker (it it' : Regex.Item) : Prop :=
  match it, it' with
  | Regex.Chr c, Regex.Chr c' => c = c'
  | Regex.ChrI c, Regex.ChrI c' => c = c'
  | Regex.Rep min cls, Regex.Rep min' cls' =>
      (min' <= min)%nat /\ forall x, cls x = true -> cls' x = true
  | _, _ => False
  end.

Definition not_space (c : ascii) : bool := negb (is_space c).


(** Nobody has more invitations out (pending or accepted) than the cap,
    and invitation ids are distinct. *)
Definition within_cap (env : Env) (db : Db) : Prop :=
  NoDup (map invite_id (invites db))
  /\ forall uid, length_Z (prisma.user_sentInvites uid db)
                 <= InvitationService.maxInvitesPerUser env.

(** Member ids and addresses are distinct, and streak rows belong to stored
    members. *)
Definition members_well_formed (db : Db) : Prop :=
  NoDup (map user_id (users db))
  /\ NoDup (map email (users db))
  /\ streaks_refer_to_users db.

(** The length bounds of the submission schema, on a stored row. *)
Definition submission_valid (s : Submission) : bool :=
  EmailProcessor.in_range 5 500 (recommendation s)
  && EmailProcessor.in_range 10 1000 (reasons s)
  && EmailProcessor.in_range 5 1000 (message s).

(** Stored submissions are within the bounds, belong to a stored week and a
    stored member, and are one per member and week. *)
Definition submissions_well_formed (db : Db) : Prop :=
  Forall (fun s => submission_valid s = true) (submissions db)
  /\ (forall s, In s (submissions db) ->
                In (weekId s) (map week_id (weeks db))
                /\ In (userId s) (map user_id (users db)))
  /\ NoDup (map (fun s => (userId s, weekId s)) (submissions db)).

(** [db'] has the submissions of [db] and at least its weeks and members. *)
Definition grows (db db' : Db) : Prop :=
  submissions db' = submissions db
  /\ incl (map week_id (weeks db)) (map week_id (weeks db'))
  /\ incl (map user_id (users db)) (map user_id (users db')).

(** A monadic step leaves the submissions alone and drops no week or member. *)
Definition extends (A : Type) (m : M A) : Prop :=
  forall db, grows db (snd (m db)).

(** * Properties *)

(** ** Calendar arithmetic *)

Lemma cycle_id_year (y w : Z) :
  0 <= w < 100 -> cycle_id y w / 100 = y.
Proof.
  intros Hw. unfold cycle_id.
  symmetry. apply (Z.div_unique _ 100 y w); lia.
Qed.

Lemma cycle_id_week (y w : Z) :
  0 <= y -> 0 <= w < 100 -> Z.rem (cycle_id y w) 100 = w.
Proof.
  intros Hy Hw. unfold cycle_id.
  rewrite Z.rem_mod_nonneg by lia.
  symmetry. apply (Z.mod_unique _ 100 y w); lia.
Qed.

Lemma cycle_id_truthy (y w : Z) :
  0 <= y -> 1 <= w -> falsy (Some (cycle_id y w)) = false.
Proof.
  intros Hy Hw. unfold falsy, cycle_id. apply Z.eqb_neq. lia.
Qed.

(** A week never follows itself. *)
Lemma isConsecutiveWeek_irrefl (n : Z) :
  WeeklyAutomation.isConsecutiveWeek (Some n) n = false.
Proof.
  unfold WeeklyAutomation.isConsecutiveWeek.
  destruct (falsy (Some n)); [reflexivity|].
  rewrite Z.eqb_refl. apply Z.eqb_neq. lia.
Qed.

(** C3. On cycle identifiers, [WeeklyAutomation.isConsecutiveWeek a b]
    holds exactly when [b] is [a + 1] within one year, or [b] is week 1
    of the year after [a]'s and [a] is week 52 or 53; in particular
    (202452, 202501) and (202452, 202453) are adjacent and
    (202451, 202501) is not. *)
Theorem isConsecutiveWeek_adjacency :
  (forall ya wa yb wb : Z,
      0 <= ya -> 0 <= yb -> is_week_of_year wa -> is_week_of_year wb ->
      WeeklyAutomation.isConsecutiveWeek (Some (cycle_id ya wa)) (cycle_id yb wb) = true
      <-> (ya = yb /\ cycle_id yb wb = cycle_id ya wa + 1)
          \/ (yb = ya + 1 /\ (wa = 52 \/ wa = 53) /\ wb = 1))
  /\ WeeklyAutomation.isConsecutiveWeek (Some 202452) 202501 = true
  /\ WeeklyAutomation.isConsecutiveWeek (Some 202451) 202501 = false
  /\ WeeklyAutomation.isConsecutiveWeek (Some 202452) 202453 = true.
Proof.
  split; [|repeat split; reflexivity].
  intros ya wa yb wb Hya Hyb Hwa Hwb. unfold is_week_of_year in *.
  unfold WeeklyAutomation.isConsecutiveWeek.
  rewrite cycle_id_truthy by lia.
  rewrite !cycle_id_year, !cycle_id_week by lia.
  unfold cycle_id.
  destruct (Z.eqb_spec ya yb) as [Heq|Hne].
  - rewrite Z.eqb_eq. lia.
  - destruct (Z.eqb_spec yb (ya + 1)) as [Hnext|Hfar].
    + rewrite andb_true_iff, Z.geb_le, Z.eqb_eq. lia.
    + split; [discriminate | lia].
Qed.

Lemma isConsecutiveWeek_adjacency_witness :
  WeeklyAutomation.isConsecutiveWeek (Some (cycle_id 2024 52)) (cycle_id 2025 1) = true
  <-> (2024 = 2025 /\ cycle_id 2025 1 = cycle_id 2024 52 + 1)
      \/ (2025 = 2024 + 1 /\ (52 = 52 \/ 52 = 53) /\ 1 = 1).
Proof.
  apply (proj1 isConsecutiveWeek_adjacency 2024 52 2025 1);
    unfold is_week_of_year; lia.
Defined.

(** Inside one year the two tests coincide on cycle identifiers. *)
Lemma isConsecutiveWeek_same_year (y wa wb : Z) :
  0 <= y -> is_week_of_year wa -> is_week_of_year wb ->
  EmailProcessor.isConsecutiveWeek (Some (cycle_id y wa)) (cycle_id y wb)
  = WeeklyAutomation.isConsecutiveWeek (Some (cycle_id y wa)) (cycle_id y wb).
Proof.
  intros Hy Hwa Hwb. unfold is_week_of_year in *.
  unfold EmailProcessor.isConsecutiveWeek, WeeklyAutomation.isConsecutiveWeek.
  rewrite cycle_id_truthy by lia.
  rewrite !cycle_id_year, !cycle_id_week by lia.
  rewrite Z.eqb_refl. unfold cycle_id.
  destruct (Z.eqb_spec (y * 100 + wb) (y * 100 + wa + 1));
    destruct (Z.eqb_spec wb (wa + 1)); try reflexivity; lia.
Qed.

(** C4. The two continuity tests disagree across the year boundary: from
    week 52 of 2024 to week 1 of 2025 the intake path sees a break where
    the close path sees a continuation. *)
Theorem isConsecutiveWeek_disagree_at_rollover :
  EmailProcessor.isConsecutiveWeek (Some 202452) 202501 = false
  /\ WeeklyAutomation.isConsecutiveWeek (Some 202452) 202501 = true.
Proof. split; reflexivity. Qed.

(** ** Streaks under the two update paths *)

(** At the close the member's last submission week is already the closing
    week, written at intake, so the close restarts the count. *)
Lemma close_restarts_count_after_intake (env : Env) (user : User)
    (st : UserStreak) (n now : Z) (db : Db) :
  lastSubmissionWeek st = Some n ->
  prisma.userStreak_findUnique (user_id user) db = Some st ->
  option_map currentStreak
    (prisma.userStreak_findUnique (user_id user)
       (snd (WeeklyAutomation.updateUserStreak env user (Some st) n true now db)))
  = Some 1.
Proof.
  intros Hlast Hrow.
  unfold WeeklyAutomation.updateUserStreak, bind, prisma.userStreak_update.
  rewrite Hlast, isConsecutiveWeek_irrefl, Hrow. cbn [andb].
  set (row := mkStreak _ _ _ _ _ _).
  assert (Hfind : prisma.userStreak_findUnique (user_id user)
                    (with_journal (journal db ++ [StreakWrite (user_id user)])
                       (with_streaks
                          (update_where (fun s => streak_userId s =? user_id user)
                                        (fun _ => row) (streaks db)) db))
                  = Some row).
  { unfold prisma.userStreak_findUnique in *. cbn [streaks with_journal with_streaks].
    induction (streaks db) as [|s rest IH]; [discriminate|].
    cbn [update_where map find] in *.
    destruct (streak_userId s =? user_id user) eqn:Hs.
    - subst row. cbn [find streak_userId]. rewrite Z.eqb_refl. reflexivity.
    - cbn [find]. rewrite Hs. apply IH, Hrow. }
  match goal with
  | |- context [if ?c then _ else _] => destruct c
  end; cbn [snd send emit ret with_journal streaks];
    [unfold prisma.userStreak_findUnique in *;
     cbn [streaks with_journal with_streaks] in *|]; rewrite Hfind; reflexivity.
Qed.

(** C1. Under the program's update paths (streak written at intake and
    again at the close), a member who replies in the four cycles 202401 to
    202404 ends the close of 202404 with a current streak of 1, not 4, no
    invite eligibility, and no eligibility notice sent. *)
Theorem four_cycles_leave_streak_at_one :
  let out := Scenario.four_cycles Scenario.members_only in
  forallb Scenario.all_succeeded (fst out) = true
  /\ prisma.userStreak_findUnique 1 (snd out)
     = Some (mkStreak 1 1 2 (Some 202404) false None)
  /\ eligibility_notices (snd out) = 0%nat.
Proof. vm_compute. repeat split. Qed.

(** Either update path alone counts the four weeks and grants eligibility
    with one notice. *)
Lemma each_path_alone_counts_to_four :
  prisma.userStreak_findUnique 1 (snd (Scenario.intake_only Scenario.members_only))
  = Some (mkStreak 1 4 4 (Some 202404) true (Some 4))
  /\ eligibility_notices (snd (Scenario.intake_only Scenario.members_only)) = 1%nat
  /\ prisma.userStreak_findUnique 1 (snd (Scenario.close_only Scenario.members_only))
     = Some (mkStreak 1 4 4 (Some 202404) true (Some 4))
  /\ eligibility_notices (snd (Scenario.close_only Scenario.members_only)) = 1%nat.
Proof. vm_compute. repeat split. Qed.

(** C2. At intake the flag is computed from the streak alone: a member at
    the invitation cap whose streak reaches the threshold is flagged
    eligible, where the close path and the rule itself say no. *)
Theorem intake_flag_ignores_cap :
  let st := mkStreak 2 3 3 (Some 202403) false None in
  option_map canInvite
    (prisma.userStreak_findUnique 2
       (snd (EmailProcessor.updateUserStreak default_env 2 202404 7
               Scenario.bob_at_cap))) = Some true
  /\ option_map canInvite
       (prisma.userStreak_findUnique 2
          (snd (WeeklyAutomation.updateUserStreak default_env Scenario.bob
                  (Some st) 202404 true 7 Scenario.bob_at_cap))) = Some false
  /\ eligibility_flag 4 5 4 (inviteCount Scenario.bob) = false.
Proof. vm_compute. repeat split. Qed.

(** The sweep counts pending and accepted invitations, the close reads the
    lifetime counter: with a lapsed invitation they part ways. *)
Lemma sweep_and_close_count_differently :
  let st := mkStreak 2 4 4 (Some 202404) false None in
  option_map canInvite
    (prisma.userStreak_findUnique 2
       (snd (InvitationService.checkAllUsersEligibility default_env 7
               Scenario.bob_with_lapsed_invitation))) = Some true
  /\ option_map canInvite
       (prisma.userStreak_findUnique 2
          (snd (WeeklyAutomation.updateUserStreak default_env Scenario.bob
                  (Some st) 202405 true 7 Scenario.bob_with_lapsed_invitation)))
     = Some false.
Proof. vm_compute. repeat split. Qed.

(** ** Frame rules *)

Section Frames.
Variables (X : Type) (f : Db -> X).

Lemma preserves_ret (A : Type) (a : A) : preserves f (ret a).
Proof. intros db. reflexivity. Qed.

Lemma preserves_reads (A : Type) (g : Db -> A) : preserves f (reads g).
Proof. intros db. reflexivity. Qed.

Lemma preserves_bind (A B : Type) (m : M A) (k : A -> M B) :
  preserves f m -> (forall a, preserves f (k a)) -> preserves f (bind m k).
Proof.
  intros Hm Hk db. unfold bind.
  specialize (Hm db). destruct (m db) as [a db']. cbn [snd] in Hm.
  rewrite Hk. exact Hm.
Qed.

Lemma preserves_for_each (A : Type) (l : list A) (body : A -> M unit) :
  (forall x, preserves f (body x)) -> preserves f (for_each l body).
Proof.
  intros Hbody. induction l as [|x rest IH]; cbn [for_each].
  - apply preserves_ret.
  - apply preserves_bind; [apply Hbody | intros _; exact IH].
Qed.

End Frames.

Ltac frame_prim :=
  intros ?db;
  repeat match goal with
         | |- context [match ?x with _ => _ end] => destruct x
         end;
  reflexivity.

Lemma emit_weeks e : preserves weeks (emit e).
Proof. frame_prim. Qed.
Lemma emit_users e : preserves users (emit e).
Proof. frame_prim. Qed.
Lemma emit_streaks e : preserves streaks (emit e).
Proof. frame_prim. Qed.
Lemma emit_submissions e : preserves submissions (emit e).
Proof. frame_prim. Qed.
Lemma emit_invites e : preserves invites (emit e).
Proof. frame_prim. Qed.

Lemma sgMail_send_weeks env m : preserves weeks (sgMail_send env m).
Proof. frame_prim. Qed.
Lemma sgMail_send_users env m : preserves users (sgMail_send env m).
Proof. frame_prim. Qed.
Lemma sgMail_send_streaks env m : preserves streaks (sgMail_send env m).
Proof. frame_prim. Qed.
Lemma sgMail_send_submissions env m : preserves submissions (sgMail_send env m).
Proof. frame_prim. Qed.
Lemma sgMail_send_invites env m : preserves invites (sgMail_send env m).
Proof. frame_prim. Qed.

(** The prompts touch whatever the hand-over of one message leaves alone. *)
Lemma sendWeeklyPrompt_frame (X : Type) (f : Db -> X) env members n :
  (forall m, preserves f (sgMail_send env m)) ->
  preserves f (sendWeeklyPrompt env members n).
Proof.
  intros Hone. induction members as [|u rest IH]; cbn [sendWeeklyPrompt].
  - apply preserves_ret.
  - apply preserves_bind; [apply Hone|]. intros taken.
    apply preserves_bind; [exact IH|]. intros count. apply preserves_ret.
Qed.

Lemma sendWeeklyPrompt_weeks env members n :
  preserves weeks (sendWeeklyPrompt env members n).
Proof. apply sendWeeklyPrompt_frame, sgMail_send_weeks. Qed.
Lemma sendWeeklyPrompt_users env members n :
  preserves users (sendWeeklyPrompt env members n).
Proof. apply sendWeeklyPrompt_frame, sgMail_send_users. Qed.
Lemma sendWeeklyPrompt_streaks env members n :
  preserves streaks (sendWeeklyPrompt env members n).
Proof. apply sendWeeklyPrompt_frame, sgMail_send_streaks. Qed.
Lemma sendWeeklyPrompt_submissions env members n :
  preserves submissions (sendWeeklyPrompt env members n).
Proof. apply sendWeeklyPrompt_frame, sgMail_send_submissions. Qed.
Lemma sendWeeklyPrompt_invites env members n :
  preserves invites (sendWeeklyPrompt env members n).
Proof. apply sendWeeklyPrompt_frame, sgMail_send_invites. Qed.

Lemma week_update_users id st : preserves users (prisma.week_update id st).
Proof. unfold prisma.week_update. frame_prim. Qed.
Lemma week_update_streaks id st : preserves streaks (prisma.week_update id st).
Proof. unfold prisma.week_update. frame_prim. Qed.
Lemma week_update_submissions id st : preserves submissions (prisma.week_update id st).
Proof. unfold prisma.week_update. frame_prim. Qed.

Lemma userStreak_create_weeks s : preserves weeks (prisma.userStreak_create s).
Proof. unfold prisma.userStreak_create. frame_prim. Qed.
Lemma userStreak_create_users s : preserves users (prisma.userStreak_create s).
Proof. unfold prisma.userStreak_create. frame_prim. Qed.
Lemma userStreak_create_submissions s :
  preserves submissions (prisma.userStreak_create s).
Proof. unfold prisma.userStreak_create. frame_prim. Qed.

Lemma userStreak_update_weeks u d : preserves weeks (prisma.userStreak_update u d).
Proof. unfold prisma.userStreak_update. frame_prim. Qed.
Lemma userStreak_update_users u d : preserves users (prisma.userStreak_update u d).
Proof. unfold prisma.userStreak_update. frame_prim. Qed.
Lemma userStreak_update_submissions u d :
  preserves submissions (prisma.userStreak_update u d).
Proof. unfold prisma.userStreak_update. frame_prim. Qed.

Lemma user_create_weeks e a b c : preserves weeks (prisma.user_create e a b c).
Proof. unfold prisma.user_create. frame_prim. Qed.
Lemma user_create_submissions e a b c :
  preserves submissions (prisma.user_create e a b c).
Proof. unfold prisma.user_create. frame_prim. Qed.

Lemma user_increment_weeks id : preserves weeks (prisma.user_increment_inviteCount id).
Proof. unfold prisma.user_increment_inviteCount. frame_prim. Qed.
Lemma user_increment_submissions id :
  preserves submissions (prisma.user_increment_inviteCount id).
Proof. unfold prisma.user_increment_inviteCount. frame_prim. Qed.

Lemma invite_create_weeks a b c d : preserves weeks (prisma.invite_create a b c d).
Proof. unfold prisma.invite_create. frame_prim. Qed.
Lemma invite_create_submissions a b c d :
  preserves submissions (prisma.invite_create a b c d).
Proof. unfold prisma.invite_create. frame_prim. Qed.

Lemma invite_update_weeks id d : preserves weeks (prisma.invite_update id d).
Proof. unfold prisma.invite_update. frame_prim. Qed.
Lemma invite_update_submissions id d :
  preserves submissions (prisma.invite_update id d).
Proof. unfold prisma.invite_update. frame_prim. Qed.

Lemma submission_create_weeks a b c d e :
  preserves weeks (prisma.submission_create a b c d e).
Proof. unfold prisma.submission_create. frame_prim. Qed.
Lemma submission_create_users a b c d e :
  preserves users (prisma.submission_create a b c d e).
Proof. unfold prisma.submission_create. frame_prim. Qed.

Create HintDb frames.
#[export] Hint Resolve emit_weeks emit_users emit_streaks emit_submissions
  emit_invites sgMail_send_weeks sgMail_send_users sgMail_send_streaks
  sgMail_send_submissions sgMail_send_invites sendWeeklyPrompt_weeks
  sendWeeklyPrompt_users sendWeeklyPrompt_streaks sendWeeklyPrompt_submissions
  sendWeeklyPrompt_invites week_update_users week_update_streaks week_update_submissions
  userStreak_create_weeks userStreak_create_users userStreak_create_submissions
  userStreak_update_weeks userStreak_update_users userStreak_update_submissions
  user_create_weeks user_create_submissions user_increment_weeks
  user_increment_submissions invite_create_weeks invite_create_submissions
  invite_update_weeks invite_update_submissions submission_create_weeks
  submission_create_users : frames.

(** Walks a service method built from binds, branches and primitives. *)
Ltac frame :=
  repeat first
    [ apply preserves_ret
    | apply preserves_reads
    | apply preserves_bind; [|intros ?]
    | apply preserves_for_each; intros ?
    | unfold send; solve [auto with frames]
    | match goal with
      | |- preserves _ (match ?x with _ => _ end) => destruct x
      | |- preserves _ (if ?b then _ else _) => destruct b
      end
    | progress cbv zeta ].

Lemma EP_updateUserStreak_weeks env u n now :
  preserves weeks (EmailProcessor.updateUserStreak env u n now).
Proof. unfold EmailProcessor.updateUserStreak. frame. Qed.

Lemma EP_updateUserStreak_users env u n now :
  preserves users (EmailProcessor.updateUserStreak env u n now).
Proof. unfold EmailProcessor.updateUserStreak. frame. Qed.

Lemma EP_updateUserStreak_submissions env u n now :
  preserves submissions (EmailProcessor.updateUserStreak env u n now).
Proof. unfold EmailProcessor.updateUserStreak. frame. Qed.

Lemma WA_updateUserStreak_weeks env u s n d now :
  preserves weeks (WeeklyAutomation.updateUserStreak env u s n d now).
Proof. unfold WeeklyAutomation.updateUserStreak. frame. Qed.

Lemma updateAllUserStreaks_weeks env n subs now :
  preserves weeks (WeeklyAutomation.updateAllUserStreaks env n subs now).
Proof.
  unfold WeeklyAutomation.updateAllUserStreaks. frame.
  apply WA_updateUserStreak_weeks.
Qed.

(** ** Closing a week *)

Lemma week_update_found id st db w :
  prisma.week_findUnique id db = Some w ->
  prisma.week_update id st db
  = (true, with_journal (journal db ++ [WeekWrite id st])
             (with_weeks (update_where (fun w => week_id w =? id)
                                       (prisma.set_week_status st) (weeks db)) db)).
Proof. intros H. unfold prisma.week_update. rewrite H. reflexivity. Qed.

Lemma findFirst_findUnique st db w :
  prisma.week_findFirst st db = Some w ->
  exists w', prisma.week_findUnique (week_id w) db = Some w'.
Proof.
  unfold prisma.week_findFirst, prisma.week_findUnique. intros H.
  apply find_some in H. destruct H as [Hin _].
  destruct (find (fun w0 => week_id w0 =? week_id w) (weeks db)) as [w'|] eqn:E.
  - exists w'. reflexivity.
  - apply (find_none _ _ E) in Hin. rewrite Z.eqb_refl in Hin. discriminate.
Qed.

Lemma findUnique_after_update id st db w :
  prisma.week_findUnique id db = Some w ->
  prisma.week_findUnique id
    (with_journal (journal db ++ [WeekWrite id st])
       (with_weeks (update_where (fun w => week_id w =? id)
                                 (prisma.set_week_status st) (weeks db)) db))
  = Some (prisma.set_week_status st w).
Proof.
  unfold prisma.week_findUnique. cbn [weeks with_journal with_weeks].
  induction (weeks db) as [|x rest IH]; [discriminate|].
  cbn [find update_where map]. destruct (week_id x =? id) eqn:Hx.
  - intros [= ->]. cbn [find prisma.set_week_status week_id]. rewrite Hx. reflexivity.
  - cbn [find]. rewrite Hx. exact IH.
Qed.

(** With no submission in the open week, the close writes the two status
    changes and nothing else: no streak row is touched. *)
Lemma close_without_submissions env now db w :
  prisma.week_findFirst open db = Some w ->
  prisma.week_submissions (week_id w) db = [] ->
  fst (WeeklyAutomation.closeWeekAndCompile env now db)
  = Success (mkCompileResult (weekNumber w) 0 (Some 0))
  /\ streaks (snd (WeeklyAutomation.closeWeekAndCompile env now db)) = streaks db
  /\ effects_of (WeeklyAutomation.closeWeekAndCompile env now) db
     = [WeekWrite (week_id w) closed; WeekWrite (week_id w) compiled].
Proof.
  intros Hopen Hnone.
  destruct (findFirst_findUnique _ _ Hopen) as [w' Hid].
  unfold effects_of, WeeklyAutomation.closeWeekAndCompile, bind, reads.
  rewrite Hopen, Hnone. cbn [length_Z List.length Z.of_nat Z.eqb].
  rewrite (week_update_found _ closed _ Hid).
  rewrite (week_update_found _ compiled _ (findUnique_after_update _ closed _ Hid)).
  cbn [fst snd ret streaks journal with_journal with_weeks].
  repeat split.
  rewrite <- !app_assoc. rewrite skipn_app, skipn_all, Nat.sub_diag.
  reflexivity.
Qed.

(** C5. Closing a week that received no submission leaves it compiled but
    runs no streak update: a member whose streak stood at 4 keeps 4, where
    the same close with somebody else's submission resets it to 0. *)
Theorem close_of_quiet_week_skips_streaks :
  let quiet := WeeklyAutomation.closeWeekAndCompile default_env 9 Scenario.quiet_week in
  let busy := WeeklyAutomation.closeWeekAndCompile default_env 9
                Scenario.week_with_bobs_reply in
  fst quiet = Success (mkCompileResult 202405 0 (Some 0))
  /\ option_map week_status (prisma.week_findUnique 1 (snd quiet)) = Some compiled
  /\ option_map currentStreak (prisma.userStreak_findUnique 1 (snd quiet)) = Some 4
  /\ existsb (fun e => match e with StreakWrite _ => true | _ => false end)
             (journal (snd quiet)) = false
  /\ option_map currentStreak (prisma.userStreak_findUnique 1 (snd busy)) = Some 0.
Proof. vm_compute. repeat split. Qed.

Lemma userStreak_findUnique_None uid db :
  prisma.userStreak_findUnique uid db = None <-> ~ In uid (streak_keys db).
Proof.
  unfold prisma.userStreak_findUnique, streak_keys.
  induction (streaks db) as [|s rest IH]; cbn [find map In].
  - tauto.
  - destruct (Z.eqb_spec (streak_userId s) uid) as [->|Hne].
    + split; [discriminate | tauto].
    + rewrite IH. tauto.
Qed.

Lemma update_where_keys uid row l :
  streak_userId row = uid ->
  map streak_userId
      (update_where (fun s => streak_userId s =? uid) (fun _ => row) l)
  = map streak_userId l.
Proof.
  intros Hrow. induction l as [|s rest IH]; cbn [update_where map]; [reflexivity|].
  fold (update_where (fun s => streak_userId s =? uid) (fun _ => row) rest).
  rewrite IH. destruct (Z.eqb_spec (streak_userId s) uid); congruence.
Qed.

(** What one call of the close-path streak update does to the journal and
    to the set of members that have a streak row. *)
Lemma WA_updateUserStreak_effect env user row n d now db :
  let db' := snd (WeeklyAutomation.updateUserStreak env user row n d now db) in
  exists t,
    journal db' = journal db ++ t
    /\ (forall e, In e t -> is_WeekWrite e = false)
    /\ incl (streak_keys db) (streak_keys db')
    /\ (forall id, In id (streak_keys db') ->
          In id (streak_keys db)
          \/ (id = user_id user /\ In (StreakWrite (user_id user)) t))
    /\ (row = None -> ~ In (user_id user) (streak_keys db) ->
        In (StreakWrite (user_id user)) t)
    /\ (row <> None -> In (user_id user) (streak_keys db) ->
        In (StreakWrite (user_id user)) t).
Proof.
  unfold WeeklyAutomation.updateUserStreak.
  destruct row as [st|]; unfold bind.
  - unfold prisma.userStreak_update.
    destruct (prisma.userStreak_findUnique (user_id user) db) as [found|] eqn:E.
    + match goal with
      | |- context [if ?c then _ else _] => destruct c
      end; cbn [snd send emit ret journal with_journal with_streaks streaks].
      * exists [StreakWrite (user_id user);
                Sent (InviteEligibilityNotification (email user)
                        (opt_or (firstName user) "Friend")
                        (if d then
                           if WeeklyAutomation.isConsecutiveWeek
                                (lastSubmissionWeek st) n
                           then currentStreak st + 1 else 1
                         else 0))].
        unfold streak_keys. cbn [streaks with_journal with_streaks].
        rewrite update_where_keys by reflexivity.
        repeat split.
        -- rewrite <- app_assoc. reflexivity.
        -- intros e [<-|[<-|[]]]; reflexivity.
        -- apply incl_refl.
        -- intros id Hid. left. exact Hid.
        -- intros _ _. left. reflexivity.
        -- intros _ _. left. reflexivity.
      * exists [StreakWrite (user_id user)].
        unfold streak_keys. cbn [streaks with_journal with_streaks].
        rewrite update_where_keys by reflexivity.
        repeat split.
        -- intros e [<-|[]]; reflexivity.
        -- apply incl_refl.
        -- intros id Hid. left. exact Hid.
        -- intros _ _. left. reflexivity.
        -- intros _ _. left. reflexivity.
    + cbn [andb snd ret]. exists []. rewrite app_nil_r.
      apply userStreak_findUnique_None in E.
      repeat split.
      * intros e [].
      * apply incl_refl.
      * intros id Hid. left. exact Hid.
      * discriminate.
      * intros _ Hin. contradiction.
  - unfold prisma.userStreak_create. cbn [streak_userId].
    destruct (prisma.userStreak_findUnique (user_id user) db) as [found|] eqn:E;
      cbn [snd ret journal with_journal with_streaks streaks].
    + exists []. rewrite app_nil_r.
      assert (Hin : In (user_id user) (streak_keys db)).
      { destruct (in_dec Z.eq_dec (user_id user) (streak_keys db)) as [H|H];
          [exact H|].
        apply userStreak_findUnique_None in H. congruence. }
      repeat split.
      * intros e [].
      * apply incl_refl.
      * intros id Hid. left. exact Hid.
      * intros _ Hout. contradiction.
      * intros Hrow. contradiction.
    + exists [StreakWrite (user_id user)].
      unfold streak_keys. cbn [streaks with_journal with_streaks]. rewrite map_app. cbn [map streak_userId].
      repeat split.
      * intros e [<-|[]]; reflexivity.
      * apply incl_appl, incl_refl.
      * intros id Hid. apply in_app_or in Hid. destruct Hid as [Hid|[<-|[]]].
        -- left. exact Hid.
        -- right. split; [reflexivity | left; reflexivity].
      * intros _ _. left. reflexivity.
      * intros Hrow. contradiction.
Qed.

(** The loop of [updateAllUserStreaks]: every row whose snapshot agrees
    with the store gets its streak write, and only streak writes and
    notices are journalled. *)
Lemma streak_loop_effect env n ids now rows : forall db,
  (forall u st, In (u, Some st) rows -> In (user_id u) (streak_keys db)) ->
  exists tail,
    journal (snd (for_each rows
                    (fun row =>
                       WeeklyAutomation.updateUserStreak env (fst row) (snd row) n
                         (existsb (Z.eqb (user_id (fst row))) ids) now) db))
    = journal db ++ tail
    /\ (forall e, In e tail -> is_WeekWrite e = false)
    /\ (forall u s, In (u, s) rows ->
          (s = None -> ~ In (user_id u) (streak_keys db)) ->
          In (StreakWrite (user_id u)) tail).
Proof.
  induction rows as [|[u0 s0] rest IH]; intros db Hsnap.
  - exists []. cbn [for_each ret snd]. rewrite app_nil_r.
    repeat split; intros; contradiction.
  - cbn [for_each]. unfold bind. cbn [fst snd].
    pose proof (WA_updateUserStreak_effect env u0 s0 n
                  (existsb (Z.eqb (user_id u0)) ids) now db) as Hstep.
    cbv zeta in Hstep.
    destruct (WeeklyAutomation.updateUserStreak env u0 s0 n
                (existsb (Z.eqb (user_id u0)) ids) now db) as [[] db1].
    cbn [snd] in Hstep.
    destruct Hstep as (t0 & Hj0 & Hw0 & Hkeep & Hnew & Hcreate & Hupdate).
    destruct (IH db1) as (t1 & Hj1 & Hw1 & Hall).
    { intros u st Hin. apply Hkeep, (Hsnap u st). right. exact Hin. }
    exists (t0 ++ t1). repeat split.
    + rewrite Hj1, Hj0, app_assoc. reflexivity.
    + intros e He. apply in_app_or in He. destruct He; auto.
    + intros u s [Heq|Hin] Hfresh; apply in_or_app.
      * injection Heq as <- <-. left. destruct s0 as [st|].
        -- apply Hupdate; [discriminate|]. apply (Hsnap u0 st). left. reflexivity.
        -- apply Hcreate; [reflexivity | apply Hfresh; reflexivity].
      * destruct (in_dec Z.eq_dec (user_id u) (streak_keys db1)) as [Hthere|Hnot].
        -- destruct s as [st|].
           ++ right. apply (Hall u (Some st) Hin). discriminate.
           ++ destruct (Hnew _ Hthere) as [Hold|[Hsame Hwrote]].
              ** exfalso. apply (Hfresh eq_refl), Hold.
              ** left. rewrite Hsame. exact Hwrote.
        -- right. apply (Hall u s Hin). intros _. exact Hnot.
Qed.

Lemma updateAllUserStreaks_effect env n subs now db :
  exists tail,
    journal (snd (WeeklyAutomation.updateAllUserStreaks env n subs now db))
    = journal db ++ tail
    /\ (forall e, In e tail -> is_WeekWrite e = false)
    /\ (forall u, In u (prisma.user_findMany_active db) ->
          In (StreakWrite (user_id u)) tail).
Proof.
  unfold WeeklyAutomation.updateAllUserStreaks, bind, reads.
  destruct (streak_loop_effect env n (map userId subs) now
              (map (WeeklyAutomation.with_streak db) (prisma.user_findMany_active db))
              db) as (tail & Hj & Hw & Hall).
  { intros u st Hin. apply in_map_iff in Hin. destruct Hin as (u' & Heq & _).
    unfold WeeklyAutomation.with_streak in Heq. injection Heq as -> Hrow.
    destruct (in_dec Z.eq_dec (user_id u) (streak_keys db)) as [H|H]; [exact H|].
    apply userStreak_findUnique_None in H. congruence. }
  exists tail. repeat split; [exact Hj | exact Hw |].
  intros u Hu.
  apply (Hall u (prisma.userStreak_findUnique (user_id u) db)).
  - apply in_map_iff. exists u. split; [reflexivity | exact Hu].
  - intros Hnone. apply userStreak_findUnique_None, Hnone.
Qed.

Lemma length_Z_nonempty (A : Type) (l : list A) :
  l <> [] -> (length_Z l =? 0) = false.
Proof.
  intros H. destruct l as [|x rest]; [contradiction|].
  apply Z.eqb_neq. unfold length_Z. cbn [List.length]. lia.
Qed.

Lemma skipn_own_length (A : Type) (l t : list A) :
  skipn (List.length l) (l ++ t) = t.
Proof. rewrite skipn_app, skipn_all, Nat.sub_diag. reflexivity. Qed.

(** C6, as the code has it.  When the open week holds at least one
    submission, the close writes the week as closed and hands over the
    compilation.  If the transport refuses it the close throws there:
    the week stays closed, is never written as compiled, and no streak
    row is touched.  Otherwise the close writes the week as compiled and
    only then runs the streak updates: every active member gets a streak
    write after the compiled write and before the close returns, and the
    week is not written again. *)
Theorem close_updates_streaks_after_compiled env now db w :
  prisma.week_findFirst open db = Some w ->
  prisma.week_submissions (week_id w) db <> [] ->
  let subs := prisma.week_submissions (week_id w) db in
  let who := WeeklyAutomation.participants subs db in
  let out := WeeklyAutomation.closeWeekAndCompile env now db in
  if compilation_taken env db w
  then
    exists tail,
      effects_of (WeeklyAutomation.closeWeekAndCompile env now) db
      = [WeekWrite (week_id w) closed;
         Sent (WeeklyCompilation who (weekNumber w));
         WeekWrite (week_id w) compiled] ++ tail
      /\ (forall e, In e tail -> is_WeekWrite e = false)
      /\ (forall u, In u (prisma.user_findMany_active db) ->
            In (StreakWrite (user_id u)) tail)
      /\ fst out
         = Success (mkCompileResult (weekNumber w) (length_Z subs)
                                    (Some (length_Z who)))
  else
    effects_of (WeeklyAutomation.closeWeekAndCompile env now) db
    = [WeekWrite (week_id w) closed;
       Sent (WeeklyCompilation who (weekNumber w))]
    /\ fst out = Thrown
    /\ option_map week_status (prisma.week_findUnique (week_id w) (snd out))
       = Some closed
    /\ streaks (snd out) = streaks db.
Proof.
  intros Hopen Hsome subs who out. subst out.
  destruct (findFirst_findUnique _ _ Hopen) as [w' Hid].
  unfold effects_of, WeeklyAutomation.closeWeekAndCompile, bind, reads.
  rewrite Hopen, (length_Z_nonempty Hsome). fold subs. fold who.
  rewrite (week_update_found _ closed _ Hid).
  unfold sgMail_send, compilation_taken. fold subs. fold who.
  set (d1 := with_journal _ (with_weeks _ db)).
  change (journal d1) with (journal db ++ [WeekWrite (week_id w) closed]).
  assert (Hid1 : forall j, prisma.week_findUnique (week_id w) (with_journal j d1)
                           = Some (prisma.set_week_status closed w')).
  { intros j. rewrite <- (findUnique_after_update _ closed _ Hid). reflexivity. }
  destruct (transport env (journal db ++ [WeekWrite (week_id w) closed])
              (WeeklyCompilation who (weekNumber w))); cbn [negb].
  - rewrite (week_update_found _ compiled _ (Hid1 _)).
    set (d3 := with_journal _ (with_weeks _ _)).
    destruct (updateAllUserStreaks_effect env (weekNumber w) subs now d3)
      as (tail & Hj & Hw & Hall).
    destruct (WeeklyAutomation.updateAllUserStreaks env (weekNumber w) subs now d3)
      as [[] d4].
    cbn [fst snd ret] in *.
    exists tail. rewrite Hj. subst d3 d1.
    cbn [journal with_journal with_weeks].
    repeat split.
    + rewrite <- !app_assoc. rewrite skipn_own_length. reflexivity.
    + exact Hw.
    + exact Hall.
  - cbn [fst snd ret]. rewrite Hid1. subst d1.
    cbn [journal streaks with_journal with_weeks].
    repeat split.
    rewrite <- !app_assoc. rewrite skipn_own_length. reflexivity.
Qed.

Lemma close_updates_streaks_after_compiled_witness :
  exists tail,
    effects_of (WeeklyAutomation.closeWeekAndCompile default_env 5)
               Scenario.week_with_reply
    = [WeekWrite 1 closed;
       Sent (WeeklyCompilation ["ann@example.com"%string] 202401);
       WeekWrite 1 compiled] ++ tail
    /\ In (StreakWrite 1) tail.
Proof.
  pose proof (@close_updates_streaks_after_compiled default_env 5
                Scenario.week_with_reply
                (mkWeek 1 202401 64878710400000 64879034400000 open 64878710400000)
                eq_refl ltac:(vm_compute; discriminate)) as Hclose.
  cbv zeta in Hclose.
  change (compilation_taken default_env Scenario.week_with_reply
            (mkWeek 1 202401 64878710400000 64879034400000 open 64878710400000))
    with true in Hclose.
  destruct Hclose as (tail & Hj & _ & Hall & _).
  exists tail. split.
  - exact Hj.
  - apply (Hall Scenario.ann). vm_compute. left. reflexivity.
Defined.

(** C6, as stated, fails: in the close of a week with one submission the
    member's streak write comes after the compiled write. *)
Lemma close_compiles_before_streaks :
  ~ streaks_before_compiled 1 [1]
      (effects_of (WeeklyAutomation.closeWeekAndCompile default_env 5)
                  Scenario.week_with_reply).
Proof.
  intros H.
  specialize (H [WeekWrite 1 closed;
                 Sent (WeeklyCompilation ["ann@example.com"%string] 202401)]
                [StreakWrite 1] eq_refl 1 (or_introl eq_refl)).
  cbn [In] in H. destruct H as [H|[H|[]]]; discriminate.
Qed.

(** ** At most one open week *)

Lemma opens_nothing_of_preserves (A : Type) (m : M A) :
  preserves weeks m -> opens_nothing m.
Proof.
  intros H db. unfold open_count, open_weeks. rewrite H. apply Nat.le_refl.
Qed.

Lemma opens_nothing_bind (A B : Type) (m : M A) (k : A -> M B) :
  opens_nothing m -> (forall a, opens_nothing (k a)) -> opens_nothing (bind m k).
Proof.
  intros Hm Hk db. unfold bind.
  specialize (Hm db). destruct (m db) as [a db']. cbn [snd] in Hm.
  eapply Nat.le_trans; [apply Hk | exact Hm].
Qed.

Lemma filter_open_update_where p st l :
  st <> open ->
  (List.length (filter (prisma.is_status open)
                       (update_where p (prisma.set_week_status st) l))
   <= List.length (filter (prisma.is_status open) l))%nat.
Proof.
  intros Hst. induction l as [|w rest IH]; cbn [update_where map filter].
  - apply Nat.le_refl.
  - fold (update_where p (prisma.set_week_status st) rest).
    destruct (p w).
    + replace (prisma.is_status open (prisma.set_week_status st w)) with false
        by (destruct st; [contradiction | reflexivity | reflexivity]).
      destruct (prisma.is_status open w); cbn [List.length]; lia.
    + destruct (prisma.is_status open w); cbn [List.length]; lia.
Qed.

Lemma week_update_opens_nothing id st :
  st <> open -> opens_nothing (prisma.week_update id st).
Proof.
  intros Hst db. unfold prisma.week_update.
  destruct (prisma.week_findUnique id db); cbn [snd]; [|apply Nat.le_refl].
  unfold open_count, open_weeks. cbn [weeks with_journal with_weeks].
  apply filter_open_update_where, Hst.
Qed.

#[export] Hint Resolve updateAllUserStreaks_weeks : frames.

Ltac no_open :=
  repeat first
    [ solve [apply opens_nothing_of_preserves; auto with frames]
    | apply opens_nothing_bind; [|intros ?]
    | apply week_update_opens_nothing; discriminate
    | apply opens_nothing_of_preserves; solve [frame]
    | match goal with
      | |- opens_nothing (match ?x with _ => _ end) => destruct x
      | |- opens_nothing (if ?b then _ else _) => destruct b
      end
    | progress cbv zeta ].

Lemma closeWeekAndCompile_opens_nothing env now :
  opens_nothing (WeeklyAutomation.closeWeekAndCompile env now).
Proof.
  unfold WeeklyAutomation.closeWeekAndCompile. no_open.
Qed.

Lemma manualCompileWeek_opens_nothing env id now :
  opens_nothing (WeeklyAutomation.manualCompileWeek env id now).
Proof.
  unfold WeeklyAutomation.manualCompileWeek.
  destruct (falsy id); [apply closeWeekAndCompile_opens_nothing|].
  destruct id as [n|]; [|apply closeWeekAndCompile_opens_nothing].
  no_open.
Qed.

Lemma findFirst_None_no_open db :
  prisma.week_findFirst open db = None -> open_weeks db = [].
Proof.
  unfold prisma.week_findFirst, open_weeks.
  induction (weeks db) as [|w rest IH]; cbn [find filter]; [reflexivity|].
  destruct (prisma.is_status open w); [discriminate | exact IH].
Qed.

Lemma startNewWeek_conflict env now db w :
  prisma.week_findFirst open db = Some w ->
  WeeklyAutomation.startNewWeek env now db = (Failure "Week already open", db).
Proof.
  intros H. unfold WeeklyAutomation.startNewWeek, bind, reads.
  rewrite H. reflexivity.
Qed.

Lemma startNewWeek_taken env now db :
  prisma.week_findFirst open db = None ->
  existsb (fun w => weekNumber w =? year now * 100 + week now) (weeks db) = true ->
  WeeklyAutomation.startNewWeek env now db = (Thrown, db).
Proof.
  intros Hnone Htaken.
  unfold WeeklyAutomation.startNewWeek, bind, reads, prisma.week_create.
  rewrite Hnone, Htaken. reflexivity.
Qed.

Lemma startNewWeek_fresh env now db :
  prisma.week_findFirst open db = None ->
  existsb (fun w => weekNumber w =? year now * 100 + week now) (weeks db) = false ->
  let new :=
    mkWeek (next_id (map week_id (weeks db))) (year now * 100 + week now)
           (thursday_startOfDay now)
           (sunday_at_hour now (parseInt_or (WEEKLY_DEADLINE_HOUR env) 18))
           open (instant now) in
  (exists emailsSent,
      fst (WeeklyAutomation.startNewWeek env now db) = Success (new, emailsSent))
  /\ weeks (snd (WeeklyAutomation.startNewWeek env now db)) = weeks db ++ [new]
  /\ open_weeks (snd (WeeklyAutomation.startNewWeek env now db)) = [new].
Proof.
  intros Hnone Hfree new.
  unfold WeeklyAutomation.startNewWeek, bind, reads, prisma.week_create.
  rewrite Hnone, Hfree. fold new.
  change (prisma.user_findMany_active
            (with_journal (journal db ++ [WeekWrite (week_id new) open])
               (with_weeks (weeks db ++ [new]) db)))
    with (prisma.user_findMany_active db).
  assert (Hopen : filter (prisma.is_status open) (weeks db ++ [new]) = [new]).
  { rewrite filter_app. fold (open_weeks db).
    rewrite (findFirst_None_no_open _ Hnone). reflexivity. }
  destruct (length_Z (prisma.user_findMany_active db) =? 0) eqn:Hlen.
  - cbn [fst snd ret]. unfold open_weeks. cbn [weeks with_journal with_weeks].
    split; [exists 0; reflexivity|]. split; [reflexivity | exact Hopen].
  - match goal with
    | |- context [sendWeeklyPrompt ?e ?us ?n ?d] =>
        pose proof (sendWeeklyPrompt_weeks e us n d) as Hweeks;
        destruct (sendWeeklyPrompt e us n d) as [emailsSent d1]
    end.
    cbn [fst snd ret] in *. unfold open_weeks. rewrite Hweeks.
    cbn [weeks with_journal with_weeks].
    split; [exists emailsSent; reflexivity|]. split; [reflexivity | exact Hopen].
Qed.

Lemma startNewWeek_at_most_one_open env now db :
  at_most_one_open db ->
  at_most_one_open (snd (WeeklyAutomation.startNewWeek env now db)).
Proof.
  intros Hinv.
  destruct (prisma.week_findFirst open db) as [w|] eqn:Hopen.
  - rewrite (startNewWeek_conflict env now _ Hopen). exact Hinv.
  - destruct (existsb (fun w => weekNumber w =? year now * 100 + week now)
                      (weeks db)) eqn:Htaken.
    + rewrite (startNewWeek_taken env now _ Hopen Htaken). exact Hinv.
    + destruct (startNewWeek_fresh env now _ Hopen Htaken) as (_ & _ & Hone).
      unfold at_most_one_open, open_count. rewrite Hone. apply Nat.le_refl.
Qed.

Section OtherTriggers.
Context {T : TextParsing}.
Variable env : Env.

Lemma processInboundEmail_weeks e now :
  preserves weeks (EmailProcessor.processInboundEmail env e now).
Proof.
  unfold EmailProcessor.processInboundEmail. frame.
  all: apply EP_updateUserStreak_weeks.
Qed.

Lemma sendInvitation_weeks a b c d :
  preserves weeks (InvitationService.sendInvitation env a b c d).
Proof. unfold InvitationService.sendInvitation. frame. Qed.


Lemma processInviteCommand_weeks a b c d :
  preserves weeks (InvitationService.processInviteCommand env a b c d).
Proof.
  unfold InvitationService.processInviteCommand.
  apply preserves_bind; [apply preserves_reads|]. intros [inviter|]; [|frame].
  apply preserves_bind; [apply sendInvitation_weeks|]. intros r. frame.
Qed.


Lemma processInviteAcceptance_weeks tok ud now :
  preserves weeks (InvitationService.processInviteAcceptance tok ud now).
Proof. unfold InvitationService.processInviteAcceptance. frame. Qed.

Lemma sweep_weeks rows : forall now n,
  preserves weeks (InvitationService.sweep env rows now n).
Proof.
  induction rows as [|[[u [st|]] sent] rest IH]; intros now n;
    cbn [InvitationService.sweep].
  - apply preserves_ret.
  - cbv zeta.
    match goal with
    | |- preserves _ (if ?b then _ else _) => destruct b
    end; [apply IH|].
    apply preserves_bind; [auto with frames|]. intros ok.
    destruct ok; cbn [negb]; [|apply preserves_ret].
    apply preserves_bind; [|intros _; apply IH].
    match goal with
    | |- preserves _ (if ?b then _ else _) => destruct b
    end; [unfold send; auto with frames | apply preserves_ret].
  - apply IH.
Qed.

Lemma checkAllUsersEligibility_weeks now :
  preserves weeks (InvitationService.checkAllUsersEligibility env now).
Proof.
  unfold InvitationService.checkAllUsersEligibility.
  apply preserves_bind; [apply preserves_reads|]. intros rows.
  apply preserves_bind; [apply sweep_weeks|]. intros r. frame.
Qed.

Lemma handle_email_weeks e amb :
  preserves weeks (Webhooks.handle_email env e amb).
Proof.
  unfold Webhooks.handle_email.
  destruct (extractEmail (from e)); [|apply preserves_ret].
  cbv zeta. destruct (parseInviteCommand _).
  - apply preserves_bind; [apply processInviteCommand_weeks|].
    intros r. apply preserves_ret.
  - apply preserves_bind; [apply processInboundEmail_weeks|].
    intros r. apply preserves_ret.
Qed.

Lemma inbound_email_weeks batch :
  preserves weeks (Webhooks.inbound_email env batch).
Proof.
  induction batch as [|[e amb] rest IH]; cbn [Webhooks.inbound_email].
  - apply preserves_ret.
  - apply preserves_bind; [apply handle_email_weeks|]. intros entry.
    apply preserves_bind; [exact IH|]. intros entries. apply preserves_ret.
Qed.

Lemma run_at_most_one_open c db :
  at_most_one_open db -> at_most_one_open (run env c db).
Proof.
  intros Hinv. unfold at_most_one_open in *.
  destruct c as [now|now|id now|batch|tok ud now|now]; cbn [run].
  - apply startNewWeek_at_most_one_open, Hinv.
  - eapply Nat.le_trans; [apply closeWeekAndCompile_opens_nothing | exact Hinv].
  - eapply Nat.le_trans; [apply manualCompileWeek_opens_nothing | exact Hinv].
  - eapply Nat.le_trans;
      [apply opens_nothing_of_preserves, inbound_email_weeks | exact Hinv].
  - eapply Nat.le_trans;
      [apply opens_nothing_of_preserves, processInviteAcceptance_weeks | exact Hinv].
  - eapply Nat.le_trans;
      [apply opens_nothing_of_preserves, checkAllUsersEligibility_weeks | exact Hinv].
Qed.

Lemma reachable_at_most_one_open init db :
  at_most_one_open init -> reachable env init db -> at_most_one_open db.
Proof.
  intros Hinit Hreach. induction Hreach as [|c db Hreach IH].
  - exact Hinit.
  - apply run_at_most_one_open, IH.
Qed.

End OtherTriggers.

(** C7, as the code has it.  From a store with at most one open week,
    every store the triggers can reach has at most one open week.
    [startNewWeek] answers "Week already open" and changes nothing when a
    week is open; when none is open and the computed week number is not
    stored yet, it appends exactly one week, which is then the only open
    one.  [startNewWeek], [closeWeekAndCompile] and [manualCompileWeek]
    each keep the invariant. *)
Theorem open_week_invariant (T : TextParsing) (env : Env) :
  (forall init db,
      at_most_one_open init -> reachable env init db -> at_most_one_open db)
  /\ (forall now db w,
         prisma.week_findFirst open db = Some w ->
         WeeklyAutomation.startNewWeek env now db
         = (Failure "Week already open", db))
  /\ (forall now db,
         prisma.week_findFirst open db = None ->
         existsb (fun w => weekNumber w =? year now * 100 + week now) (weeks db)
         = false ->
         exists new count,
           fst (WeeklyAutomation.startNewWeek env now db) = Success (new, count)
           /\ weekNumber new = year now * 100 + week now
           /\ weeks (snd (WeeklyAutomation.startNewWeek env now db))
              = weeks db ++ [new]
           /\ open_weeks (snd (WeeklyAutomation.startNewWeek env now db)) = [new])
  /\ (forall db,
         at_most_one_open db ->
         (forall now,
             at_most_one_open (snd (WeeklyAutomation.startNewWeek env now db)))
         /\ (forall now,
               at_most_one_open
                 (snd (WeeklyAutomation.closeWeekAndCompile env now db)))
         /\ (forall id now,
               at_most_one_open
                 (snd (WeeklyAutomation.manualCompileWeek env id now db)))).
Proof.
  split; [|split; [|split]].
  - intros init db. apply reachable_at_most_one_open.
  - intros now db w. apply startNewWeek_conflict.
  - intros now db Hnone Hfree.
    destruct (startNewWeek_fresh env now _ Hnone Hfree)
      as ((emailsSent & Hres) & Hweeks & Hopen).
    eexists. exists emailsSent.
    repeat split; [exact Hres | reflexivity | exact Hweeks | exact Hopen].
  - intros db Hinv. repeat split; intros.
    + apply startNewWeek_at_most_one_open, Hinv.
    + apply (run_at_most_one_open env (CloseWeekAndCompile now) Hinv).
    + apply (run_at_most_one_open env (ManualCompileWeek id now) Hinv).
Qed.

Lemma open_week_invariant_witness :
  at_most_one_open Scenario.members_only
  /\ exists new count,
       fst (WeeklyAutomation.startNewWeek default_env (Scenario.at_week 2024 1)
              Scenario.members_only) = Success (new, count)
       /\ open_weeks (snd (WeeklyAutomation.startNewWeek default_env
                             (Scenario.at_week 2024 1) Scenario.members_only))
          = [new].
Proof.
  split.
  - unfold at_most_one_open. vm_compute. lia.
  - destruct (proj1 (proj2 (proj2
               (open_week_invariant Scenario.text_of_scenarios default_env)))
               (Scenario.at_week 2024 1) Scenario.members_only)
      as (new & count & Hres & _ & _ & Hopen).
    + reflexivity.
    + reflexivity.
    + exists new, count. split; [exact Hres | exact Hopen].
Defined.

(** C7, as stated, fails: week 202401 is stored and compiled, no week is
    open, and a start within the same week number is turned down by the
    store, so no open week is created. *)
Lemma startNewWeek_creates_nothing_on_taken_number :
  prisma.week_findFirst open Scenario.after_first_cycle = None
  /\ fst (WeeklyAutomation.startNewWeek default_env (Scenario.at_week 2024 1)
            Scenario.after_first_cycle) = Thrown
  /\ open_weeks (snd (WeeklyAutomation.startNewWeek default_env
                        (Scenario.at_week 2024 1) Scenario.after_first_cycle))
     = [].
Proof. vm_compute. repeat split. Qed.

(** ** Submission intake *)

Lemma find_None_filter (A : Type) (p : A -> bool) (l : list A) :
  find p l = None -> filter p l = [].
Proof.
  induction l as [|x rest IH]; cbn [find filter]; [reflexivity|].
  destruct (p x); [discriminate | exact IH].
Qed.

Lemma find_app_last (A : Type) (p : A -> bool) (l : list A) (x : A) :
  find p l = None -> p x = true -> find p (l ++ [x]) = Some x.
Proof.
  intros Hnone Hx. induction l as [|y rest IH]; cbn [find app].
  - rewrite Hx. reflexivity.
  - cbn [find] in Hnone. destruct (p y); [discriminate | apply IH, Hnone].
Qed.

(** What an accepted submission leaves behind. *)
Lemma processInboundEmail_accepted (T : TextParsing) env p now db sid db1 :
  EmailProcessor.processInboundEmail env p now db = (Success sid, db1) ->
  exists sender user wk row,
    extractEmail (from p) = Some sender
    /\ prisma.user_findUnique_email sender db = Some user
    /\ isActive user = true
    /\ prisma.week_findFirst_desc open db = Some wk
    /\ prisma.submission_findUnique (user_id user) (week_id wk) db = None
    /\ submission_id row = sid
    /\ userId row = user_id user
    /\ weekId row = week_id wk
    /\ submissions db1 = submissions db ++ [row]
    /\ users db1 = users db
    /\ weeks db1 = weeks db.
Proof.
  unfold EmailProcessor.processInboundEmail. intros H.
  destruct (extractEmail (from p)) as [sender|]; [|discriminate].
  unfold bind at 1, reads at 1 in H.
  destruct (prisma.user_findUnique_email sender db) as [user|] eqn:Huser;
    [|discriminate].
  destruct (isActive user) eqn:Hactive; cbn [negb] in H; [|discriminate].
  unfold bind at 1, reads at 1 in H.
  destruct (prisma.week_findFirst_desc open db) as [wk|] eqn:Hweek;
    [|discriminate].
  unfold bind at 1, reads at 1 in H.
  destruct (prisma.submission_findUnique (user_id user) (week_id wk) db)
    as [old|] eqn:Hold; [discriminate|].
  cbv zeta in H.
  destruct (EmailProcessor.validateSubmissionFormat _) as [data|]; [|discriminate].
  unfold bind at 1, prisma.submission_create in H. rewrite Hold in H.
  set (row := mkSubmission _ _ _ _ _ _) in H.
  set (d0 := with_submissions _ db) in H.
  unfold bind at 1 in H.
  pose proof (EP_updateUserStreak_users env (user_id user) (weekNumber wk) now d0) as Hu.
  pose proof (EP_updateUserStreak_weeks env (user_id user) (weekNumber wk) now d0) as Hw.
  pose proof (EP_updateUserStreak_submissions env (user_id user) (weekNumber wk) now d0)
    as Hs.
  destruct (EmailProcessor.updateUserStreak env (user_id user) (weekNumber wk) now d0)
    as [[] d'].
  cbn [snd] in Hu, Hw, Hs.
  unfold bind, sgMail_send, ret in H.
  destruct (transport env _ _); [|discriminate H]. injection H as Hsid Hdb1.
  exists sender, user, wk, row. subst db1.
  cbn [submissions users weeks with_journal].
  rewrite Hu, Hw, Hs. subst d0 row.
  cbn [submissions users weeks with_submissions submission_id userId weekId] in *.
  repeat split; try assumption; reflexivity.
Qed.

(** C8. Once a member's submission for the open week has been accepted, a
    second message from the same sender is answered "Already submitted";
    the submission table is left as it was and holds exactly one row for
    that member and week, the one the first call stored. *)
Theorem duplicate_submission_rejected (T : TextParsing) env p1 p2 now1 now2
    db sid db1 :
  EmailProcessor.processInboundEmail env p1 now1 db = (Success sid, db1) ->
  extractEmail (from p2) = extractEmail (from p1) ->
  let second := EmailProcessor.processInboundEmail env p2 now2 db1 in
  exists sender user wk row,
    extractEmail (from p2) = Some sender
    /\ prisma.user_findUnique_email sender db1 = Some user
    /\ prisma.week_findFirst_desc open db1 = Some wk
    /\ submission_id row = sid
    /\ userId row = user_id user
    /\ weekId row = week_id wk
    /\ fst second = Failure "Already submitted"
    /\ submissions (snd second) = submissions db1
    /\ filter (prisma.is_pair (user_id user) (week_id wk)) (submissions (snd second))
       = [row].
Proof.
  intros Hfirst Hsame second.
  destruct (@processInboundEmail_accepted _ _ _ _ _ _ _ Hfirst)
    as (sender & user & wk & row & Hsender & Huser & Hactive & Hweek & Hnone
        & Hsid & Hrow_user & Hrow_week & Hsubs & Husers & Hweeks).
  assert (Hpair : prisma.is_pair (user_id user) (week_id wk) row = true).
  { unfold prisma.is_pair. rewrite Hrow_user, Hrow_week, !Z.eqb_refl. reflexivity. }
  assert (Hweek1 : prisma.week_findFirst_desc open db1 = Some wk).
  { unfold prisma.week_findFirst_desc in *. rewrite Hweeks. exact Hweek. }
  assert (Hfound : prisma.submission_findUnique (user_id user) (week_id wk) db1
                   = Some row).
  { unfold prisma.submission_findUnique in *. rewrite Hsubs.
    apply find_app_last; assumption. }
  assert (Huser1 : prisma.user_findUnique_email sender db1 = Some user).
  { unfold prisma.user_findUnique_email in *. rewrite Husers. exact Huser. }
  assert (Hrun : second
                 = (Failure "Already submitted",
                    with_journal
                      (journal db1 ++
                       [Sent (ErrorEmail sender "Already Submitted"
                                "You have already submitted a recommendation for this week.")])
                      db1)).
  { subst second. unfold EmailProcessor.processInboundEmail.
    rewrite Hsame, Hsender. unfold bind, reads.
    rewrite Huser1, Hactive. cbn [negb]. rewrite Hweek1, Hfound. reflexivity. }
  exists sender, user, wk, row. rewrite Hrun. cbn [fst snd submissions with_journal].
  repeat split; try assumption; [congruence|].
  rewrite Hsubs, filter_app. unfold prisma.submission_findUnique in Hnone.
  rewrite (find_None_filter _ _ Hnone). cbn [filter app]. rewrite Hpair. reflexivity.
Qed.

Lemma duplicate_submission_rejected_witness :
  let db := snd (WeeklyAutomation.startNewWeek default_env (Scenario.at_week 2024 1)
                   Scenario.members_only) in
  let first := EmailProcessor.processInboundEmail (T := Scenario.text_of_scenarios)
                 default_env Scenario.ann_submits 1 db in
  let second := EmailProcessor.processInboundEmail (T := Scenario.text_of_scenarios)
                  default_env Scenario.ann_submits 2 (snd first) in
  fst first = Success 1
  /\ fst second = Failure "Already submitted"
  /\ submissions (snd second) = submissions (snd first).
Proof.
  intros db first second.
  destruct (@duplicate_submission_rejected Scenario.text_of_scenarios default_env
              Scenario.ann_submits Scenario.ann_submits 1 2 db 1 (snd first))
    as (sender & user & wk & row & _ & _ & _ & _ & _ & _ & Hfail & Hsame & _).
  - reflexivity.
  - reflexivity.
  - split; [reflexivity|]. split; [exact Hfail | exact Hsame].
Defined.

(** ** Accepting an invitation *)

Lemma next_id_fresh (ids : list Z) : ~ In (next_id ids) ids.
Proof.
  assert (Hmax : forall x, In x ids -> x <= fold_right Z.max 0 ids).
  { induction ids as [|y rest IH]; intros x Hx; [contradiction|].
    cbn [fold_right]. destruct Hx as [->|Hx]; [lia|].
    specialize (IH x Hx). lia. }
  intros Hin. apply Hmax in Hin. unfold next_id in Hin. lia.
Qed.

Lemma invite_found_exists tok db inv :
  prisma.invite_findUnique_token tok db = Some inv ->
  existsb (fun i => invite_id i =? invite_id inv) (invites db) = true.
Proof.
  unfold prisma.invite_findUnique_token. intros H. apply find_some in H.
  apply existsb_exists. exists inv. split; [apply H | apply Z.eqb_refl].
Qed.

Lemma invite_found_after_update tok inv data l :
  (forall i, inviteToken (data i) = inviteToken i) ->
  find (fun i => String.eqb (inviteToken i) tok) l = Some inv ->
  find (fun i => String.eqb (inviteToken i) tok)
       (update_where (fun i => invite_id i =? invite_id inv) data l)
  = Some (data inv).
Proof.
  intros Hdata. induction l as [|x rest IH]; cbn [find update_where map];
    [discriminate|].
  fold (update_where (fun i => invite_id i =? invite_id inv) data rest).
  destruct (String.eqb (inviteToken x) tok) eqn:Hx.
  - intros [= ->]. rewrite Z.eqb_refl. cbn [find]. rewrite Hdata, Hx. reflexivity.
  - intros Hrest. destruct (invite_id x =? invite_id inv); cbn [find].
    + rewrite Hdata, Hx. apply IH, Hrest.
    + rewrite Hx. apply IH, Hrest.
Qed.

(** C9. [processInviteAcceptance], case by case: an unknown token and an
    invitation that is no longer pending are refused with the store
    untouched; a pending invitation past its expiry is written as expired
    and refused; one whose address already belongs to a member is written
    as accepted, with the time, and refused without a new member; any
    other pending invitation yields a new active member with a streak row
    at zero, is written as accepted, and the member is returned (id,
    address and names) with the inviter (names and address). *)
Theorem processInviteAcceptance_cases token userData now db :
  let out := InvitationService.processInviteAcceptance token userData now db in
  let lookup := prisma.invite_findUnique_token token in
  (lookup db = None -> out = (Failure "Invalid invitation link", db))
  /\ (forall inv,
         lookup db = Some inv -> invite_status inv <> pending ->
         out = (Failure "Invitation already processed", db))
  /\ (forall inv,
         lookup db = Some inv -> invite_status inv = pending ->
         now > expiresAt inv ->
         fst out = Failure "Invitation has expired"
         /\ option_map invite_status (lookup (snd out)) = Some expired
         /\ users (snd out) = users db
         /\ streaks (snd out) = streaks db)
  /\ (forall inv member,
         lookup db = Some inv -> invite_status inv = pending ->
         now <= expiresAt inv ->
         prisma.user_findUnique_email (inviteeEmail inv) db = Some member ->
         fst out = Failure "User already exists"
         /\ option_map invite_status (lookup (snd out)) = Some accepted
         /\ option_map acceptedAt (lookup (snd out)) = Some (Some now)
         /\ users (snd out) = users db
         /\ streaks (snd out) = streaks db)
  /\ (forall inv,
         lookup db = Some inv -> invite_status inv = pending ->
         now <= expiresAt inv ->
         prisma.user_findUnique_email (inviteeEmail inv) db = None ->
         streaks_refer_to_users db ->
         exists newUser,
           fst out = Success (mkAccepted
                                (member_of newUser)
                                (option_map inviter_of
                                   (prisma.user_findUnique (inviterId inv) db)))
           /\ email newUser = inviteeEmail inv
           /\ isActive newUser = true
           /\ users (snd out) = users db ++ [newUser]
           /\ streaks (snd out)
              = streaks db ++ [mkStreak (user_id newUser) 0 0 None false None]
           /\ option_map invite_status (lookup (snd out)) = Some accepted
           /\ option_map acceptedAt (lookup (snd out)) = Some (Some now)).
Proof.
  intros out lookup. subst out lookup.
  unfold InvitationService.processInviteAcceptance, bind, reads.
  split; [|split; [|split; [|split]]].
  - intros ->. reflexivity.
  - intros inv -> Hnot.
    destruct (invite_status inv); [contradiction | reflexivity | reflexivity].
  - intros inv Hinv Hpending Hlate. rewrite Hinv, Hpending. cbn [InviteStatus_eqb negb].
    replace (now >? expiresAt inv) with true by (symmetry; apply Z.gtb_lt; lia).
    unfold prisma.invite_update. rewrite (invite_found_exists _ _ Hinv).
    cbn [fst snd ret users streaks with_invites].
    repeat split.
    unfold prisma.invite_findUnique_token in *. cbn [invites with_invites].
    rewrite (@invite_found_after_update token inv
               (fun i => InvitationService.mark expired (acceptedAt i) i) _
               (fun i => eq_refl) Hinv).
    reflexivity.
  - intros inv member Hinv Hpending Hintime Hmember.
    rewrite Hinv, Hpending. cbn [InviteStatus_eqb negb].
    replace (now >? expiresAt inv) with false by (symmetry; rewrite Z.gtb_ltb; apply Z.ltb_ge; lia).
    rewrite Hmember.
    unfold prisma.invite_update. rewrite (invite_found_exists _ _ Hinv).
    cbn [fst snd ret users streaks with_invites].
    unfold prisma.invite_findUnique_token in *. cbn [invites with_invites].
    rewrite (@invite_found_after_update token inv
               (InvitationService.mark accepted (Some now)) _
               (fun i => eq_refl) Hinv).
    repeat split.
  - intros inv Hinv Hpending Hintime Hnew Hrefs.
    rewrite Hinv, Hpending. cbn [InviteStatus_eqb negb].
    replace (now >? expiresAt inv) with false by (symmetry; rewrite Z.gtb_ltb; apply Z.ltb_ge; lia).
    rewrite Hnew. unfold prisma.user_create. rewrite Hnew.
    set (newUser := mkUser _ _ _ _ _ _).
    unfold prisma.userStreak_create. cbn [streak_userId].
    assert (Hfree : prisma.userStreak_findUnique (user_id newUser)
                      (with_users (users db ++ [newUser]) db) = None).
    { apply userStreak_findUnique_None. unfold streak_keys.
      cbn [streaks with_users]. intros Hin. apply in_map_iff in Hin.
      destruct Hin as (s & Hs & Hin). apply Hrefs in Hin.
      rewrite Hs in Hin. apply (next_id_fresh _ Hin). }
    rewrite Hfree. cbn [negb].
    unfold prisma.invite_update.
    cbn [invites with_users with_journal with_streaks].
    rewrite (invite_found_exists _ _ Hinv).
    cbn [fst snd ret users streaks with_invites with_users with_journal with_streaks].
    unfold prisma.invite_findUnique_token in *.
    cbn [invites with_invites with_users with_journal with_streaks].
    rewrite (@invite_found_after_update token inv
               (InvitationService.mark accepted (Some now)) _
               (fun i => eq_refl) Hinv).
    exists newUser. repeat split.
Qed.

Lemma processInviteAcceptance_cases_witness :
  let accept tok now :=
    InvitationService.processInviteAcceptance tok (mkUserData (Some "Carol") None)
      now Scenario.with_invitations in
  fst (accept "no-such-token" 100) = Failure "Invalid invitation link"
  /\ fst (accept "token-erin" 100) = Failure "Invitation already processed"
  /\ fst (accept "token-dave" 100) = Failure "Invitation has expired"
  /\ fst (accept "token-bob" 100) = Failure "User already exists"
  /\ exists newUser,
       fst (accept "token-carol" 100)
       = Success (mkAccepted (member_of newUser) (Some (inviter_of Scenario.ann)))
       /\ isActive newUser = true.
Proof.
  intros accept. subst accept. cbv beta.
  set (ud := mkUserData (Some "Carol") None).
  set (db := Scenario.with_invitations).
  destruct (processInviteAcceptance_cases "no-such-token" ud 100 db)
    as (Hunknown & _).
  destruct (processInviteAcceptance_cases "token-erin" ud 100 db)
    as (_ & Hdone & _).
  destruct (processInviteAcceptance_cases "token-dave" ud 100 db)
    as (_ & _ & Hlate & _).
  destruct (processInviteAcceptance_cases "token-bob" ud 100 db)
    as (_ & _ & _ & Hmember & _).
  destruct (processInviteAcceptance_cases "token-carol" ud 100 db)
    as (_ & _ & _ & _ & Hfresh).
  cbv zeta in Hunknown, Hdone, Hlate, Hmember, Hfresh.
  split; [rewrite Hunknown; reflexivity|].
  split.
  { rewrite (Hdone (mkInvite 3 1 "erin@example.com" "token-erin" accepted 1000
                             (Some 10)));
      [reflexivity | reflexivity | discriminate]. }
  split.
  { apply (Hlate (mkInvite 2 1 "dave@example.com" "token-dave" pending 50 None));
      [reflexivity | reflexivity | cbn [expiresAt]; lia]. }
  split.
  { apply (Hmember (mkInvite 4 1 "bob@example.com" "token-bob" pending 1000 None)
                   Scenario.bob);
      [reflexivity | reflexivity | cbn [expiresAt]; lia | reflexivity]. }
  destruct (Hfresh (mkInvite 1 1 "carol@example.com" "token-carol" pending 1000 None))
    as (newUser & Hres & _ & Hactive & _).
  - reflexivity.
  - reflexivity.
  - cbn [expiresAt]. lia.
  - reflexivity.
  - intros s Hs. destruct Hs.
  - exists newUser. split; [exact Hres | exact Hactive].
Defined.

(** ** The webhook *)




(** ** The three places that recompute the eligibility flag *)

Lemma find_streak_update_where uid data l st :
  find (fun s => streak_userId s =? uid) l = Some st ->
  (forall s, streak_userId s = uid -> streak_userId (data s) = uid) ->
  find (fun s => streak_userId s =? uid)
       (update_where (fun s => streak_userId s =? uid) data l)
  = Some (data st).
Proof.
  intros Hfind Hkey. induction l as [|x rest IH]; [discriminate|].
  cbn [find update_where map] in *.
  fold (update_where (fun s => streak_userId s =? uid) data rest).
  destruct (Z.eqb_spec (streak_userId x) uid) as [Hx|Hx].
  - injection Hfind as <-. cbn [find]. rewrite (Hkey x Hx), Z.eqb_refl. reflexivity.
  - cbn [find]. destruct (Z.eqb_spec (streak_userId x) uid); [contradiction|].
    apply IH, Hfind.
Qed.

Lemma find_streak_update_where_other uid other data l :
  other <> uid ->
  (forall s, streak_userId s = uid -> streak_userId (data s) = uid) ->
  find (fun s => streak_userId s =? other)
       (update_where (fun s => streak_userId s =? uid) data l)
  = find (fun s => streak_userId s =? other) l.
Proof.
  intros Hne Hkey. induction l as [|x rest IH]; [reflexivity|].
  cbn [find update_where map].
  fold (update_where (fun s => streak_userId s =? uid) data rest).
  destruct (Z.eqb_spec (streak_userId x) uid) as [Hx|Hx].
  - rewrite (Hkey x Hx), Hx.
    destruct (Z.eqb_spec uid other); [congruence | exact IH].
  - destruct (streak_userId x =? other); [reflexivity | exact IH].
Qed.

(** Intake: the flag is the threshold test on the new count, whatever the
    member's invitation count. *)
Lemma intake_flag_is_threshold_test env uid n now db st :
  prisma.userStreak_findUnique uid db = Some st ->
  let current :=
    if EmailProcessor.isConsecutiveWeek (lastSubmissionWeek st) n
    then currentStreak st + 1 else 1 in
  option_map canInvite
    (prisma.userStreak_findUnique uid
       (snd (EmailProcessor.updateUserStreak env uid n now db)))
  = Some (current >=? raw_or (STREAK_REQUIRED_FOR_INVITE env) 4).
Proof.
  intros Hrow current.
  unfold EmailProcessor.updateUserStreak, bind, reads, prisma.userStreak_update.
  rewrite Hrow. cbn [andb]. rewrite Hrow. cbn [andb]. fold current.
  set (row := mkStreak _ _ _ _ _ _).
  assert (Hfind : find (fun s => streak_userId s =? uid)
                       (update_where (fun s => streak_userId s =? uid)
                                     (fun _ => row) (streaks db))
                  = Some row).
  { apply (@find_streak_update_where uid (fun _ => row) _ _ Hrow). reflexivity. }
  match goal with
  | |- context [if ?c then _ else _] => destruct c
  end.
  - match goal with
    | |- context [prisma.user_findUnique uid ?d] =>
        destruct (prisma.user_findUnique uid d)
    end;
      cbn [snd send emit ret]; unfold prisma.userStreak_findUnique;
      cbn [streaks with_journal with_streaks]; rewrite Hfind; reflexivity.
  - cbn [snd ret]. unfold prisma.userStreak_findUnique.
    cbn [streaks with_journal with_streaks]. rewrite Hfind. reflexivity.
Qed.

(** Close: the flag follows the rule, with the member's lifetime counter
    as the number of invitations sent. *)
Lemma close_flag_follows_rule env user snapshot n (d : bool) now db st :
  prisma.userStreak_findUnique (user_id user) db = Some st ->
  let current :=
    if d then
      if WeeklyAutomation.isConsecutiveWeek (lastSubmissionWeek snapshot) n
      then currentStreak snapshot + 1 else 1
    else 0 in
  option_map canInvite
    (prisma.userStreak_findUnique (user_id user)
       (snd (WeeklyAutomation.updateUserStreak env user (Some snapshot) n d now db)))
  = Some (eligibility_flag (parseInt_or (STREAK_REQUIRED_FOR_INVITE env) 4)
                           (parseInt_or (MAX_INVITES_PER_USER env) 5)
                           current (inviteCount user)).
Proof.
  intros Hrow current.
  unfold WeeklyAutomation.updateUserStreak, bind, prisma.userStreak_update.
  rewrite Hrow. cbn [andb]. fold current.
  set (row := mkStreak _ _ _ _ _ _).
  assert (Hfind : find (fun s => streak_userId s =? user_id user)
                       (update_where (fun s => streak_userId s =? user_id user)
                                     (fun _ => row) (streaks db))
                  = Some row).
  { apply (@find_streak_update_where (user_id user) (fun _ => row) _ _ Hrow).
    reflexivity. }
  match goal with
  | |- context [if ?c then _ else _] => destruct c
  end; cbn [snd send emit ret]; unfold prisma.userStreak_findUnique;
    cbn [streaks with_journal with_streaks]; rewrite Hfind; reflexivity.
Qed.

(** Active members inherit the uniqueness of member ids. *)
Lemma active_ids_distinct (members : list User) :
  NoDup (map user_id members) ->
  NoDup (map user_id (filter isActive members)).
Proof.
  induction members as [|m others IH]; cbn [map filter]; intros Hids.
  - constructor.
  - apply NoDup_cons_iff in Hids. destruct Hids as [Hnew Hothers].
    destruct (isActive m); [|exact (IH Hothers)].
    cbn [map]. apply NoDup_cons_iff. split; [|exact (IH Hothers)].
    intros Hdup. apply Hnew.
    apply in_map_iff in Hdup. destruct Hdup as (m' & Hsame & Hactive).
    apply filter_In in Hactive. rewrite <- Hsame.
    apply in_map, Hactive.
Qed.

Section Sweep.
Variable env : Env.
Variable now : Z.

Let threshold : Z := InvitationService.streakRequired env.
Let cap : Z := InvitationService.maxInvitesPerUser env.

Lemma sweep_rows rows : forall n d,
  NoDup (map row_id rows) ->
  (forall u s sent, In (u, s, sent) rows ->
                    prisma.userStreak_findUnique (user_id u) d = s) ->
  let d' := snd (InvitationService.sweep env rows now n d) in
  (forall u s sent st',
      In (u, s, sent) rows ->
      prisma.userStreak_findUnique (user_id u) d' = Some st' ->
      canInvite st'
      = eligibility_flag threshold cap (currentStreak st') (length_Z sent))
  /\ (forall id, ~ In id (map row_id rows) ->
        prisma.userStreak_findUnique id d' = prisma.userStreak_findUnique id d)
  /\ invites d' = invites d.
Proof.
  induction rows as [|[[u0 s0] sent0] rest IH]; intros n d Hnodup Hsnap.
  - cbn [InvitationService.sweep ret snd].
    split; [intros ? ? ? ? [] | split; [intros; reflexivity | reflexivity]].
  - cbn [map] in Hnodup. unfold row_id at 1 in Hnodup. cbn [fst] in Hnodup.
    inversion Hnodup as [|y ys Hfresh Hrest]; subst.
    assert (Hhead : prisma.userStreak_findUnique (user_id u0) d = s0)
      by (apply (Hsnap u0 s0 sent0); left; reflexivity).
    assert (Hother : forall u s sent, In (u, s, sent) rest -> user_id u <> user_id u0).
    { intros u s sent Hin Heq. apply Hfresh. apply in_map_iff.
      exists (u, s, sent). split; [exact Heq | exact Hin]. }
    (* what remains once the head row is done, from any store [d1] that
       agrees with [d] on the other members *)
    assert (Hcont : forall n1 d1 st1,
               (forall id, id <> user_id u0 ->
                  prisma.userStreak_findUnique id d1
                  = prisma.userStreak_findUnique id d) ->
               invites d1 = invites d ->
               prisma.userStreak_findUnique (user_id u0) d1 = st1 ->
               (forall st', st1 = Some st' ->
                  canInvite st'
                  = eligibility_flag threshold cap (currentStreak st')
                                     (length_Z sent0)) ->
               let d' := snd (InvitationService.sweep env rest now n1 d1) in
               (forall u s sent st',
                   In (u, s, sent) ((u0, s0, sent0) :: rest) ->
                   prisma.userStreak_findUnique (user_id u) d' = Some st' ->
                   canInvite st'
                   = eligibility_flag threshold cap (currentStreak st')
                                      (length_Z sent))
               /\ (forall id, ~ In id (user_id u0 :: map row_id rest) ->
                     prisma.userStreak_findUnique id d'
                     = prisma.userStreak_findUnique id d)
               /\ invites d' = invites d).
    { intros n1 d1 st1 Hsame Hinv Hrow Hgood d'.
      destruct (IH n1 d1 Hrest) as (Hflags & Hkeep & Hinvites).
      { intros u s sent Hin. rewrite Hsame by (apply (Hother u s sent Hin)).
        apply (Hsnap u s sent). right. exact Hin. }
      fold d' in Hflags, Hkeep, Hinvites.
      split; [|split].
      - intros u s sent st' [Heq|Hin] Hfound.
        + injection Heq as <- <- <-.
          rewrite (Hkeep _ Hfresh), Hrow in Hfound. apply Hgood, Hfound.
        + apply (Hflags u s sent st' Hin Hfound).
      - intros id Hid. rewrite Hkeep by (intros Hin; apply Hid; right; exact Hin).
        apply Hsame. intros ->. apply Hid. left. reflexivity.
      - rewrite Hinvites. exact Hinv. }
    cbv zeta in Hcont. cbv zeta. destruct s0 as [st|].
    + set (should := (currentStreak st >=? InvitationService.streakRequired env)
                     && (length_Z sent0 <? InvitationService.maxInvitesPerUser env)).
      destruct (Bool.eqb should (canInvite st)) eqn:Hagree.
      * replace (InvitationService.sweep env ((u0, Some st, sent0) :: rest) now n d)
          with (InvitationService.sweep env rest now n d)
          by (cbn [InvitationService.sweep]; fold should; rewrite Hagree; reflexivity).
        apply (Hcont n d (Some st)); [reflexivity | reflexivity | exact Hhead |].
        intros st' [= <-]. symmetry. apply eqb_prop, Hagree.
      * set (data := InvitationService.set_eligibility should
                       (if should && negb (canInvite st)
                        then Some now else inviteEligibleSince st)).
        set (d1 := with_journal (journal d ++ [StreakWrite (user_id u0)])
                     (with_streaks
                        (update_where (fun s => streak_userId s =? user_id u0)
                                      data (streaks d)) d)).
        set (d2 := if should && negb (canInvite st)
                   then with_journal
                          (journal d1 ++
                           [Sent (InviteEligibilityNotification (email u0)
                                    (opt_or (firstName u0) "Friend")
                                    (currentStreak st))]) d1
                   else d1).
        replace (InvitationService.sweep env ((u0, Some st, sent0) :: rest) now n d)
          with (InvitationService.sweep env rest now (n + 1) d2).
        2:{ cbn [InvitationService.sweep]. fold should. rewrite Hagree.
            unfold bind, prisma.userStreak_update. rewrite Hhead. cbn [negb].
            fold data. fold d1. subst d2.
            destruct (should && negb (canInvite st)); reflexivity. }
        assert (Hstreaks : streaks d2 = streaks d1)
          by (subst d2; destruct (should && negb (canInvite st)); reflexivity).
        assert (Hinv2 : invites d2 = invites d)
          by (subst d2; destruct (should && negb (canInvite st)); reflexivity).
        apply (Hcont (n + 1) d2 (Some (data st))).
        -- intros id Hid. unfold prisma.userStreak_findUnique.
           rewrite Hstreaks. subst d1. cbn [streaks with_journal with_streaks].
           apply find_streak_update_where_other; [exact Hid|].
           intros s Hs. exact Hs.
        -- exact Hinv2.
        -- unfold prisma.userStreak_findUnique in *.
           rewrite Hstreaks. subst d1. cbn [streaks with_journal with_streaks].
           apply find_streak_update_where; [exact Hhead|].
           intros s Hs. exact Hs.
        -- intros st' [= <-]. reflexivity.
    + replace (InvitationService.sweep env ((u0, None, sent0) :: rest) now n d)
        with (InvitationService.sweep env rest now n d) by reflexivity.
      apply (Hcont n d None); [reflexivity | reflexivity | exact Hhead |].
      discriminate.
Qed.

(** Sweep: afterwards every active member's flag follows the rule, with
    the member's pending and accepted invitations as the number sent. *)
Lemma sweep_flag_follows_rule db :
  NoDup (map user_id (users db)) ->
  let db' := snd (InvitationService.checkAllUsersEligibility env now db) in
  forall u st',
    In u (prisma.user_findMany_active db) ->
    prisma.userStreak_findUnique (user_id u) db' = Some st' ->
    canInvite st'
    = eligibility_flag threshold cap (currentStreak st')
        (length_Z (prisma.user_sentInvites (user_id u) db')).
Proof.
  intros Hnodup db' u st' Hu Hrow.
  set (rows := map (InvitationService.with_relations db)
                   (prisma.user_findMany_active db)).
  assert (Hdb' : db' = snd (InvitationService.sweep env rows now 0 db)).
  { subst db'. unfold InvitationService.checkAllUsersEligibility, bind, reads.
    fold rows. destruct (InvitationService.sweep env rows now 0 db) as [[k|] d];
      reflexivity. }
  destruct (@sweep_rows rows 0 db) as (Hflags & _ & Hinvites).
  - subst rows. rewrite map_map. unfold row_id, InvitationService.with_relations.
    cbn [fst]. apply active_ids_distinct, Hnodup.
  - intros v s sent Hin. apply in_map_iff in Hin.
    destruct Hin as (v' & Heq & _).
    unfold InvitationService.with_relations in Heq. injection Heq as <- <- <-.
    reflexivity.
  - rewrite <- Hdb' in Hflags, Hinvites.
    unfold prisma.user_sentInvites. rewrite Hinvites.
    apply (Hflags u (prisma.userStreak_findUnique (user_id u) db)
                  (prisma.user_sentInvites (user_id u) db) st'); [|exact Hrow].
    apply in_map_iff. exists u. split; [reflexivity | exact Hu].
Qed.

End Sweep.

(** * Further properties *)

(** ** Streak rows stay well-formed *)

Section Keeping.
Variable P : Db -> Prop.

Lemma keeps_ret (A : Type) (a : A) : keeps P (ret a).
Proof. intros db H. exact H. Qed.

Lemma keeps_reads (A : Type) (g : Db -> A) : keeps P (reads g).
Proof. intros db H. exact H. Qed.

Lemma keeps_bind (A B : Type) (m : M A) (k : A -> M B) :
  keeps P m -> (forall a, keeps P (k a)) -> keeps P (bind m k).
Proof.
  intros Hm Hk db H. unfold bind.
  specialize (Hm db H). destruct (m db) as [a db']. apply Hk, Hm.
Qed.

Lemma keeps_for_each (A : Type) (l : list A) (body : A -> M unit) :
  (forall x, In x l -> keeps P (body x)) -> keeps P (for_each l body).
Proof.
  induction l as [|x rest IH]; intros Hbody; cbn [for_each].
  - apply keeps_ret.
  - apply keeps_bind; [apply Hbody; left; reflexivity|].
    intros _. apply IH. intros y Hy. apply Hbody. right. exact Hy.
Qed.

End Keeping.

(** A property of the streak table is kept by whatever leaves the table
    alone. *)
Lemma keeps_of_streak_frame (Q : list UserStreak -> Prop) (A : Type) (m : M A) :
  preserves streaks m -> keeps (fun db => Q (streaks db)) m.
Proof. intros Hm db H. rewrite Hm. exact H. Qed.

Lemma week_create_streaks a b c d e : preserves streaks (prisma.week_create a b c d e).
Proof. unfold prisma.week_create. frame_prim. Qed.
Lemma user_create_streaks e a b c : preserves streaks (prisma.user_create e a b c).
Proof. unfold prisma.user_create. frame_prim. Qed.
Lemma user_increment_streaks id : preserves streaks (prisma.user_increment_inviteCount id).
Proof. unfold prisma.user_increment_inviteCount. frame_prim. Qed.
Lemma user_update_streaks id d : preserves streaks (prisma.user_update id d).
Proof. unfold prisma.user_update. frame_prim. Qed.
Lemma invite_create_streaks a b c d : preserves streaks (prisma.invite_create a b c d).
Proof. unfold prisma.invite_create. frame_prim. Qed.
Lemma invite_update_streaks id d : preserves streaks (prisma.invite_update id d).
Proof. unfold prisma.invite_update. frame_prim. Qed.
Lemma invite_updateMany_streaks p d : preserves streaks (prisma.invite_updateMany p d).
Proof. unfold prisma.invite_updateMany. frame_prim. Qed.
Lemma submission_create_streaks a b c d e :
  preserves streaks (prisma.submission_create a b c d e).
Proof. unfold prisma.submission_create. frame_prim. Qed.

#[export] Hint Resolve week_create_streaks user_create_streaks
  user_increment_streaks user_update_streaks invite_create_streaks
  invite_update_streaks invite_updateMany_streaks submission_create_streaks
  : frames.

Lemma Forall_update_where (A : Type) (ok : A -> Prop) (p : A -> bool)
    (f : A -> A) (l : list A) :
  (forall x, In x l -> p x = true -> ok (f x)) ->
  Forall ok l -> Forall ok (update_where p f l).
Proof.
  intros Hf Hall. induction l as [|x rest IH]; cbn [update_where map]; [constructor|].
  fold (update_where p f rest).
  apply Forall_cons_iff in Hall. destruct Hall as [Hx Hrest].
  apply Forall_cons_iff. split.
  - destruct (p x) eqn:Hp; [apply Hf; [left; reflexivity | exact Hp] | exact Hx].
  - apply IH; [|exact Hrest]. intros y Hy. apply Hf. right. exact Hy.
Qed.

Section RowInvariant.
Variable ok : UserStreak -> Prop.

Let all_ok (db : Db) : Prop := Forall ok (streaks db).

Lemma userStreak_create_keeps row :
  ok row -> keeps all_ok (prisma.userStreak_create row).
Proof.
  intros Hrow db H. unfold prisma.userStreak_create.
  destruct (prisma.userStreak_findUnique (streak_userId row) db); [exact H|].
  unfold all_ok. cbn [snd streaks with_journal with_streaks].
  apply Forall_app. split; [exact H | constructor; [exact Hrow | constructor]].
Qed.

Lemma userStreak_update_keeps uid data db :
  (forall x, In x (streaks db) -> streak_userId x = uid -> ok (data x)) ->
  all_ok db -> all_ok (snd (prisma.userStreak_update uid data db)).
Proof.
  intros Hdata H. unfold prisma.userStreak_update.
  destruct (prisma.userStreak_findUnique uid db); [|exact H].
  unfold all_ok. cbn [snd streaks with_journal with_streaks].
  apply Forall_update_where; [|exact H].
  intros x Hx Hp. apply Hdata; [exact Hx | apply Z.eqb_eq, Hp].
Qed.

Lemma send_keeps m : keeps all_ok (send m).
Proof. intros db H. exact H. Qed.

End RowInvariant.

(** A property of the streak table that the four writers of streak rows
    keep is kept by every trigger. *)
Section StreakTable.
Context {T : TextParsing}.
Variable env : Env.
Variable Q : list UserStreak -> Prop.

Let P (db : Db) : Prop := Q (streaks db).

Hypothesis intake_keeps :
  forall uid n now, keeps P (EmailProcessor.updateUserStreak env uid n now).
Hypothesis close_keeps :
  forall n subs now, keeps P (WeeklyAutomation.updateAllUserStreaks env n subs now).
Hypothesis sweep_keeps :
  forall now, keeps P (InvitationService.checkAllUsersEligibility env now).
Hypothesis join_keeps :
  forall uid, keeps P (prisma.userStreak_create (mkStreak uid 0 0 None false None)).

Ltac keep :=
  repeat first
    [ apply intake_keeps
    | apply close_keeps
    | apply sweep_keeps
    | apply join_keeps
    | apply keeps_ret
    | apply keeps_reads
    | solve [apply (@keeps_of_streak_frame Q); unfold send; auto with frames]
    | apply keeps_bind; [|intros ?]
    | match goal with
      | |- keeps _ (match ?x with _ => _ end) => destruct x
      | |- keeps _ (if ?b then _ else _) => destruct b
      end
    | progress cbv zeta ].

Lemma processInboundEmail_keeps p now :
  keeps P (EmailProcessor.processInboundEmail env p now).
Proof. unfold EmailProcessor.processInboundEmail. keep. Qed.

Lemma sendInvitation_keeps a b c d :
  keeps P (InvitationService.sendInvitation env a b c d).
Proof. unfold InvitationService.sendInvitation. keep. Qed.

Lemma processInviteCommand_keeps a b c d :
  keeps P (InvitationService.processInviteCommand env a b c d).
Proof.
  unfold InvitationService.processInviteCommand.
  apply keeps_bind; [apply keeps_reads|]. intros [inviter|]; [|keep].
  apply keeps_bind; [apply sendInvitation_keeps|]. intros r. keep.
Qed.

Lemma processInviteAcceptance_keeps tok ud now :
  keeps P (InvitationService.processInviteAcceptance tok ud now).
Proof. unfold InvitationService.processInviteAcceptance. keep. Qed.

Lemma startNewWeek_keeps now : keeps P (WeeklyAutomation.startNewWeek env now).
Proof. unfold WeeklyAutomation.startNewWeek. keep. Qed.

Lemma closeWeekAndCompile_keeps now :
  keeps P (WeeklyAutomation.closeWeekAndCompile env now).
Proof. unfold WeeklyAutomation.closeWeekAndCompile. keep. Qed.

Lemma manualCompileWeek_keeps id now :
  keeps P (WeeklyAutomation.manualCompileWeek env id now).
Proof.
  unfold WeeklyAutomation.manualCompileWeek.
  destruct (falsy id); [apply closeWeekAndCompile_keeps|].
  destruct id as [n|]; [|apply closeWeekAndCompile_keeps].
  keep.
Qed.

Lemma handle_email_keeps e amb : keeps P (Webhooks.handle_email env e amb).
Proof.
  unfold Webhooks.handle_email.
  destruct (extractEmail (from e)); [|apply keeps_ret].
  cbv zeta. destruct (parseInviteCommand _).
  - apply keeps_bind; [apply processInviteCommand_keeps|]. intros r. apply keeps_ret.
  - apply keeps_bind; [apply processInboundEmail_keeps|]. intros r. apply keeps_ret.
Qed.

Lemma inbound_email_keeps batch : keeps P (Webhooks.inbound_email env batch).
Proof.
  induction batch as [|[e amb] rest IH]; cbn [Webhooks.inbound_email].
  - apply keeps_ret.
  - apply keeps_bind; [apply handle_email_keeps|]. intros entry.
    apply keeps_bind; [exact IH|]. intros entries. apply keeps_ret.
Qed.

Lemma run_keeps c db : P db -> P (run env c db).
Proof.
  destruct c as [now|now|id now|batch|tok ud now|now]; cbn [run].
  - apply startNewWeek_keeps.
  - apply closeWeekAndCompile_keeps.
  - apply manualCompileWeek_keeps.
  - apply inbound_email_keeps.
  - apply processInviteAcceptance_keeps.
  - apply sweep_keeps.
Qed.

Lemma reachable_keeps init db : P init -> reachable env init db -> P db.
Proof.
  intros Hinit Hreach. induction Hreach as [|c db Hreach IH].
  - exact Hinit.
  - apply run_keeps, IH.
Qed.

End StreakTable.

(** The rows either update path writes. *)
Lemma streak_sane_next (st : UserStreak) (next : Z) :
  streak_sane st -> (next = currentStreak st + 1 \/ next = 1 \/ next = 0) ->
  0 <= next <= Z.max (longestStreak st) next.
Proof. unfold streak_sane. intros Hst Hnext. lia. Qed.

Lemma found_streak_sane uid db st :
  streaks_sane db -> prisma.userStreak_findUnique uid db = Some st -> streak_sane st.
Proof.
  intros H Hst. apply find_some in Hst. destruct Hst as [Hin _].
  unfold streaks_sane in H. rewrite Forall_forall in H. apply H, Hin.
Qed.

Lemma EP_updateUserStreak_sane env uid n now :
  keeps streaks_sane (EmailProcessor.updateUserStreak env uid n now).
Proof.
  intros db H. unfold EmailProcessor.updateUserStreak, bind, reads.
  destruct (prisma.userStreak_findUnique uid db) as [st|] eqn:Hst.
  - pose proof (found_streak_sane _ H Hst) as Hsane. cbv zeta.
    match goal with
    | |- context [prisma.userStreak_update ?u ?d db] =>
        pose proof (@userStreak_update_keeps streak_sane u d db) as Hk;
        destruct (prisma.userStreak_update u d db) as [ok db1]
    end.
    cbn [snd] in Hk.
    assert (H1 : streaks_sane db1).
    { apply Hk; [|exact H]. intros x _ _. unfold streak_sane.
      cbn [currentStreak longestStreak]. apply streak_sane_next; [exact Hsane|].
      destruct (EmailProcessor.isConsecutiveWeek _ _); auto. }
    destruct (ok && _ && _); [|exact H1].
    destruct (prisma.user_findUnique uid db1); exact H1.
  - pose proof (@userStreak_create_keeps streak_sane
                  (mkStreak uid 1 1 (Some n) false None)) as Hk.
    specialize (Hk ltac:(unfold streak_sane; cbn; lia) db H).
    destruct (prisma.userStreak_create _ db) as [ok db1]. exact Hk.
Qed.

Lemma WA_updateUserStreak_sane env user snapshot n didSubmit now :
  (forall st, snapshot = Some st -> streak_sane st) ->
  keeps streaks_sane (WeeklyAutomation.updateUserStreak env user snapshot n didSubmit now).
Proof.
  intros Hsnap db H. unfold WeeklyAutomation.updateUserStreak, bind.
  destruct snapshot as [st|].
  - pose proof (Hsnap st eq_refl) as Hsane. cbv zeta.
    match goal with
    | |- context [prisma.userStreak_update ?u ?d db] =>
        pose proof (@userStreak_update_keeps streak_sane u d db) as Hk;
        destruct (prisma.userStreak_update u d db) as [ok db1]
    end.
    cbn [snd] in Hk.
    assert (H1 : streaks_sane db1).
    { apply Hk; [|exact H]. intros x _ _. unfold streak_sane.
      cbn [currentStreak longestStreak]. apply streak_sane_next; [exact Hsane|].
      destruct didSubmit; [destruct (WeeklyAutomation.isConsecutiveWeek _ _)|]; auto. }
    destruct (ok && _ && _); exact H1.
  - match goal with
    | |- context [prisma.userStreak_create ?row db] =>
        pose proof (@userStreak_create_keeps streak_sane row) as Hk;
        specialize (Hk ltac:(unfold streak_sane; destruct didSubmit; cbn; lia) db H);
        destruct (prisma.userStreak_create row db) as [ok db1]
    end.
    exact Hk.
Qed.

Lemma updateAllUserStreaks_sane env n subs now :
  keeps streaks_sane (WeeklyAutomation.updateAllUserStreaks env n subs now).
Proof.
  intros db H. unfold WeeklyAutomation.updateAllUserStreaks, bind, reads.
  cbv zeta. apply keeps_for_each; [|exact H].
  intros row Hrow. apply WA_updateUserStreak_sane. intros st Hst.
  apply in_map_iff in Hrow. destruct Hrow as (u & Hu & _). subst row.
  cbn [snd WeeklyAutomation.with_streak] in Hst.
  exact (found_streak_sane _ H Hst).
Qed.

Lemma sweep_sane env rows now k :
  keeps streaks_sane (InvitationService.sweep env rows now k).
Proof.
  revert k. induction rows as [|[[user [st|]] sent] rest IH]; intros k;
    cbn [InvitationService.sweep].
  - apply keeps_ret.
  - cbv zeta. destruct (Bool.eqb _ _); [apply IH|].
    apply keeps_bind.
    + intros db H. apply userStreak_update_keeps; [|exact H].
      intros x Hx _. unfold streaks_sane in H. rewrite Forall_forall in H.
      exact (H x Hx).
    + intros ok. destruct (negb ok); [apply keeps_ret|].
      apply keeps_bind; [|intros _; apply IH].
      destruct (_ && _); [intros db H; exact H | apply keeps_ret].
  - apply IH.
Qed.

Lemma checkAllUsersEligibility_sane env now :
  keeps streaks_sane (InvitationService.checkAllUsersEligibility env now).
Proof.
  unfold InvitationService.checkAllUsersEligibility.
  apply keeps_bind; [apply keeps_reads|]. intros rows.
  apply keeps_bind; [apply sweep_sane|]. intros [k|]; apply keeps_ret.
Qed.

(** X2. Streak rows stay well-formed: started on a store whose streak rows
    satisfy [0 <= currentStreak <= longestStreak], the service only ever
    reaches stores whose rows do, whatever triggers run and in whatever
    order. *)
Theorem reachable_streaks_sane (T : TextParsing) env init db :
  streaks_sane init -> reachable env init db -> streaks_sane db.
Proof.
  intros Hinit Hreach.
  apply (@reachable_keeps T env (Forall streak_sane)) with (init := init);
    [ apply EP_updateUserStreak_sane
    | apply updateAllUserStreaks_sane
    | apply checkAllUsersEligibility_sane
    | | exact Hinit | exact Hreach ].
  intros uid. apply userStreak_create_keeps. unfold streak_sane. cbn. lia.
Qed.

Lemma reachable_streaks_sane_witness :
  streaks_sane (run (T := Scenario.text_of_scenarios) default_env
                  (CloseWeekAndCompile 9)
                  (run (T := Scenario.text_of_scenarios) default_env
                     (InboundEmail [(Scenario.ann_submits, Scenario.at_noon)])
                     (run (T := Scenario.text_of_scenarios) default_env
                        (StartNewWeek (Scenario.at_week 2024 1))
                        Scenario.members_only))).
Proof.
  apply (@reachable_streaks_sane Scenario.text_of_scenarios default_env
           Scenario.members_only).
  - constructor.
  - do 3 apply reachable_step. apply reachable_init.
Defined.

(** ** An eligibility flag always has its streak behind it *)

Lemma keys_update_where (p : UserStreak -> bool) data l :
  (forall s, In s l -> p s = true -> streak_userId (data s) = streak_userId s) ->
  map streak_userId (update_where p data l) = map streak_userId l.
Proof.
  induction l as [|s rest IH]; intros Hdata; cbn [update_where map]; [reflexivity|].
  fold (update_where p data rest). f_equal.
  - destruct (p s) eqn:Hp; [apply Hdata; [left; reflexivity | exact Hp] | reflexivity].
  - apply IH. intros x Hx. apply Hdata. right. exact Hx.
Qed.

Lemma keyed_row_unique (l : list UserStreak) x y :
  NoDup (map streak_userId l) -> In x l -> In y l ->
  streak_userId x = streak_userId y -> x = y.
Proof.
  induction l as [|s rest IH]; intros Hkeys Hx Hy Hsame; [contradiction|].
  cbn [map] in Hkeys. apply NoDup_cons_iff in Hkeys. destruct Hkeys as [Hnew Hrest].
  destruct Hx as [<-|Hx], Hy as [<-|Hy].
  - reflexivity.
  - exfalso. apply Hnew. rewrite Hsame. apply in_map, Hy.
  - exfalso. apply Hnew. rewrite <- Hsame. apply in_map, Hx.
  - apply IH; assumption.
Qed.

Lemma In_update_where (A : Type) (p : A -> bool) (f : A -> A) (l : list A) y :
  In y (update_where p f l) ->
  exists x, In x l /\ (y = x \/ (p x = true /\ y = f x)).
Proof.
  unfold update_where. intros Hy. apply in_map_iff in Hy.
  destruct Hy as (x & Hxy & Hx). exists x. split; [exact Hx|].
  destruct (p x); [right; split; [reflexivity | symmetry; exact Hxy]
                  | left; symmetry; exact Hxy].
Qed.

Section Backed.
Variable env : Env.
Hypothesis threshold_set : STREAK_REQUIRED_FOR_INVITE env <> Some 0.

Lemma raw_threshold :
  raw_or (STREAK_REQUIRED_FOR_INVITE env) 4
  = parseInt_or (STREAK_REQUIRED_FOR_INVITE env) 4.
Proof.
  unfold raw_or, parseInt_or.
  destruct (STREAK_REQUIRED_FOR_INVITE env) as [n|]; [|reflexivity].
  destruct (Z.eqb_spec n 0) as [->|_]; [contradiction | reflexivity].
Qed.

Lemma userStreak_create_backed row :
  canInvite row = false -> keeps (flags_backed env) (prisma.userStreak_create row).
Proof.
  intros Hrow db [Hkeys Hflags]. unfold prisma.userStreak_create.
  destruct (prisma.userStreak_findUnique (streak_userId row) db) eqn:Hfound;
    [split; assumption|].
  apply userStreak_findUnique_None in Hfound.
  unfold flags_backed, streak_keys in *.
  cbn [snd streaks with_journal with_streaks]. split.
  - rewrite map_app. apply NoDup_app; [exact Hkeys | repeat constructor; intros [] |].
    intros k Hk [<-|[]]. exact (Hfound Hk).
  - apply Forall_app. split; [exact Hflags|]. constructor; [|constructor].
    intros Hflag. rewrite Hrow in Hflag. discriminate.
Qed.

Lemma userStreak_update_backed uid data db :
  (forall x, In x (streaks db) -> streak_userId x = uid ->
             streak_userId (data x) = uid /\ flag_backed env (data x)) ->
  flags_backed env db ->
  flags_backed env (snd (prisma.userStreak_update uid data db)).
Proof.
  intros Hdata [Hkeys Hflags]. unfold prisma.userStreak_update.
  destruct (prisma.userStreak_findUnique uid db); [|split; assumption].
  unfold flags_backed, streak_keys in *.
  cbn [snd streaks with_journal with_streaks]. split.
  - rewrite keys_update_where; [exact Hkeys|].
    intros s Hs Hp. apply Z.eqb_eq in Hp. rewrite Hp. apply Hdata; assumption.
  - apply Forall_update_where; [|exact Hflags].
    intros x Hx Hp. apply Hdata; [exact Hx | apply Z.eqb_eq, Hp].
Qed.

Lemma journal_backed e db :
  flags_backed env db -> flags_backed env (snd (emit e db)).
Proof. intros H. exact H. Qed.

Lemma EP_updateUserStreak_backed uid n now :
  keeps (flags_backed env) (EmailProcessor.updateUserStreak env uid n now).
Proof.
  intros db H. unfold EmailProcessor.updateUserStreak, bind, reads.
  destruct (prisma.userStreak_findUnique uid db) as [st|] eqn:Hst.
  - cbv zeta.
    match goal with
    | |- context [prisma.userStreak_update ?u ?d db] =>
        pose proof (@userStreak_update_backed u d db) as Hk;
        destruct (prisma.userStreak_update u d db) as [ok db1]
    end.
    cbn [snd] in Hk.
    assert (H1 : flags_backed env db1).
    { apply Hk; [|exact H]. intros x _ _. split; [reflexivity|].
      unfold flag_backed. cbn [canInvite currentStreak]. rewrite raw_threshold.
      intros Hflag. apply Z.geb_le in Hflag. exact Hflag. }
    destruct (ok && _ && _); [|exact H1].
    destruct (prisma.user_findUnique uid db1); exact H1.
  - pose proof (@userStreak_create_backed (mkStreak uid 1 1 (Some n) false None)
                  eq_refl db H) as Hk.
    destruct (prisma.userStreak_create _ db) as [ok db1]. exact Hk.
Qed.

Lemma WA_updateUserStreak_backed user snapshot n didSubmit now :
  keeps (flags_backed env)
        (WeeklyAutomation.updateUserStreak env user snapshot n didSubmit now).
Proof.
  intros db H. unfold WeeklyAutomation.updateUserStreak, bind.
  destruct snapshot as [st|].
  - cbv zeta.
    match goal with
    | |- context [prisma.userStreak_update ?u ?d db] =>
        pose proof (@userStreak_update_backed u d db) as Hk;
        destruct (prisma.userStreak_update u d db) as [ok db1]
    end.
    cbn [snd] in Hk.
    assert (H1 : flags_backed env db1).
    { apply Hk; [|exact H]. intros x _ _. split; [reflexivity|].
      unfold flag_backed. cbn [canInvite currentStreak].
      intros Hflag. apply andb_prop in Hflag. destruct Hflag as [Hflag _].
      apply Z.geb_le in Hflag. exact Hflag. }
    destruct (ok && _ && _); exact H1.
  - match goal with
    | |- context [prisma.userStreak_create ?row db] =>
        pose proof (@userStreak_create_backed row eq_refl db H) as Hk;
        destruct (prisma.userStreak_create row db) as [ok db1]
    end.
    exact Hk.
Qed.

Lemma updateAllUserStreaks_backed n subs now :
  keeps (flags_backed env) (WeeklyAutomation.updateAllUserStreaks env n subs now).
Proof.
  unfold WeeklyAutomation.updateAllUserStreaks.
  apply keeps_bind; [apply keeps_reads|]. intros rows. cbv zeta.
  apply keeps_for_each. intros row _. apply WA_updateUserStreak_backed.
Qed.

(** The sweep decides on the rows it read up front and rewrites the rows
    in the store; with one row per member the two have the same count. *)
Lemma sweep_backed rows now : forall k db,
  flags_backed env db ->
  (forall u st sent x,
      In (u, Some st, sent) rows -> In x (streaks db) ->
      streak_userId x = user_id u -> currentStreak x = currentStreak st) ->
  flags_backed env (snd (InvitationService.sweep env rows now k db)).
Proof.
  induction rows as [|[[user [st|]] sent] rest IH]; intros k db H Hsnap;
    cbn [InvitationService.sweep].
  - exact H.
  - assert (Hrest : forall d1,
               (forall y, In y (streaks d1) ->
                  exists x, In x (streaks db) /\ streak_userId y = streak_userId x
                            /\ currentStreak y = currentStreak x) ->
               forall u st0 sent0 x,
                 In (u, Some st0, sent0) rest -> In x (streaks d1) ->
                 streak_userId x = user_id u -> currentStreak x = currentStreak st0).
    { intros d1 Hd1 u st0 sent0 y Hin Hy Hkey.
      destruct (Hd1 y Hy) as (x & Hx & Hk & Hc). rewrite Hc.
      apply (Hsnap u st0 sent0 x); [right; exact Hin | exact Hx | congruence]. }
    cbv zeta.
    set (should := (currentStreak st >=? InvitationService.streakRequired env)
                   && (length_Z sent <? InvitationService.maxInvitesPerUser env)).
    destruct (Bool.eqb should (canInvite st)).
    { apply IH; [exact H|]. apply Hrest. intros y Hy. exists y. auto. }
    unfold bind.
    match goal with
    | |- context [prisma.userStreak_update ?u ?d db] =>
        pose proof (@userStreak_update_backed u d db) as Hk;
        assert (Hrows : forall y,
                   In y (streaks (snd (prisma.userStreak_update u d db))) ->
                   exists x, In x (streaks db)
                             /\ streak_userId y = streak_userId x
                             /\ currentStreak y = currentStreak x);
        [|destruct (prisma.userStreak_update u d db) as [ok db1]]
    end.
    { intros y Hy. unfold prisma.userStreak_update in Hy.
      destruct (prisma.userStreak_findUnique (user_id user) db);
        [|exists y; auto].
      cbn [snd streaks with_journal with_streaks] in Hy.
      apply In_update_where in Hy. destruct Hy as (x & Hx & [->|[_ ->]]);
        exists x; auto. }
    cbn [snd] in Hk, Hrows.
    assert (H1 : flags_backed env db1).
    { apply Hk; [|exact H]. intros x Hx Hkey. split; [exact Hkey|].
      unfold flag_backed, InvitationService.set_eligibility.
      cbn [canInvite currentStreak]. intros Hflag.
      rewrite (Hsnap user st sent x); [|left; reflexivity | exact Hx | exact Hkey].
      unfold should in Hflag. apply andb_prop in Hflag. destruct Hflag as [Hflag _].
      apply Z.geb_le in Hflag. exact Hflag. }
    destruct (negb ok); [exact H1|].
    destruct (should && negb (canInvite st)); cbn [send emit ret];
      (apply IH; [exact H1 | apply Hrest; exact Hrows]).
  - apply IH; [exact H|]. intros u st0 sent0 x Hin.
    apply (Hsnap u st0 sent0 x). right. exact Hin.
Qed.

Lemma checkAllUsersEligibility_backed now :
  keeps (flags_backed env) (InvitationService.checkAllUsersEligibility env now).
Proof.
  intros db H. unfold InvitationService.checkAllUsersEligibility, bind, reads.
  pose proof (@sweep_backed
                (map (InvitationService.with_relations db)
                     (prisma.user_findMany_active db)) now 0 db H) as Hk.
  destruct (InvitationService.sweep env _ now 0 db) as [[k|] db1];
    cbn [snd ret] in *; apply Hk;
    intros u st sent x Hin Hx Hkey;
    apply in_map_iff in Hin; destruct Hin as (v & Hv & _);
    unfold InvitationService.with_relations in Hv; injection Hv as -> Hfound _;
    apply find_some in Hfound; destruct Hfound as [Hst Hid];
    apply Z.eqb_eq in Hid; destruct H as [Hkeys _];
    rewrite (@keyed_row_unique (streaks db) x st Hkeys Hx Hst); congruence.
Qed.

End Backed.

(** X3. With the threshold variable unset or non-zero, a streak row that is
    flagged as able to invite always has a current streak of at least the
    threshold, and no member has two streak rows: both hold in every store
    the service reaches from a store where they hold. *)
Theorem reachable_flags_backed (T : TextParsing) env init db :
  STREAK_REQUIRED_FOR_INVITE env <> Some 0 ->
  flags_backed env init -> reachable env init db -> flags_backed env db.
Proof.
  intros Hset Hinit Hreach.
  apply (@reachable_keeps T env
           (fun ss => NoDup (map streak_userId ss) /\ Forall (flag_backed env) ss))
    with (init := init);
    [ intros; apply EP_updateUserStreak_backed; exact Hset
    | intros; apply updateAllUserStreaks_backed
    | intros; apply checkAllUsersEligibility_backed
    | intros; apply userStreak_create_backed; reflexivity
    | exact Hinit | exact Hreach ].
Qed.

Lemma reachable_flags_backed_witness :
  flags_backed default_env
    (run (T := Scenario.text_of_scenarios) default_env
       (CheckAllUsersEligibility 9)
       (run (T := Scenario.text_of_scenarios) default_env
          (InboundEmail [(Scenario.ann_submits, Scenario.at_noon)])
          Scenario.quiet_week)).
Proof.
  apply (@reachable_flags_backed Scenario.text_of_scenarios default_env
           Scenario.quiet_week).
  - discriminate.
  - split.
    + repeat constructor. intros [].
    + repeat constructor. intros _. cbn. lia.
  - do 2 apply reachable_step. apply reachable_init.
Defined.

(** ** What an accepted reply leaves in the store *)

(** The row the intake path leaves for the member. *)
Lemma EP_updateUserStreak_row env uid n now db :
  let db' := snd (EmailProcessor.updateUserStreak env uid n now db) in
  exists st',
    prisma.userStreak_findUnique uid db' = Some st'
    /\ lastSubmissionWeek st' = Some n
    /\ (currentStreak st' = 1
        \/ exists st, prisma.userStreak_findUnique uid db = Some st
                      /\ lastSubmissionWeek st = Some (n - 1)
                      /\ currentStreak st' = currentStreak st + 1)
    /\ submissions db' = submissions db.
Proof.
  intros db'. subst db'.
  unfold EmailProcessor.updateUserStreak, bind, reads.
  destruct (prisma.userStreak_findUnique uid db) as [st|] eqn:Hst.
  - cbv zeta. unfold prisma.userStreak_update. rewrite Hst. cbn [andb].
    set (cur := if EmailProcessor.isConsecutiveWeek (lastSubmissionWeek st) n
                then currentStreak st + 1 else 1).
    set (row := mkStreak uid cur _ _ _ _).
    exists row.
    assert (Hfind : find (fun s => streak_userId s =? uid)
                         (update_where (fun s => streak_userId s =? uid)
                                       (fun _ => row) (streaks db))
                    = Some row).
    { apply (@find_streak_update_where uid (fun _ => row) _ _ Hst). reflexivity. }
    assert (Hcur : cur = 1
                   \/ exists st0, Some st = Some st0
                                  /\ lastSubmissionWeek st0 = Some (n - 1)
                                  /\ cur = currentStreak st0 + 1).
    { subst cur. unfold EmailProcessor.isConsecutiveWeek.
      destruct (falsy (lastSubmissionWeek st)); [left; reflexivity|].
      destruct (lastSubmissionWeek st) as [lw|] eqn:Hlw; [|left; reflexivity].
      destruct (Z.eqb_spec n (lw + 1)) as [->|_]; [|left; reflexivity].
      right. exists st. repeat split; [rewrite Hlw; f_equal; lia]. }
    destruct (_ && negb (canInvite st));
      [destruct (prisma.user_findUnique uid _)|];
      cbn [snd send emit ret]; unfold prisma.userStreak_findUnique;
      cbn [streaks submissions with_journal with_streaks];
      (split; [exact Hfind | split; [reflexivity | split; [exact Hcur | reflexivity]]]).
  - unfold prisma.userStreak_create. cbn [streak_userId]. rewrite Hst.
    cbn [snd ret]. exists (mkStreak uid 1 1 (Some n) false None).
    unfold prisma.userStreak_findUnique in *.
    cbn [streaks submissions with_journal with_streaks].
    split; [|split; [reflexivity | split; [left; reflexivity | reflexivity]]].
    apply find_app_last; [exact Hst | cbn; apply Z.eqb_refl].
Qed.

(** The store after an accepted reply, step by step. *)
Lemma processInboundEmail_success_store (T : TextParsing) env p now db sid db1 :
  EmailProcessor.processInboundEmail env p now db = (Success sid, db1) ->
  exists sender user wk row,
    extractEmail (from p) = Some sender
    /\ prisma.user_findUnique_email sender db = Some user
    /\ isActive user = true
    /\ prisma.week_findFirst_desc open db = Some wk
    /\ prisma.submission_findUnique (user_id user) (week_id wk) db = None
    /\ submission_id row = sid
    /\ userId row = user_id user
    /\ weekId row = week_id wk
    /\ let d0 := with_submissions (submissions db ++ [row]) db in
       let d1 := snd (EmailProcessor.updateUserStreak env (user_id user)
                        (weekNumber wk) now d0) in
       db1 = with_journal
               (journal d1 ++ [Sent (SubmissionConfirmation sender (weekNumber wk))])
               d1.
Proof.
  unfold EmailProcessor.processInboundEmail. intros H.
  destruct (extractEmail (from p)) as [sender|]; [|discriminate].
  unfold bind at 1, reads at 1 in H.
  destruct (prisma.user_findUnique_email sender db) as [user|] eqn:Huser;
    [|discriminate].
  destruct (isActive user) eqn:Hactive; cbn [negb] in H; [|discriminate].
  unfold bind at 1, reads at 1 in H.
  destruct (prisma.week_findFirst_desc open db) as [wk|] eqn:Hweek;
    [|discriminate].
  unfold bind at 1, reads at 1 in H.
  destruct (prisma.submission_findUnique (user_id user) (week_id wk) db)
    as [old|] eqn:Hold; [discriminate|].
  cbv zeta in H.
  destruct (EmailProcessor.validateSubmissionFormat _) as [data|]; [|discriminate].
  unfold bind at 1, prisma.submission_create in H. rewrite Hold in H.
  set (row := mkSubmission _ _ _ _ _ _) in H.
  exists sender, user, wk, row. cbv zeta.
  unfold bind at 1 in H.
  destruct (EmailProcessor.updateUserStreak env (user_id user) (weekNumber wk) now
              (with_submissions (submissions db ++ [row]) db)) as [[] d'].
  unfold bind, sgMail_send, ret in H.
  destruct (transport env _ _); [|discriminate H]. injection H as Hsid Hdb1.
  cbn [snd]. subst db1 row. cbn [submission_id userId weekId] in *.
  repeat split; try assumption; reflexivity.
Qed.

(** X4. An accepted reply is on record: the store holds the submission
    under the answered id for the sender and the open week, the sender
    has a streak row whose last submission week is that week's number and
    whose count is 1 or one more than the count of a row whose last
    submission week was the number just before, and the confirmation to
    the sender is the last thing sent. *)
Theorem accepted_reply_is_recorded (T : TextParsing) env p now db sid db1 :
  EmailProcessor.processInboundEmail env p now db = (Success sid, db1) ->
  exists sender user wk row st',
    extractEmail (from p) = Some sender
    /\ prisma.user_findUnique_email sender db = Some user
    /\ prisma.week_findFirst_desc open db = Some wk
    /\ prisma.submission_findUnique (user_id user) (week_id wk) db1 = Some row
    /\ submission_id row = sid
    /\ prisma.userStreak_findUnique (user_id user) db1 = Some st'
    /\ lastSubmissionWeek st' = Some (weekNumber wk)
    /\ (currentStreak st' = 1
        \/ exists st, prisma.userStreak_findUnique (user_id user) db = Some st
                      /\ lastSubmissionWeek st = Some (weekNumber wk - 1)
                      /\ currentStreak st' = currentStreak st + 1)
    /\ last (journal db1) (StreakWrite 0)
       = Sent (SubmissionConfirmation sender (weekNumber wk)).
Proof.
  intros Hrun.
  destruct (@processInboundEmail_success_store _ _ _ _ _ _ _ Hrun)
    as (sender & user & wk & row & Hsender & Huser & _ & Hweek & Hnone
        & Hsid & Hrow_user & Hrow_week & Hdb1).
  cbv zeta in Hdb1.
  destruct (EP_updateUserStreak_row env (user_id user) (weekNumber wk) now
              (with_submissions (submissions db ++ [row]) db))
    as (st' & Hfound & Hlast & Hcount & Hsubs).
  exists sender, user, wk, row, st'. subst db1.
  unfold prisma.submission_findUnique, prisma.userStreak_findUnique in *.
  cbn [submissions streaks journal with_journal] in *.
  rewrite Hsubs. cbn [submissions with_submissions].
  repeat split; try assumption.
  - apply find_app_last; [exact Hnone|].
    unfold prisma.is_pair. rewrite Hrow_user, Hrow_week, !Z.eqb_refl. reflexivity.
  - apply last_last.
Qed.

Lemma accepted_reply_is_recorded_witness :
  let db := snd (WeeklyAutomation.startNewWeek default_env (Scenario.at_week 2024 1)
                   Scenario.members_only) in
  let out := EmailProcessor.processInboundEmail (T := Scenario.text_of_scenarios)
               default_env Scenario.ann_submits 1 db in
  fst out = Success 1
  /\ exists st', prisma.userStreak_findUnique 1 (snd out) = Some st'
                 /\ lastSubmissionWeek st' = Some 202401.
Proof.
  intros db out. split; [reflexivity|].
  destruct (@accepted_reply_is_recorded Scenario.text_of_scenarios default_env
              Scenario.ann_submits 1 db 1 (snd out) eq_refl)
    as (sender & user & wk & row & st' & Hsender & Huser & Hweek & _ & _ & Hfound
        & Hlast & _).
  exists st'.
  vm_compute in Hsender. injection Hsender as <-.
  vm_compute in Huser. injection Huser as <-.
  vm_compute in Hweek. injection Hweek as <-.
  split; [exact Hfound | exact Hlast].
Defined.

(** ** Submission intake, outcome by outcome *)

(** The intake of a reply that passes every check: the row is stored, the
    streak updated, the confirmation handed over, and the answer is the
    transport's. *)
Lemma processInboundEmail_stores (T : TextParsing) env p now db sender user wk data :
  extractEmail (from p) = Some sender ->
  prisma.user_findUnique_email sender db = Some user ->
  isActive user = true ->
  prisma.week_findFirst_desc open db = Some wk ->
  prisma.submission_findUnique (user_id user) (week_id wk) db = None ->
  EmailProcessor.validateSubmissionFormat
    (parseSubmission (str_or (text p) (str_or (html p) "")) (subject p))
  = Some data ->
  let row := mkSubmission (next_id (map submission_id (submissions db)))
                          (user_id user) (week_id wk)
                          (data_recommendation data) (data_reasonWhy data)
                          (data_digressions data) in
  let d0 := with_submissions (submissions db ++ [row]) db in
  let d1 := snd (EmailProcessor.updateUserStreak env (user_id user) (weekNumber wk)
                   now d0) in
  let confirmation := SubmissionConfirmation sender (weekNumber wk) in
  EmailProcessor.processInboundEmail env p now db
  = (if transport env (journal d1) confirmation
     then Success (submission_id row) else Failure "Processing failed",
     with_journal (journal d1 ++ [Sent confirmation]) d1).
Proof.
  intros Hsender Huser Hactive Hweek Hfresh Hvalid row d0 d1 confirmation.
  unfold EmailProcessor.processInboundEmail.
  rewrite Hsender. unfold bind, reads.
  rewrite Huser, Hactive. cbn [negb]. rewrite Hweek, Hfresh. cbv zeta.
  rewrite Hvalid. unfold prisma.submission_create. rewrite Hfresh.
  fold row. fold d0. subst d1.
  destruct (EmailProcessor.updateUserStreak env (user_id user) (weekNumber wk) now d0)
    as [[] d1].
  unfold sgMail_send. cbn [snd]. fold confirmation.
  destruct (transport env (journal d1) confirmation); reflexivity.
Qed.



(** ** The life of an invitation *)

Section Invitations.
Context {T : TextParsing}.
Variable env : Env.

(** [sendInvitation], outcome by outcome: a refusal that writes nothing,
    a token that is taken, or an invitation that is stored and whose
    mail the transport takes or refuses. *)
Lemma sendInvitation_outcome inviter invitee now token db :
  let clean := toLowerCase_trim invitee in
  let out := InvitationService.sendInvitation env inviter invitee now token db in
  (exists e, out = (Failure e, db))
  \/ (out = (Thrown, db) /\ prisma.invite_findUnique_token token db <> None)
  \/ exists who used remaining cur,
       InvitationService.checkInviteEligibility env inviter db
       = Eligible used remaining cur
       /\ prisma.user_findUnique inviter db = Some who
       /\ isValidEmail clean = true
       /\ prisma.user_findUnique_email clean db = None
       /\ prisma.invite_findFirst_pending clean now db = None
       /\ prisma.invite_findUnique_token token db = None
       /\ out
          = if transport env (journal db)
                 (Invitation (InvitationService.inviterName who) clean token)
            then (Success (mkInviteSent
                             (invite_id (fst (invited env inviter who clean token
                                                      now db)))
                             token
                             (moment_add_days env now
                                (InvitationService.inviteExpiryDays env))
                             (remaining - 1)),
                  snd (invited env inviter who clean token now db))
            else (Thrown, stranded env inviter who clean token now db).
Proof.
  intros clean out. subst out.
  unfold InvitationService.sendInvitation, bind, reads.
  destruct (InvitationService.checkInviteEligibility env inviter db)
    as [used remaining cur|reason] eqn:Hel;
    [|left; eexists; reflexivity].
  assert (Hwho : exists who, prisma.user_findUnique inviter db = Some who).
  { unfold InvitationService.checkInviteEligibility in Hel.
    destruct (prisma.user_findUnique inviter db) as [who|];
      [exists who; reflexivity | discriminate]. }
  destruct Hwho as [who Hwho].
  cbv zeta. fold clean.
  destruct (isValidEmail clean) eqn:Hvalid; cbn [negb];
    [|left; eexists; reflexivity].
  destruct (prisma.user_findUnique_email clean db) eqn:Hmember;
    [left; eexists; reflexivity|].
  destruct (prisma.invite_findFirst_pending clean now db) eqn:Hpending;
    [left; eexists; reflexivity|].
  unfold prisma.invite_create.
  destruct (prisma.invite_findUnique_token token db) eqn:Htoken.
  { right. left. split; [reflexivity | discriminate]. }
  right. right. exists who, used, remaining, cur.
  rewrite Hwho. unfold sgMail_send. cbn [journal with_invites].
  repeat (split; [assumption || reflexivity|]).
  destruct (transport env (journal db) _); cbn [negb]; [|reflexivity].
  unfold prisma.user_increment_inviteCount, ret.
  unfold prisma.user_findUnique at 1. cbn [users with_journal with_invites].
  unfold prisma.user_findUnique in Hwho. rewrite Hwho. reflexivity.
Qed.

Lemma sendInvitation_success inviter invitee now token db r db1 :
  InvitationService.sendInvitation env inviter invitee now token db
  = (Success r, db1) ->
  exists who used remaining cur,
    InvitationService.checkInviteEligibility env inviter db
    = Eligible used remaining cur
    /\ prisma.user_findUnique inviter db = Some who
    /\ isValidEmail (toLowerCase_trim invitee) = true
    /\ prisma.user_findUnique_email (toLowerCase_trim invitee) db = None
    /\ prisma.invite_findFirst_pending (toLowerCase_trim invitee) now db = None
    /\ prisma.invite_findUnique_token token db = None
    /\ r = mkInviteSent
             (invite_id (fst (invited env inviter who (toLowerCase_trim invitee)
                                      token now db)))
             token
             (moment_add_days env now (InvitationService.inviteExpiryDays env))
             (remaining - 1)
    /\ db1 = snd (invited env inviter who (toLowerCase_trim invitee) token now db).
Proof.
  intros Hrun.
  destruct (sendInvitation_outcome inviter invitee now token db)
    as [[e Hout]|[[Hout _]|(who & used & remaining & cur & Hel & Hwho & Hvalid
                            & Hmember & Hpending & Htoken & Hout)]];
    cbv zeta in Hout; rewrite Hrun in Hout; try discriminate Hout.
  exists who, used, remaining, cur.
  destruct (transport env _ _); [|discriminate Hout].
  injection Hout as -> ->. repeat split; assumption.
Qed.

(** A failure has written nothing. *)
Lemma sendInvitation_failure inviter invitee now token db e :
  fst (InvitationService.sendInvitation env inviter invitee now token db)
  = Failure e ->
  snd (InvitationService.sendInvitation env inviter invitee now token db) = db.
Proof.
  destruct (sendInvitation_outcome inviter invitee now token db)
    as [[e' Hout]|[[Hout _]|(who & used & remaining & cur & _ & _ & _ & _ & _ & _
                             & Hout)]];
    cbv zeta in Hout; rewrite Hout; [reflexivity | discriminate |].
  destruct (transport env _ _); discriminate.
Qed.

(** A throw has written nothing, the token being taken, or has left the
    invitation behind, the transport having refused the mail. *)
Lemma sendInvitation_thrown inviter invitee now token db :
  fst (InvitationService.sendInvitation env inviter invitee now token db) = Thrown ->
  (snd (InvitationService.sendInvitation env inviter invitee now token db) = db
   /\ prisma.invite_findUnique_token token db <> None)
  \/ exists who used remaining cur,
       InvitationService.checkInviteEligibility env inviter db
       = Eligible used remaining cur
       /\ prisma.user_findUnique inviter db = Some who
       /\ prisma.invite_findUnique_token token db = None
       /\ transport env (journal db)
            (Invitation (InvitationService.inviterName who)
                        (toLowerCase_trim invitee) token) = false
       /\ snd (InvitationService.sendInvitation env inviter invitee now token db)
          = stranded env inviter who (toLowerCase_trim invitee) token now db.
Proof.
  destruct (sendInvitation_outcome inviter invitee now token db)
    as [[e' Hout]|[[Hout Htaken]|(who & used & remaining & cur & Hel & Hwho & _ & _
                                  & _ & Htoken & Hout)]];
    cbv zeta in Hout; rewrite Hout.
  - discriminate.
  - intros _. left. split; [reflexivity | exact Htaken].
  - destruct (transport env _ _) eqn:Hmail; [discriminate|].
    intros _. right. exists who, used, remaining, cur.
    repeat split; assumption.
Qed.

End Invitations.

Lemma find_update_where_None (A : Type) (q p : A -> bool) (f : A -> A) (l : list A) :
  (forall x, q (f x) = q x) ->
  find q l = None -> find q (update_where p f l) = None.
Proof.
  intros Hq. induction l as [|x rest IH]; cbn [find update_where map];
    [reflexivity|].
  fold (update_where p f rest).
  destruct (q x) eqn:Hx; [discriminate|]. intros Hrest.
  destruct (p x); [rewrite Hq|]; rewrite Hx; apply IH, Hrest.
Qed.

Lemma find_app_hit (A : Type) (p : A -> bool) (l : list A) (x : A) :
  p x = true -> exists y, find p (l ++ [x]) = Some y.
Proof.
  intros Hx. induction l as [|z rest IH]; cbn [find app].
  - rewrite Hx. exists x. reflexivity.
  - destruct (p z); [exists z; reflexivity | exact IH].
Qed.

Lemma ids_update_where (p : User -> bool) (f : User -> User) (l : list User) :
  (forall u, user_id (f u) = user_id u) ->
  map user_id (update_where p f l) = map user_id l.
Proof.
  intros Hf. unfold update_where. rewrite map_map. apply map_ext.
  intros u. destruct (p u); [apply Hf | reflexivity].
Qed.

(** X5. [sendInvitation], outcome by outcome.  A success has appended
    exactly one pending invitation (the cleaned address, the given token,
    expiring [INVITE_EXPIRY_DAYS] days on by the server's calendar),
    raised the inviter's invitation count by one and handed over exactly
    one invitation mail, leaving weeks, streak rows and submissions
    alone.  A failure has written nothing.  A throw has written nothing
    when the token was taken; otherwise the transport refused the mail,
    and the pending invitation is stored all the same while the
    inviter's count is not raised.  With a transport that takes every
    message, whatever is not a success leaves the store as it was. *)
Theorem sendInvitation_effect (T : TextParsing) env inviter invitee now token db :
  let send_it := InvitationService.sendInvitation env inviter invitee now token in
  let clean := toLowerCase_trim invitee in
  let expires := moment_add_days env now (InvitationService.inviteExpiryDays env) in
  (forall r,
      fst (send_it db) = Success r ->
      exists who,
        prisma.user_findUnique inviter db = Some who
        /\ sent_inviteToken r = token
        /\ sent_expiresAt r = expires
        /\ invites (snd (send_it db))
           = invites db ++ [mkInvite (sent_inviteId r) inviter clean token
                                     pending expires None]
        /\ users (snd (send_it db))
           = update_where (fun u => user_id u =? inviter)
                          prisma.bump_inviteCount (users db)
        /\ effects_of send_it db
           = [Sent (Invitation (InvitationService.inviterName who) clean token)]
        /\ weeks (snd (send_it db)) = weeks db
        /\ streaks (snd (send_it db)) = streaks db
        /\ submissions (snd (send_it db)) = submissions db)
  /\ (forall e, fst (send_it db) = Failure e -> snd (send_it db) = db)
  /\ (fst (send_it db) = Thrown ->
      (snd (send_it db) = db /\ prisma.invite_findUnique_token token db <> None)
      \/ exists who,
           prisma.user_findUnique inviter db = Some who
           /\ transport env (journal db)
                (Invitation (InvitationService.inviterName who) clean token)
              = false
           /\ invites (snd (send_it db))
              = invites db ++ [mkInvite (next_id (map invite_id (invites db)))
                                        inviter clean token pending expires None]
           /\ users (snd (send_it db)) = users db
           /\ effects_of send_it db
              = [Sent (Invitation (InvitationService.inviterName who) clean token)]
           /\ weeks (snd (send_it db)) = weeks db
           /\ streaks (snd (send_it db)) = streaks db
           /\ submissions (snd (send_it db)) = submissions db)
  /\ (reliable env ->
      (forall r, fst (send_it db) <> Success r) -> snd (send_it db) = db).
Proof.
  intros send_it clean expires. subst send_it.
  split; [|split; [|split]].
  - intros r Hr. unfold effects_of.
    destruct (InvitationService.sendInvitation env inviter invitee now token db)
      as [res db1] eqn:Hrun.
    cbn [fst snd] in *. subst res.
    destruct (@sendInvitation_success _ _ _ _ _ _ _ _ _ Hrun)
      as (who & used & remaining & cur & _ & Hwho & _ & _ & _ & _ & -> & ->).
    exists who. unfold invited.
    cbn [fst snd invites users weeks streaks submissions journal with_users
         with_journal with_invites sent_inviteToken sent_expiresAt sent_inviteId
         invite_id].
    repeat split; try reflexivity; try assumption.
    apply skipn_own_length.
  - intros e. apply sendInvitation_failure.
  - intros Hthrown.
    destruct (@sendInvitation_thrown T env inviter invitee now token db Hthrown)
      as [Hnothing|(who & used & remaining & cur & _ & Hwho & _ & Hmail & Hleft)].
    + left. exact Hnothing.
    + right. exists who. unfold effects_of. rewrite Hleft.
      unfold stranded, invited.
      cbn [fst snd invites users weeks streaks submissions journal with_users
           with_journal with_invites].
      repeat split; try reflexivity; try assumption.
      apply skipn_own_length.
  - intros Hup Hnever.
    destruct (InvitationService.sendInvitation env inviter invitee now token db)
      as [[r|e|] db1] eqn:Hrun; cbn [fst snd] in *.
    + contradiction (Hnever r). reflexivity.
    + pose proof (@sendInvitation_failure T env inviter invitee now token db e)
        as Hsame.
      rewrite Hrun in Hsame. apply Hsame. reflexivity.
    + pose proof (@sendInvitation_thrown T env inviter invitee now token db)
        as Hthrown.
      rewrite Hrun in Hthrown. cbn [fst snd] in Hthrown.
      destruct (Hthrown eq_refl)
        as [[Hsame _]|(who & used & remaining & cur & _ & _ & _ & Hmail & _)];
        [exact Hsame|].
      rewrite Hup in Hmail. discriminate Hmail.
Qed.

Lemma sendInvitation_effect_witness :
  let send_it :=
    InvitationService.sendInvitation (T := Scenario.text_of_scenarios)
      Scenario.no_invitations 1 "carol@example.com" 100 "0f1e2d3c" in
  fst (send_it Scenario.quiet_week) = Thrown
  /\ invites (snd (send_it Scenario.quiet_week))
     = [mkInvite 1 1 "carol@example.com" "0f1e2d3c" pending
                 (100 + 7 * day_ms) None]
  /\ users (snd (send_it Scenario.quiet_week)) = users Scenario.quiet_week.
Proof.
  intros send_it.
  destruct (@sendInvitation_effect Scenario.text_of_scenarios
              Scenario.no_invitations 1 "carol@example.com" 100 "0f1e2d3c"
              Scenario.quiet_week)
    as (_ & _ & Hthrown & _).
  split; [reflexivity|].
  destruct (Hthrown eq_refl)
    as [[_ Htaken]|(who & _ & _ & Hinvites & Husers & _)].
  - contradiction Htaken. reflexivity.
  - split; [|exact Husers].
    fold send_it in Hinvites. rewrite Hinvites. reflexivity.
Defined.

(** X6. While an invitation is pending and unexpired, nobody can send a
    second one to the same address (after cleaning): the attempt fails
    and writes nothing, and for an inviter who is otherwise eligible the
    answer is "Pending invitation already exists for this email". *)
Theorem no_second_invitation_while_pending (T : TextParsing) env
    inviter invitee now token db r db1 inviter2 invitee2 now2 token2 :
  InvitationService.sendInvitation env inviter invitee now token db
  = (Success r, db1) ->
  toLowerCase_trim invitee2 = toLowerCase_trim invitee ->
  now2 < sent_expiresAt r ->
  exists e,
    InvitationService.sendInvitation env inviter2 invitee2 now2 token2 db1
    = (Failure e, db1)
    /\ (forall used remaining cur,
           InvitationService.checkInviteEligibility env inviter2 db1
           = Eligible used remaining cur ->
           e = "Pending invitation already exists for this email").
Proof.
  intros Hrun Hsame Hearly.
  destruct (@sendInvitation_success _ _ _ _ _ _ _ _ _ Hrun)
    as (who & used & remaining & cur & _ & Hwho & Hvalid & Hmember & _ & _ & -> & ->).
  cbn [sent_expiresAt] in Hearly.
  set (db1 := snd (invited env inviter who (toLowerCase_trim invitee) token now db)).
  assert (Hmember1 : prisma.user_findUnique_email (toLowerCase_trim invitee) db1
                     = None).
  { unfold prisma.user_findUnique_email in *. subst db1. unfold invited.
    cbn [snd users with_users]. apply find_update_where_None; [|exact Hmember].
    intros u. reflexivity. }
  assert (Hpending1 : exists i,
             prisma.invite_findFirst_pending (toLowerCase_trim invitee) now2 db1
             = Some i).
  { unfold prisma.invite_findFirst_pending. subst db1. unfold invited.
    cbn [snd invites with_users with_journal with_invites].
    apply find_app_hit. cbn [inviteeEmail invite_status expiresAt InviteStatus_eqb].
    rewrite String.eqb_refl. cbn [andb]. apply Z.gtb_lt. lia. }
  destruct Hpending1 as [i Hpending1].
  unfold InvitationService.sendInvitation, bind, reads.
  destruct (InvitationService.checkInviteEligibility env inviter2 db1)
    as [used2 remaining2 cur2|reason].
  - cbv zeta. rewrite Hsame, Hvalid. cbn [negb]. rewrite Hmember1, Hpending1.
    eexists. split; [reflexivity|]. intros; reflexivity.
  - exists reason. split; [reflexivity|]. intros; discriminate.
Qed.

Lemma no_second_invitation_while_pending_witness :
  let first :=
    InvitationService.sendInvitation (T := Scenario.text_of_scenarios) default_env
      1 "carol@example.com" 100 "0f1e2d3c" Scenario.quiet_week in
  InvitationService.sendInvitation (T := Scenario.text_of_scenarios) default_env
    1 "carol@example.com" 200 "aa55" (snd first)
  = (Failure "Pending invitation already exists for this email", snd first).
Proof.
  intros first.
  destruct (@no_second_invitation_while_pending Scenario.text_of_scenarios
              default_env 1 "carol@example.com" 100 "0f1e2d3c" Scenario.quiet_week
              (mkInviteSent 1 "0f1e2d3c" (100 + 7 * day_ms) 4) (snd first)
              1 "carol@example.com" 200 "aa55")
    as (e & Hrun & He).
  - reflexivity.
  - reflexivity.
  - cbn [sent_expiresAt]. unfold day_ms. lia.
  - rewrite Hrun. rewrite (He 1 4 4); reflexivity.
Defined.

Lemma find_app_front (A : Type) (p : A -> bool) (l tail : list A) (x : A) :
  find p l = Some x -> find p (l ++ tail) = Some x.
Proof.
  induction l as [|y rest IH]; cbn [find app]; [discriminate|].
  destruct (p y); [intros H; exact H | exact IH].
Qed.

Lemma find_update_where_same (A : Type) (p : A -> bool) (f : A -> A)
    (l : list A) (x : A) :
  (forall y, p y = true -> p (f y) = true) ->
  find p l = Some x -> find p (update_where p f l) = Some (f x).
Proof.
  intros Hp. induction l as [|y rest IH]; cbn [find update_where map];
    [discriminate|].
  fold (update_where p f rest).
  destruct (p y) eqn:Hy.
  - intros [= ->]. cbn [find]. rewrite (Hp _ Hy). reflexivity.
  - intros Hrest. cbn [find]. rewrite Hy. apply IH, Hrest.
Qed.

(** A pending, unexpired invitation to an address that is not a member's:
    what accepting it leaves in the store. *)
Lemma processInviteAcceptance_fresh token userData now db inv :
  prisma.invite_findUnique_token token db = Some inv ->
  invite_status inv = pending ->
  now <= expiresAt inv ->
  prisma.user_findUnique_email (inviteeEmail inv) db = None ->
  streaks_refer_to_users db ->
  let out := InvitationService.processInviteAcceptance token userData now db in
  let newUser := mkUser (next_id (map user_id (users db))) (inviteeEmail inv)
                        (or_null (given_firstName userData))
                        (or_null (given_lastName userData)) true 0 in
  fst out = Success (mkAccepted (member_of newUser)
                       (option_map inviter_of
                          (prisma.user_findUnique (inviterId inv) db)))
  /\ users (snd out) = users db ++ [newUser]
  /\ streaks (snd out)
     = streaks db ++ [mkStreak (user_id newUser) 0 0 None false None]
  /\ invites (snd out)
     = update_where (fun i => invite_id i =? invite_id inv)
                    (InvitationService.mark accepted (Some now)) (invites db)
  /\ ~ In (user_id newUser) (streak_keys db).
Proof.
  intros Hinv Hpending Hintime Hnew Hrefs out newUser. subst out.
  assert (Hfresh : ~ In (user_id newUser) (streak_keys db)).
  { unfold streak_keys. intros Hin. apply in_map_iff in Hin.
    destruct Hin as (s & Hs & Hin). apply Hrefs in Hin.
    rewrite Hs in Hin. apply (next_id_fresh _ Hin). }
  unfold InvitationService.processInviteAcceptance, bind, reads.
  rewrite Hinv, Hpending. cbn [InviteStatus_eqb negb].
  replace (now >? expiresAt inv) with false
    by (symmetry; rewrite Z.gtb_ltb; apply Z.ltb_ge; lia).
  rewrite Hnew. unfold prisma.user_create. rewrite Hnew. fold newUser.
  unfold prisma.userStreak_create. cbn [streak_userId].
  assert (Hfree : prisma.userStreak_findUnique (user_id newUser)
                    (with_users (users db ++ [newUser]) db) = None).
  { apply userStreak_findUnique_None. exact Hfresh. }
  rewrite Hfree. cbn [negb].
  unfold prisma.invite_update.
  cbn [invites with_users with_journal with_streaks].
  rewrite (invite_found_exists _ _ Hinv).
  cbn [fst snd ret users streaks invites with_invites with_users with_journal
       with_streaks].
  repeat split. exact Hfresh.
Qed.

(** X7. An invitation that was sent can be taken up: accepting the token
    [sendInvitation] answered, no later than the expiry it answered,
    succeeds (given that streak rows belong to stored members).  The new
    member is active, is found under the cleaned address, starts with a
    streak row at 0/0 that cannot invite, and the invitation is written
    as accepted at that time.  The answer carries the new member's id,
    address and names and the inviter's names and address; the inviter's
    stored row has the invitation count that the sending raised. *)
Theorem invitation_round_trip (T : TextParsing) env inviter invitee now token
    db r db1 userData now2 :
  InvitationService.sendInvitation env inviter invitee now token db
  = (Success r, db1) ->
  streaks_refer_to_users db ->
  now2 <= sent_expiresAt r ->
  let out := InvitationService.processInviteAcceptance (sent_inviteToken r)
               userData now2 db1 in
  exists newUser who,
    fst out = Success (mkAccepted (member_of newUser) (Some (inviter_of who)))
    /\ prisma.user_findUnique inviter db = Some who
    /\ prisma.user_findUnique inviter (snd out)
       = Some (prisma.bump_inviteCount who)
    /\ email newUser = toLowerCase_trim invitee
    /\ isActive newUser = true
    /\ prisma.user_findUnique_email (toLowerCase_trim invitee) (snd out)
       = Some newUser
    /\ prisma.userStreak_findUnique (user_id newUser) (snd out)
       = Some (mkStreak (user_id newUser) 0 0 None false None)
    /\ option_map invite_status
         (prisma.invite_findUnique_token (sent_inviteToken r) (snd out))
       = Some accepted
    /\ option_map acceptedAt
         (prisma.invite_findUnique_token (sent_inviteToken r) (snd out))
       = Some (Some now2).
Proof.
  intros Hrun Hrefs Hintime out.
  destruct (@sendInvitation_success _ _ _ _ _ _ _ _ _ Hrun)
    as (who & used & remaining & cur & _ & Hwho & _ & Hmember & _ & Htoken & -> & ->).
  cbn [sent_expiresAt sent_inviteToken] in *.
  set (clean := toLowerCase_trim invitee) in *.
  set (db1 := snd (invited env inviter who clean token now db)) in *.
  set (inv := fst (invited env inviter who clean token now db)).
  assert (Hinv : prisma.invite_findUnique_token token db1 = Some inv).
  { unfold prisma.invite_findUnique_token in *. subst db1 inv. unfold invited.
    cbn [fst snd invites with_users with_journal with_invites].
    apply find_app_last; [exact Htoken|]. cbn [inviteToken]. apply String.eqb_refl. }
  assert (Hmember1 : prisma.user_findUnique_email clean db1 = None).
  { unfold prisma.user_findUnique_email in *. subst db1. unfold invited.
    cbn [snd users with_users]. apply find_update_where_None; [|exact Hmember].
    intros u. reflexivity. }
  assert (Hwho1 : prisma.user_findUnique inviter db1
                  = Some (prisma.bump_inviteCount who)).
  { unfold prisma.user_findUnique in *. subst db1. unfold invited.
    cbn [snd users with_users]. apply find_update_where_same; [|exact Hwho].
    intros u Hu. exact Hu. }
  assert (Hrefs1 : streaks_refer_to_users db1).
  { intros s Hs. subst db1. unfold invited in *.
    cbn [snd users streaks with_users with_journal with_invites] in *.
    rewrite ids_update_where; [apply Hrefs, Hs | intros u; reflexivity]. }
  destruct (@processInviteAcceptance_fresh token userData now2 db1 inv Hinv)
    as (Hres & Husers & Hstreaks & Hinvites & Hfresh);
    [reflexivity | exact Hintime | exact Hmember1 | exact Hrefs1 |].
  fold out in Hres, Husers, Hstreaks, Hinvites.
  cbn [inviterId inviteeEmail inv invited fst] in Hres. rewrite Hwho1 in Hres.
  eexists. exists who.
  split; [exact Hres|].
  split; [exact Hwho|].
  split.
  { unfold prisma.user_findUnique in *. rewrite Husers.
    apply find_app_front. exact Hwho1. }
  split; [reflexivity|].
  split; [reflexivity|].
  split.
  { unfold prisma.user_findUnique_email in *. rewrite Husers.
    apply find_app_last; [exact Hmember1|]. cbn [email]. apply String.eqb_refl. }
  split.
  { unfold prisma.userStreak_findUnique. rewrite Hstreaks.
    apply find_app_last; [|cbn [streak_userId]; apply Z.eqb_refl].
    apply userStreak_findUnique_None. exact Hfresh. }
  unfold prisma.invite_findUnique_token in *. rewrite Hinvites.
  rewrite (@invite_found_after_update token inv
             (InvitationService.mark accepted (Some now2)) _
             (fun i => eq_refl) Hinv).
  split; reflexivity.
Qed.

Lemma invitation_round_trip_witness :
  let sent :=
    InvitationService.sendInvitation (T := Scenario.text_of_scenarios) default_env
      1 "carol@example.com" 100 "0f1e2d3c" Scenario.quiet_week in
  let out := InvitationService.processInviteAcceptance "0f1e2d3c"
               (mkUserData (Some "Carol") None) 5000 (snd sent) in
  exists newUser,
    prisma.user_findUnique_email "carol@example.com" (snd out) = Some newUser
    /\ isActive newUser = true.
Proof.
  intros sent out.
  destruct (@invitation_round_trip Scenario.text_of_scenarios default_env
              1 "carol@example.com" 100 "0f1e2d3c" Scenario.quiet_week
              (mkInviteSent 1 "0f1e2d3c" (100 + 7 * day_ms) 4) (snd sent)
              (mkUserData (Some "Carol") None) 5000)
    as (newUser & who & _ & _ & _ & _ & Hactive & Hfound & _).
  - reflexivity.
  - intros s [<-|[]]. left. reflexivity.
  - cbn [sent_expiresAt]. unfold day_ms. lia.
  - exists newUser. split; [exact Hfound | exact Hactive].
Defined.

Lemma acceptance_of_processed_invitation token userData now db inv :
  prisma.invite_findUnique_token token db = Some inv ->
  invite_status inv <> pending ->
  InvitationService.processInviteAcceptance token userData now db
  = (Failure "Invitation already processed", db).
Proof.
  intros Hinv Hnot.
  unfold InvitationService.processInviteAcceptance, bind, reads. rewrite Hinv.
  destruct (invite_status inv); [contradiction | reflexivity | reflexivity].
Qed.

(** X8. An invitation token works once at most.  After an acceptance
    attempt that did not throw, whatever its answer, every further
    attempt with the same token is refused, as an invalid link or as
    already processed, and writes nothing. *)
Theorem invitation_token_is_one_time token ud1 ud2 now1 now2 db :
  let first := InvitationService.processInviteAcceptance token ud1 now1 db in
  fst first <> Thrown ->
  exists e,
    InvitationService.processInviteAcceptance token ud2 now2 (snd first)
    = (Failure e, snd first)
    /\ (e = "Invalid invitation link" \/ e = "Invitation already processed").
Proof.
  intros first Hnot.
  assert (Hafter : prisma.invite_findUnique_token token (snd first) = None
                   \/ exists inv', prisma.invite_findUnique_token token (snd first)
                                   = Some inv'
                                   /\ invite_status inv' <> pending).
  { subst first. revert Hnot.
    unfold InvitationService.processInviteAcceptance, bind, reads.
    destruct (prisma.invite_findUnique_token token db) as [inv|] eqn:Hinv;
      [|intros _; left; exact Hinv].
    destruct (invite_status inv) eqn:Hst; cbn [InviteStatus_eqb negb];
      [| intros _; right; exists inv; split; [exact Hinv | rewrite Hst; discriminate]
       | intros _; right; exists inv; split; [exact Hinv | rewrite Hst; discriminate]].
    destruct (now1 >? expiresAt inv).
    { intros _. right. unfold prisma.invite_update.
      rewrite (invite_found_exists _ _ Hinv). cbn [snd ret].
      unfold prisma.invite_findUnique_token in *. cbn [invites with_invites].
      rewrite (@invite_found_after_update token inv
                 (fun i => InvitationService.mark expired (acceptedAt i) i) _
                 (fun i => eq_refl) Hinv).
      eexists. split; [reflexivity | discriminate]. }
    destruct (prisma.user_findUnique_email (inviteeEmail inv) db) eqn:Hmember.
    { intros _. right. unfold prisma.invite_update.
      rewrite (invite_found_exists _ _ Hinv). cbn [snd ret].
      unfold prisma.invite_findUnique_token in *. cbn [invites with_invites].
      rewrite (@invite_found_after_update token inv
                 (InvitationService.mark accepted (Some now1)) _
                 (fun i => eq_refl) Hinv).
      eexists. split; [reflexivity | discriminate]. }
    unfold prisma.user_create. rewrite Hmember.
    unfold prisma.userStreak_create. cbn [streak_userId].
    match goal with
    | |- context [prisma.userStreak_findUnique ?k ?d] =>
        destruct (prisma.userStreak_findUnique k d)
    end; cbn [negb fst ret]; [intros Hthrown; contradiction Hthrown; reflexivity|].
    intros _. right. unfold prisma.invite_update.
    cbn [invites with_users with_journal with_streaks].
    rewrite (invite_found_exists _ _ Hinv). cbn [snd ret].
    unfold prisma.invite_findUnique_token in *.
    cbn [invites with_invites with_users with_journal with_streaks].
    rewrite (@invite_found_after_update token inv
               (InvitationService.mark accepted (Some now1)) _
               (fun i => eq_refl) Hinv).
    eexists. split; [reflexivity | discriminate]. }
  destruct Hafter as [Hnone|(inv' & Hinv' & Hdone)].
  - exists "Invalid invitation link". split; [|left; reflexivity].
    unfold InvitationService.processInviteAcceptance, bind, reads.
    rewrite Hnone. reflexivity.
  - exists "Invitation already processed". split; [|right; reflexivity].
    apply (acceptance_of_processed_invitation _ _ _ _ Hinv' Hdone).
Qed.

Lemma invitation_token_is_one_time_witness :
  let first := InvitationService.processInviteAcceptance "token-carol"
                 (mkUserData (Some "Carol") None) 100 Scenario.with_invitations in
  exists newUser inviter,
    fst first = Success (mkAccepted newUser inviter)
    /\ InvitationService.processInviteAcceptance "token-carol"
         (mkUserData (Some "Carol") None) 101 (snd first)
       = (Failure "Invitation already processed", snd first).
Proof.
  intros first.
  destruct (@invitation_token_is_one_time "token-carol"
              (mkUserData (Some "Carol") None) (mkUserData (Some "Carol") None)
              100 101 Scenario.with_invitations)
    as (e & Hsecond & _).
  - discriminate.
  - eexists. eexists. split; [reflexivity|].
    assert (He : e = "Invitation already processed")
      by (pose proof Hsecond as Hrun; vm_compute in Hrun; congruence).
    rewrite <- He. exact Hsecond.
Defined.

(** ** Lapsed invitations *)

Lemma update_where_none (A : Type) (p : A -> bool) (f : A -> A) (l : list A) :
  (forall x, In x l -> p x = false) -> update_where p f l = l.
Proof.
  intros Hp. induction l as [|x rest IH]; cbn [update_where map]; [reflexivity|].
  fold (update_where p f rest).
  rewrite (Hp x (or_introl eq_refl)), IH; [reflexivity|].
  intros y Hy. apply Hp. right. exact Hy.
Qed.

Lemma filter_none (A : Type) (p : A -> bool) (l : list A) :
  (forall x, In x l -> p x = false) -> filter p l = [].
Proof.
  intros Hp. induction l as [|x rest IH]; cbn [filter]; [reflexivity|].
  rewrite (Hp x (or_introl eq_refl)). apply IH.
  intros y Hy. apply Hp. right. exact Hy.
Qed.

Lemma update_where_origin (A : Type) (p : A -> bool) (f : A -> A) (l : list A) y :
  In y (update_where p f l) ->
  exists x, In x l /\ ((p x = false /\ y = x) \/ (p x = true /\ y = f x)).
Proof.
  unfold update_where. intros Hy. apply in_map_iff in Hy.
  destruct Hy as (x & Hxy & Hx). exists x. split; [exact Hx|].
  destruct (p x); [right | left]; split; congruence.
Qed.

Lemma update_where_kept (A : Type) (p : A -> bool) (f : A -> A) (l : list A) x :
  In x l -> p x = false -> In x (update_where p f l).
Proof.
  unfold update_where. intros Hx Hp. apply in_map_iff. exists x.
  rewrite Hp. split; [reflexivity | exact Hx].
Qed.

(** X9. [cleanupExpiredInvites] settles every lapsed invitation: it
    answers the number of pending invitations whose expiry lies before
    now; row by row and in the stored order, a lapsed invitation ends
    with status expired and its other fields as they were, and every
    other invitation stays as it was, as do all the other tables and the
    journal; so afterwards no stored invitation is pending with such an
    expiry, rows that were not lapsed are still there and no row is
    removed; running it again at the same time counts 0 and writes
    nothing, and an acceptance at that time is never answered
    "Invitation has expired". *)
Theorem cleanupExpiredInvites_settles now db :
  let out := InvitationService.cleanupExpiredInvites now db in
  fst out
  = Success (Z.of_nat (List.length (filter (InvitationService.is_lapsed now)
                                           (invites db))))
  /\ invites (snd out)
     = map (fun i => if InvitationService.is_lapsed now i
                     then mkInvite (invite_id i) (inviterId i) (inviteeEmail i)
                                   (inviteToken i) expired (expiresAt i)
                                   (acceptedAt i)
                     else i)
           (invites db)
  /\ (forall i, In i (invites db) -> InvitationService.is_lapsed now i = true ->
                exists i', In i' (invites (snd out))
                           /\ invite_id i' = invite_id i
                           /\ invite_status i' = expired)
  /\ weeks (snd out) = weeks db
  /\ users (snd out) = users db
  /\ streaks (snd out) = streaks db
  /\ submissions (snd out) = submissions db
  /\ journal (snd out) = journal db
  /\ (forall i, In i (invites (snd out)) -> InvitationService.is_lapsed now i = false)
  /\ (forall i, In i (invites db) -> InvitationService.is_lapsed now i = false ->
                In i (invites (snd out)))
  /\ map invite_id (invites (snd out)) = map invite_id (invites db)
  /\ InvitationService.cleanupExpiredInvites now (snd out) = (Success 0, snd out)
  /\ (forall token userData,
         fst (InvitationService.processInviteAcceptance token userData now (snd out))
         <> Failure "Invitation has expired").
Proof.
  intros out. subst out.
  unfold InvitationService.cleanupExpiredInvites, bind, prisma.invite_updateMany, ret.
  cbn [fst snd invites weeks users streaks submissions journal with_invites].
  set (data := fun i => InvitationService.mark expired (acceptedAt i) i).
  set (after := update_where (InvitationService.is_lapsed now) data (invites db)).
  assert (Hsettled : forall i, In i after -> InvitationService.is_lapsed now i = false).
  { intros i Hi. subst after. apply update_where_origin in Hi.
    destruct Hi as (x & _ & [[Hp ->]|[_ ->]]); [exact Hp | reflexivity]. }
  split; [reflexivity|]. split; [reflexivity|]. split.
  { intros i Hi Hp. exists (data i). split; [|split; reflexivity].
    subst after. unfold update_where. apply in_map_iff. exists i.
    rewrite Hp. split; [reflexivity | exact Hi]. }
  do 5 (split; [reflexivity|]).
  split; [exact Hsettled|]. split.
  { intros i Hi Hp. subst after. apply update_where_kept; assumption. }
  split.
  { subst after. unfold update_where. rewrite map_map. apply map_ext.
    intros i. destruct (InvitationService.is_lapsed now i); reflexivity. }
  split.
  { rewrite (filter_none _ _ Hsettled), (update_where_none _ _ _ Hsettled).
    destruct db; reflexivity. }
  intros token userData.
  unfold InvitationService.processInviteAcceptance, bind, reads.
  destruct (prisma.invite_findUnique_token token (with_invites after db))
    as [inv|] eqn:Hinv; [|discriminate].
  apply find_some in Hinv. destruct Hinv as [Hin _].
  cbn [invites with_invites] in Hin. apply Hsettled in Hin.
  unfold InvitationService.is_lapsed in Hin.
  destruct (InviteStatus_eqb (invite_status inv) pending); cbn [negb andb] in *;
    [|discriminate].
  rewrite Z.gtb_ltb, Hin.
  destruct (prisma.user_findUnique_email (inviteeEmail inv) _).
  - destruct (prisma.invite_update _ _ _). discriminate.
  - destruct (prisma.user_create _ _ _ _ _) as [[u|] d1]; [|discriminate].
    destruct (prisma.userStreak_create _ d1) as [[] d2]; cbn [negb]; [|discriminate].
    destruct (prisma.invite_update _ _ d2). discriminate.
Qed.

Lemma cleanupExpiredInvites_settles_witness :
  fst (InvitationService.cleanupExpiredInvites 100 Scenario.with_invitations)
  = Success 1
  /\ map invite_status
       (invites (snd (InvitationService.cleanupExpiredInvites 100
                        Scenario.with_invitations)))
     = map (fun i => if InvitationService.is_lapsed 100 i
                     then expired else invite_status i)
           (invites Scenario.with_invitations)
  /\ InvitationService.cleanupExpiredInvites 100
       (snd (InvitationService.cleanupExpiredInvites 100 Scenario.with_invitations))
     = (Success 0,
        snd (InvitationService.cleanupExpiredInvites 100 Scenario.with_invitations)).
Proof.
  destruct (cleanupExpiredInvites_settles 100 Scenario.with_invitations)
    as (Hcount & Hrows & _ & _ & _ & _ & _ & _ & _ & _ & _ & Hagain & _).
  split; [exact Hcount|]. split; [|exact Hagain].
  rewrite Hrows, map_map. apply map_ext. intros i.
  destruct (InvitationService.is_lapsed 100 i); reflexivity.
Defined.

(** X10. What [GET /status/:token] shows tells what accepting the token at
    that moment does: an unknown token (404) is an invalid link; a shown
    status of accepted is refused as already processed, with the store
    untouched; a shown status of expired is refused as expired or as
    already processed, without a new member; and a shown status of
    pending is never refused as invalid, processed or expired. *)
Theorem status_tells_acceptance token userData now db :
  let shown := InviteRoutes.status token now db in
  let out := InvitationService.processInviteAcceptance token userData now db in
  (shown = Status 404 "Invitation not found" ->
   out = (Failure "Invalid invitation link", db))
  /\ (forall view,
         shown = Json view -> view_status view = accepted ->
         out = (Failure "Invitation already processed", db))
  /\ (forall view,
         shown = Json view -> view_status view = expired ->
         (fst out = Failure "Invitation has expired"
          \/ fst out = Failure "Invitation already processed")
         /\ users (snd out) = users db /\ streaks (snd out) = streaks db)
  /\ (forall view,
         shown = Json view -> view_status view = pending ->
         view_isExpired view = false
         /\ ((exists member, fst out = Success member)
             \/ fst out = Failure "User already exists"
             \/ fst out = Thrown)).
Proof.
  intros shown out. subst shown out.
  unfold InviteRoutes.status, InvitationService.processInviteAcceptance, bind, reads.
  destruct (prisma.invite_findUnique_token token db) as [inv|] eqn:Hinv.
  2:{ split; [reflexivity|]. repeat split; intros; discriminate. }
  split; [destruct (prisma.user_findUnique (inviterId inv) db); discriminate|].
  destruct (prisma.user_findUnique (inviterId inv) db) as [inviter|].
  2:{ repeat split; intros; discriminate. }
  cbv zeta.
  destruct (invite_status inv) eqn:Hst; cbn [InviteStatus_eqb negb andb];
    destruct (now >? expiresAt inv) eqn:Hlate; cbn [andb];
    (split; [|split]); intros view [= <-]; cbn [view_status view_isExpired];
    intros Hshown; try discriminate Hshown;
    try (split; [auto | split; reflexivity]);
    try reflexivity.
  - (* pending, past the expiry *)
    unfold prisma.invite_update. rewrite (invite_found_exists _ _ Hinv).
    split; [left; reflexivity | split; reflexivity].
  - (* pending, in time *)
    split; [reflexivity|].
    destruct (prisma.user_findUnique_email (inviteeEmail inv) db).
    + destruct (prisma.invite_update _ _ _). right. left. reflexivity.
    + destruct (prisma.user_create _ _ _ _ _) as [[u|] d1];
        [|right; right; reflexivity].
      destruct (prisma.userStreak_create _ d1) as [[] d2]; cbn [negb];
        [|right; right; reflexivity].
      destruct (prisma.invite_update _ _ d2). left. eexists. reflexivity.
Qed.

Lemma status_tells_acceptance_witness :
  InviteRoutes.status "token-dave" 100 Scenario.with_invitations
  = Json (mkInviteView expired "dave@example.com" 50 None true "Ann")
  /\ fst (InvitationService.processInviteAcceptance "token-dave"
            (mkUserData None None) 100 Scenario.with_invitations)
     = Failure "Invitation has expired".
Proof.
  destruct (status_tells_acceptance "token-dave" (mkUserData None None) 100
              Scenario.with_invitations) as (_ & _ & Hexpired & _).
  split; [reflexivity|].
  destruct (Hexpired _ eq_refl eq_refl) as [[Hout|Hout] _].
  - exact Hout.
  - discriminate Hout.
Defined.

(** ** The week cycle *)

Lemma find_filter_head (A : Type) (p : A -> bool) (l : list A) (x : A) :
  find p l = Some x -> exists t, filter p l = x :: t.
Proof.
  induction l as [|y rest IH]; cbn [find filter]; [discriminate|].
  destruct (p y); [intros [= ->]; eexists; reflexivity | exact IH].
Qed.

Lemma sole_open_week db w :
  at_most_one_open db -> prisma.week_findFirst open db = Some w ->
  open_weeks db = [w].
Proof.
  unfold at_most_one_open, open_count, open_weeks, prisma.week_findFirst.
  intros Hone Hfound. apply find_filter_head in Hfound.
  destruct Hfound as [t Ht]. rewrite Ht in *.
  destruct t; [reflexivity | cbn [List.length] in Hone; lia].
Qed.

Lemma closing_the_open_week db w st :
  st <> open -> open_weeks db = [w] ->
  filter (prisma.is_status open)
         (update_where (fun x => week_id x =? week_id w)
                       (prisma.set_week_status st) (weeks db)) = [].
Proof.
  intros Hst Hsole. apply filter_none. intros x Hx.
  apply update_where_origin in Hx.
  destruct Hx as (y & Hy & [[Hid ->]|[_ ->]]).
  - destruct (prisma.is_status open y) eqn:Hopen; [|reflexivity].
    assert (Hin : In y (open_weeks db)) by (apply filter_In; split; assumption).
    rewrite Hsole in Hin. destruct Hin as [<-|[]].
    rewrite Z.eqb_refl in Hid. discriminate.
  - destruct st; [contradiction | reflexivity | reflexivity].
Qed.

(** The close of an open week, after its first write: the rest depends
    on whether there is a compilation to hand over and on what the
    transport says to it. *)
Lemma closeWeekAndCompile_open env now db w :
  prisma.week_findFirst open db = Some w ->
  let subs := prisma.week_submissions (week_id w) db in
  let who := WeeklyAutomation.participants subs db in
  let id_is := fun x => week_id x =? week_id w in
  let closed_weeks := update_where id_is (prisma.set_week_status closed) (weeks db) in
  let out := WeeklyAutomation.closeWeekAndCompile env now db in
  if (length_Z subs =? 0) || compilation_taken env db w
  then fst out = Success (mkCompileResult (weekNumber w) (length_Z subs)
                                          (Some (length_Z who)))
       /\ weeks (snd out)
          = update_where id_is (prisma.set_week_status compiled) closed_weeks
  else fst out = Thrown
       /\ weeks (snd out) = closed_weeks
       /\ streaks (snd out) = streaks db.
Proof.
  intros Hopen subs who id_is closed_weeks out. subst out.
  destruct (findFirst_findUnique _ _ Hopen) as [w' Hid].
  unfold WeeklyAutomation.closeWeekAndCompile, bind, reads.
  rewrite Hopen. fold subs. fold who.
  rewrite (week_update_found _ closed _ Hid).
  set (d1 := with_journal _ (with_weeks _ db)).
  assert (Hid1 : forall j, prisma.week_findUnique (week_id w) (with_journal j d1)
                           = Some (prisma.set_week_status closed w')).
  { intros j. unfold prisma.week_findUnique in *. subst d1.
    cbn [weeks with_journal with_weeks].
    apply find_update_where_same; [|exact Hid]. intros y Hy. exact Hy. }
  destruct (length_Z subs =? 0) eqn:Hlen; cbn [orb].
  - pose proof (Hid1 (journal d1)) as Hsame.
    replace (with_journal (journal d1) d1) with d1 in Hsame by reflexivity.
    rewrite (week_update_found _ compiled _ Hsame).
    apply Z.eqb_eq in Hlen. cbn [fst snd ret weeks with_journal with_weeks].
    split; [|reflexivity].
    assert (Hsubs : subs = []).
    { destruct subs; [reflexivity|]. unfold length_Z in Hlen.
      cbn [List.length] in Hlen. lia. }
    subst who. rewrite Hsubs. reflexivity.
  - unfold sgMail_send, compilation_taken. fold subs. fold who.
    change (journal d1) with (journal db ++ [WeekWrite (week_id w) closed]).
    destruct (transport env (journal db ++ [WeekWrite (week_id w) closed])
                (WeeklyCompilation who (weekNumber w))); cbn [negb].
    + rewrite (week_update_found _ compiled _ (Hid1 _)).
      match goal with
      | |- context [WeeklyAutomation.updateAllUserStreaks ?e ?n ?s ?t ?d] =>
          pose proof (updateAllUserStreaks_weeks e n s t d) as Hweeks;
          destruct (WeeklyAutomation.updateAllUserStreaks e n s t d) as [[] d4]
      end.
      cbn [fst snd ret] in *. split; [reflexivity|].
      rewrite Hweeks. reflexivity.
    + cbn [fst snd ret]. repeat split.
Qed.

(** X11. Closing ends the week: from a store with at most one open week,
    [closeWeekAndCompile] leaves no week open, whatever the transport
    does.  If a week was open and it has no submission, or the transport
    takes the compilation, the answer is success with that week's number
    and its number of submissions, and the week is stored as compiled;
    if the transport refuses the compilation the close throws and the
    week is stored as closed.  Either way, closing again answers "No
    open week" and writes nothing, and [startNewWeek] is no longer
    refused with "Week already open". *)
Theorem close_ends_the_week env now db :
  at_most_one_open db ->
  let out := WeeklyAutomation.closeWeekAndCompile env now db in
  open_weeks (snd out) = []
  /\ (forall w,
         prisma.week_findFirst open db = Some w ->
         let subs := prisma.week_submissions (week_id w) db in
         (subs = [] \/ compilation_taken env db w = true ->
          exists emails,
            fst out = Success (mkCompileResult (weekNumber w) (length_Z subs) emails)
            /\ option_map week_status (prisma.week_findUnique (week_id w) (snd out))
               = Some compiled)
         /\ (subs <> [] -> compilation_taken env db w = false ->
             fst out = Thrown
             /\ option_map week_status (prisma.week_findUnique (week_id w) (snd out))
                = Some closed))
  /\ (forall now2,
         WeeklyAutomation.closeWeekAndCompile env now2 (snd out)
         = (Failure "No open week", snd out))
  /\ (forall moment,
         fst (WeeklyAutomation.startNewWeek env moment (snd out))
         <> Failure "Week already open").
Proof.
  intros Hone out.
  assert (Hclosed : forall w,
             prisma.week_findFirst open db = Some w ->
             filter (prisma.is_status open)
                    (update_where (fun x => week_id x =? week_id w)
                                  (prisma.set_week_status closed) (weeks db)) = []).
  { intros w Hopen.
    apply (@closing_the_open_week db w closed ltac:(discriminate)
             (sole_open_week Hone Hopen)). }
  assert (Hnone : open_weeks (snd out) = []).
  { subst out. destruct (prisma.week_findFirst open db) as [w|] eqn:Hopen.
    - pose proof (closeWeekAndCompile_open env now _ Hopen) as Hrun.
      cbv zeta in Hrun. unfold open_weeks.
      destruct (_ || _).
      + destruct Hrun as [_ Hweeks]. rewrite Hweeks.
        pose proof (@filter_open_update_where
                      (fun x => week_id x =? week_id w) compiled
                      (update_where (fun x => week_id x =? week_id w)
                                    (prisma.set_week_status closed) (weeks db))
                      ltac:(discriminate)) as Hle.
        rewrite (Hclosed w eq_refl) in Hle.
        destruct (filter _ _); [reflexivity | cbn [List.length] in Hle; lia].
      + destruct Hrun as (_ & Hweeks & _). rewrite Hweeks.
        apply (Hclosed w eq_refl).
    - unfold WeeklyAutomation.closeWeekAndCompile, bind, reads. rewrite Hopen.
      apply findFirst_None_no_open, Hopen. }
  assert (Hfirst : prisma.week_findFirst open (snd out) = None).
  { unfold prisma.week_findFirst. unfold open_weeks in Hnone.
    destruct (find _ _) as [x|] eqn:Hx; [|reflexivity].
    apply find_filter_head in Hx. destruct Hx as [t Ht].
    rewrite Ht in Hnone. discriminate. }
  split; [exact Hnone|]. split; [|split].
  - intros w Hopen subs.
    pose proof (closeWeekAndCompile_open env now _ Hopen) as Hrun.
    cbv zeta in Hrun. fold out in Hrun. fold subs in Hrun.
    destruct (findFirst_findUnique _ _ Hopen) as [w' Hid].
    assert (Hstored : prisma.week_findUnique (week_id w)
                        (with_weeks
                           (update_where (fun x => week_id x =? week_id w)
                                         (prisma.set_week_status closed) (weeks db))
                           db)
                      = Some (prisma.set_week_status closed w')).
    { unfold prisma.week_findUnique in *. cbn [weeks with_weeks].
      apply find_update_where_same; [auto | exact Hid]. }
    split.
    + intros Hgoes.
      assert (Hcase : (length_Z subs =? 0) || compilation_taken env db w = true).
      { destruct Hgoes as [Hempty|Htaken];
          [rewrite Hempty; reflexivity | rewrite Htaken; apply orb_true_r]. }
      rewrite Hcase in Hrun. destruct Hrun as [Hres Hweeks].
      eexists. split; [exact Hres|].
      unfold prisma.week_findUnique in *. rewrite Hweeks.
      rewrite (@find_update_where_same _ (fun x => week_id x =? week_id w)
                 (prisma.set_week_status compiled) _
                 (prisma.set_week_status closed w')); [reflexivity | auto |].
      exact Hstored.
    + intros Hsome Hrefused.
      rewrite (length_Z_nonempty Hsome), Hrefused in Hrun. cbn [orb] in Hrun.
      destruct Hrun as (Hres & Hweeks & _).
      split; [exact Hres|].
      unfold prisma.week_findUnique in *. rewrite Hweeks.
      cbn [weeks with_weeks] in Hstored. rewrite Hstored. reflexivity.
  - intros now2. unfold WeeklyAutomation.closeWeekAndCompile, bind, reads.
    rewrite Hfirst. reflexivity.
  - intros moment. unfold WeeklyAutomation.startNewWeek, bind, reads.
    rewrite Hfirst.
    destruct (prisma.week_create _ _ _ _ _ _) as [[new|] d1]; [|discriminate].
    destruct (_ =? 0); [discriminate|].
    destruct (sendWeeklyPrompt _ _ _ _) as [emailsSent d2].
    cbn [fst ret]. discriminate.
Qed.

Lemma close_ends_the_week_witness :
  let out := WeeklyAutomation.closeWeekAndCompile default_env 9
               Scenario.week_with_reply in
  let halted := WeeklyAutomation.closeWeekAndCompile Scenario.transport_down 9
                  Scenario.week_with_reply in
  open_weeks (snd out) = []
  /\ fst out = Success (mkCompileResult 202401 1 (Some 1))
  /\ open_weeks (snd halted) = []
  /\ fst halted = Thrown
  /\ option_map week_status (prisma.week_findUnique 1 (snd halted)) = Some closed.
Proof.
  intros out halted.
  destruct (@close_ends_the_week default_env 9 Scenario.week_with_reply)
    as (Hnone & _); [unfold at_most_one_open; vm_compute; lia|].
  destruct (@close_ends_the_week Scenario.transport_down 9 Scenario.week_with_reply)
    as (Hnone' & Hopen & _); [unfold at_most_one_open; vm_compute; lia|].
  destruct (Hopen (mkWeek 1 202401 64878710400000 64879034400000 open
                          64878710400000) eq_refl) as [_ Hrefused].
  destruct Hrefused as [Hres Hstatus];
    [vm_compute; discriminate | reflexivity |].
  split; [exact Hnone|]. split; [reflexivity|]. split; [exact Hnone'|].
  split; [exact Hres | exact Hstatus].
Defined.

(** X12. Compiling a week by id never touches a streak row, a member, a
    submission or an invitation, also when the week is the open one (the
    close, by contrast, updates streaks).  An unknown id and a week
    already compiled are refused with the store untouched.  Any other
    week, if it has no submission or the transport takes its
    compilation, is answered with its number and submission count and is
    stored as compiled, so that compiling it again is refused as "Week
    already compiled"; if the transport refuses the compilation the call
    throws and the week is left as it was. *)
Theorem manualCompileWeek_by_id env id now db :
  id <> 0 ->
  let out := WeeklyAutomation.manualCompileWeek env (Some id) now db in
  (streaks (snd out) = streaks db /\ users (snd out) = users db
   /\ submissions (snd out) = submissions db /\ invites (snd out) = invites db)
  /\ (prisma.week_findUnique id db = None -> out = (Failure "Week not found", db))
  /\ (forall wk,
         prisma.week_findUnique id db = Some wk -> week_status wk = compiled ->
         out = (Failure "Week already compiled", db))
  /\ (forall wk,
         prisma.week_findUnique id db = Some wk -> week_status wk <> compiled ->
         let subs := prisma.week_submissions id db in
         let compilation :=
           WeeklyCompilation (WeeklyAutomation.participants subs db) (weekNumber wk) in
         (subs = [] \/ transport env (journal db) compilation = true ->
          fst out = Success (mkCompileResult (weekNumber wk) (length_Z subs) None)
          /\ option_map week_status (prisma.week_findUnique id (snd out))
             = Some compiled
          /\ forall now2,
               WeeklyAutomation.manualCompileWeek env (Some id) now2 (snd out)
               = (Failure "Week already compiled", snd out))
         /\ (subs <> [] -> transport env (journal db) compilation = false ->
             fst out = Thrown /\ weeks (snd out) = weeks db)).
Proof.
  intros Hid out.
  assert (Hrun : forall now' d,
             WeeklyAutomation.manualCompileWeek env (Some id) now' d
             = (found <- reads (prisma.week_findUnique id) ;;
                match found with
                | None => ret (Failure "Week not found")
                | Some wk =>
                    if WeekStatus_eqb (week_status wk) compiled
                    then ret (Failure "Week already compiled")
                    else
                      subs <- reads (prisma.week_submissions id) ;;
                      who <- reads (WeeklyAutomation.participants subs) ;;
                      compilationSent <-
                        (if length_Z subs >? 0
                         then sgMail_send env (WeeklyCompilation who (weekNumber wk))
                         else ret true) ;;
                      if negb compilationSent then ret Thrown
                      else
                        _ <- prisma.week_update id compiled ;;
                        ret (Success (mkCompileResult (weekNumber wk)
                                        (length_Z subs) None))
                end) d).
  { intros now' d. unfold WeeklyAutomation.manualCompileWeek. cbn [falsy].
    destruct (Z.eqb_spec id 0) as [|_]; [contradiction | reflexivity]. }
  destruct (prisma.week_findUnique id db) as [wk|] eqn:Hwk.
  2:{ assert (Hout : out = (Failure "Week not found", db)).
      { subst out. rewrite Hrun. unfold bind, reads. rewrite Hwk. reflexivity. }
      rewrite Hout. cbn [snd fst]. split; [repeat split|]. split; [reflexivity|].
      split; intros; discriminate. }
  destruct (WeekStatus_eqb (week_status wk) compiled) eqn:Hst.
  { assert (Hout : out = (Failure "Week already compiled", db)).
    { subst out. rewrite Hrun. unfold bind, reads. rewrite Hwk, Hst. reflexivity. }
    rewrite Hout. cbn [snd fst]. split; [repeat split|]. split; [discriminate|].
    split; [reflexivity|].
    intros wk' [= <-] Hnot. destruct (week_status wk); try discriminate.
    contradiction. }
  set (subs := prisma.week_submissions id db).
  set (compilation := WeeklyCompilation (WeeklyAutomation.participants subs db)
                                        (weekNumber wk)).
  set (compiled_weeks := update_where (fun w => week_id w =? id)
                                      (prisma.set_week_status compiled) (weeks db)).
  assert (Hdone : forall j,
             out = (Success (mkCompileResult (weekNumber wk) (length_Z subs) None),
                    with_journal j (with_weeks compiled_weeks db)) ->
             fst out = Success (mkCompileResult (weekNumber wk) (length_Z subs) None)
             /\ option_map week_status (prisma.week_findUnique id (snd out))
                = Some compiled
             /\ forall now2,
                  WeeklyAutomation.manualCompileWeek env (Some id) now2 (snd out)
                  = (Failure "Week already compiled", snd out)).
  { intros j Hout. rewrite Hout. cbn [fst snd].
    assert (Hfound : prisma.week_findUnique id
                       (with_journal j (with_weeks compiled_weeks db))
                     = Some (prisma.set_week_status compiled wk)).
    { unfold prisma.week_findUnique in *. cbn [weeks with_journal with_weeks].
      apply find_update_where_same; [auto | exact Hwk]. }
    split; [reflexivity|]. split.
    - rewrite Hfound. reflexivity.
    - intros now2. rewrite Hrun. unfold bind, reads. rewrite Hfound. reflexivity. }
  assert (Hcases :
            (exists j,
                out = (Success (mkCompileResult (weekNumber wk) (length_Z subs) None),
                       with_journal j (with_weeks compiled_weeks db))
                /\ (subs = [] \/ transport env (journal db) compilation = true))
            \/ (out = (Thrown, with_journal (journal db ++ [Sent compilation]) db)
                /\ subs <> []
                /\ transport env (journal db) compilation = false)).
  { subst out. rewrite Hrun. unfold bind, reads. rewrite Hwk, Hst.
    fold subs. fold compilation.
    destruct subs as [|s0 rest] eqn:Hsubs.
    - left. cbn [length_Z List.length Z.of_nat Z.gtb Z.compare ret negb].
      unfold prisma.week_update. rewrite Hwk.
      eexists. split; [reflexivity | left; reflexivity].
    - replace (length_Z (s0 :: rest) >? 0) with true
        by (symmetry; apply Z.gtb_lt; unfold length_Z; cbn [List.length]; lia).
      unfold sgMail_send.
      destruct (transport env (journal db) compilation) eqn:Hmail; cbn [negb].
      + left. unfold prisma.week_update, prisma.week_findUnique in *.
        cbn [weeks with_journal]. rewrite Hwk.
        eexists. split; [reflexivity | right; reflexivity].
      + right. split; [reflexivity|]. split; [discriminate | reflexivity]. }
  split.
  { destruct Hcases as [(j & Hout & _)|(Hout & _)]; rewrite Hout;
      cbn [snd]; repeat split. }
  split; [discriminate|].
  split; [intros wk' [= <-] Hdone'; rewrite Hdone' in Hst; discriminate|].
  intros wk' [= <-] _. cbv zeta. fold subs. fold compilation. split.
  - intros Hgoes.
    destruct Hcases as [(j & Hout & _)|(_ & Hsome & Hrefused)];
      [apply (Hdone j Hout)|].
    destruct Hgoes as [Hempty|Htaken]; [contradiction|].
    rewrite Htaken in Hrefused. discriminate Hrefused.
  - intros Hsome Hrefused.
    destruct Hcases as [(j & _ & [Hempty|Htaken])|(Hout & _)].
    + contradiction.
    + rewrite Htaken in Hrefused. discriminate Hrefused.
    + rewrite Hout. split; reflexivity.
Qed.

Lemma manualCompileWeek_by_id_witness :
  let out := WeeklyAutomation.manualCompileWeek default_env (Some 1) 9
               Scenario.week_with_reply in
  let halted := WeeklyAutomation.manualCompileWeek Scenario.transport_down (Some 1) 9
                  Scenario.week_with_reply in
  fst out = Success (mkCompileResult 202401 1 None)
  /\ streaks (snd out) = streaks Scenario.week_with_reply
  /\ WeeklyAutomation.manualCompileWeek default_env (Some 1) 10 (snd out)
     = (Failure "Week already compiled", snd out)
  /\ fst halted = Thrown
  /\ weeks (snd halted) = weeks Scenario.week_with_reply.
Proof.
  intros out halted.
  destruct (@manualCompileWeek_by_id default_env 1 9 Scenario.week_with_reply)
    as ((Hstreaks & _) & _ & _ & Hdone); [discriminate|].
  destruct (Hdone (mkWeek 1 202401 (instant (Scenario.at_week 2024 1))
                          (sunday_at_hour (Scenario.at_week 2024 1) 18) open
                          (instant (Scenario.at_week 2024 1))))
    as [Hgoes _]; [reflexivity | discriminate |].
  destruct Hgoes as (Hres & _ & Hagain); [right; reflexivity|].
  destruct (@manualCompileWeek_by_id Scenario.transport_down 1 9
              Scenario.week_with_reply)
    as (_ & _ & _ & Hdown); [discriminate|].
  destruct (Hdown (mkWeek 1 202401 (instant (Scenario.at_week 2024 1))
                          (sunday_at_hour (Scenario.at_week 2024 1) 18) open
                          (instant (Scenario.at_week 2024 1))))
    as [_ Hhalts]; [reflexivity | discriminate |].
  destruct Hhalts as [Hthrown Hweeks]; [vm_compute; discriminate | reflexivity |].
  split; [exact Hres|]. split; [exact Hstreaks|]. split; [apply Hagain|].
  split; [exact Hthrown | exact Hweeks].
Defined.

(** ** What the close does to each member's streak *)

Lemma find_app_miss (A : Type) (p : A -> bool) (l : list A) (x : A) :
  p x = false -> find p (l ++ [x]) = find p l.
Proof.
  intros Hx. induction l as [|y rest IH]; cbn [find app].
  - rewrite Hx. reflexivity.
  - destruct (p y); [reflexivity | exact IH].
Qed.

Section CloseLoop.
Variable env : Env.
Variables (n now : Z) (subs : list Submission).

Let step (row : User * option UserStreak) : M unit :=
  WeeklyAutomation.updateUserStreak env (fst row) (snd row) n
    (existsb (Z.eqb (user_id (fst row))) (map userId subs)) now.

Let key (row : User * option UserStreak) : Z := user_id (fst row).

Lemma WA_updateUserStreak_other row id db :
  id <> key row ->
  prisma.userStreak_findUnique id (snd (step row db))
  = prisma.userStreak_findUnique id db.
Proof.
  intros Hid. unfold step, key, WeeklyAutomation.updateUserStreak, bind in *.
  destruct row as [user [st|]]; cbn [fst snd] in *.
  - cbv zeta. unfold prisma.userStreak_update.
    destruct (prisma.userStreak_findUnique (user_id user) db); [|reflexivity].
    cbn [andb].
    match goal with
    | |- context [if ?c then _ else _] => destruct c
    end; cbn [snd send emit ret]; unfold prisma.userStreak_findUnique;
      cbn [streaks with_journal with_streaks];
      (apply find_streak_update_where_other; [exact Hid | reflexivity]).
  - unfold prisma.userStreak_create. cbn [streak_userId].
    destruct (prisma.userStreak_findUnique (user_id user) db); [reflexivity|].
    cbn [snd ret]. unfold prisma.userStreak_findUnique.
    cbn [streaks with_journal with_streaks].
    apply find_app_miss. cbn [streak_userId]. apply Z.eqb_neq. congruence.
Qed.

(** What a member's row becomes depends on that member's row only. *)
Lemma WA_updateUserStreak_local row d d' :
  prisma.userStreak_findUnique (key row) d = prisma.userStreak_findUnique (key row) d' ->
  prisma.userStreak_findUnique (key row) (snd (step row d))
  = prisma.userStreak_findUnique (key row) (snd (step row d')).
Proof.
  unfold step, key, WeeklyAutomation.updateUserStreak, bind.
  destruct row as [user [st|]]; cbn [fst snd]; intros Hsame.
  - cbv zeta. set (row := mkStreak _ _ _ _ _ _).
    unfold prisma.userStreak_update.
    destruct (prisma.userStreak_findUnique (user_id user) d) as [x|] eqn:Hd;
      destruct (prisma.userStreak_findUnique (user_id user) d') as [x'|] eqn:Hd';
      try discriminate Hsame.
    + cbn [andb].
      assert (Hrow : forall l y,
                 find (fun s => streak_userId s =? user_id user) l = Some y ->
                 find (fun s => streak_userId s =? user_id user)
                      (update_where (fun s => streak_userId s =? user_id user)
                                    (fun _ => row) l) = Some row).
      { intros l y Hy.
        apply (@find_streak_update_where (user_id user) (fun _ => row) _ _ Hy).
        reflexivity. }
      match goal with
      | |- context [if ?c then _ else _] => destruct c
      end; cbn [snd send emit ret]; unfold prisma.userStreak_findUnique in *;
        cbn [streaks with_journal with_streaks];
        rewrite (Hrow _ _ Hd), (Hrow _ _ Hd'); reflexivity.
    + cbn [andb snd ret]. rewrite Hd, Hd'. reflexivity.
  - unfold prisma.userStreak_create. cbn [streak_userId].
    destruct (prisma.userStreak_findUnique (user_id user) d) as [x|] eqn:Hd;
      destruct (prisma.userStreak_findUnique (user_id user) d') as [x'|] eqn:Hd';
      try discriminate Hsame.
    + cbn [snd ret]. rewrite Hd, Hd'. exact Hsame.
    + cbn [snd ret]. unfold prisma.userStreak_findUnique in *.
      cbn [streaks with_journal with_streaks].
      rewrite !find_app_last; try assumption; try reflexivity;
        cbn [streak_userId]; apply Z.eqb_refl.
Qed.

(** The loop treats the members independently of one another. *)
Lemma streak_loop_independent rows : forall db,
  NoDup (map key rows) ->
  (forall row, In row rows ->
     prisma.userStreak_findUnique (key row) (snd (for_each rows step db))
     = prisma.userStreak_findUnique (key row) (snd (step row db)))
  /\ (forall id, ~ In id (map key rows) ->
        prisma.userStreak_findUnique id (snd (for_each rows step db))
        = prisma.userStreak_findUnique id db).
Proof.
  induction rows as [|r0 rest IH]; intros db Hkeys.
  - split; [intros row [] | intros; reflexivity].
  - cbn [map] in Hkeys. apply NoDup_cons_iff in Hkeys.
    destruct Hkeys as [Hnew Hrest].
    cbn [for_each]. unfold bind.
    destruct (step r0 db) as [[] d1] eqn:Hstep.
    assert (Hd1 : d1 = snd (step r0 db)) by (rewrite Hstep; reflexivity).
    destruct (IH d1 Hrest) as [Hthese Hothers].
    split.
    + intros row [<-|Hin].
      * rewrite (Hothers _ Hnew), Hd1. reflexivity.
      * rewrite (Hthese _ Hin). apply WA_updateUserStreak_local.
        rewrite Hd1. apply WA_updateUserStreak_other.
        intros Heq. apply Hnew. rewrite <- Heq. apply in_map, Hin.
    + intros id Hid. cbn [map In] in Hid.
      rewrite Hothers by tauto. rewrite Hd1.
      apply WA_updateUserStreak_other. intros Heq. apply Hid. left. congruence.
Qed.

(** One member, with the row as it was read. *)
Lemma WA_updateUserStreak_row user db :
  let found := prisma.userStreak_findUnique (user_id user) db in
  let submitted := existsb (Z.eqb (user_id user)) (map userId subs) in
  exists st',
    prisma.userStreak_findUnique (user_id user) (snd (step (user, found) db))
    = Some st'
    /\ match found with
       | None =>
           st' = mkStreak (user_id user)
                          (if submitted then 1 else 0) (if submitted then 1 else 0)
                          (if submitted then Some n else None) false None
       | Some st =>
           currentStreak st'
           = (if submitted
              then if WeeklyAutomation.isConsecutiveWeek (lastSubmissionWeek st) n
                   then currentStreak st + 1 else 1
              else 0)
           /\ longestStreak st' = Z.max (longestStreak st) (currentStreak st')
           /\ lastSubmissionWeek st'
              = (if submitted then Some n else lastSubmissionWeek st)
       end.
Proof.
  intros found submitted. subst found.
  unfold step, WeeklyAutomation.updateUserStreak, bind. cbn [fst snd].
  fold submitted.
  destruct (prisma.userStreak_findUnique (user_id user) db) as [st|] eqn:Hst.
  - cbv zeta. set (row := mkStreak _ _ _ _ _ _).
    unfold prisma.userStreak_update. rewrite Hst. cbn [andb].
    exists row.
    assert (Hfind : find (fun s => streak_userId s =? user_id user)
                         (update_where (fun s => streak_userId s =? user_id user)
                                       (fun _ => row) (streaks db))
                    = Some row).
    { apply (@find_streak_update_where (user_id user) (fun _ => row) _ _ Hst).
      reflexivity. }
    match goal with
    | |- context [if ?c then _ else _] => destruct c
    end; cbn [snd send emit ret]; unfold prisma.userStreak_findUnique;
      cbn [streaks with_journal with_streaks];
      (split; [exact Hfind | repeat split]).
  - unfold prisma.userStreak_create. cbn [streak_userId]. rewrite Hst.
    cbn [snd ret]. eexists. split; [|reflexivity].
    unfold prisma.userStreak_findUnique in *.
    cbn [streaks with_journal with_streaks].
    apply find_app_last; [exact Hst | cbn [streak_userId]; apply Z.eqb_refl].
Qed.

End CloseLoop.

(** The close whose compilation the transport takes, seen from one
    member's streak row: the row ends as one update of that member alone
    would leave it. *)
Lemma close_acts_member_by_member env now db w :
  prisma.week_findFirst open db = Some w ->
  prisma.week_submissions (week_id w) db <> [] ->
  NoDup (map user_id (users db)) ->
  compilation_taken env db w = true ->
  let db' := snd (WeeklyAutomation.closeWeekAndCompile env now db) in
  exists d3,
    streaks d3 = streaks db
    /\ (forall u,
           In u (users db) -> isActive u = true ->
           prisma.userStreak_findUnique (user_id u) db'
           = prisma.userStreak_findUnique (user_id u)
               (snd (WeeklyAutomation.updateUserStreak env u
                       (prisma.userStreak_findUnique (user_id u) db) (weekNumber w)
                       (existsb (Z.eqb (user_id u))
                                (map userId (prisma.week_submissions (week_id w) db)))
                       now d3)))
    /\ (forall id,
           ~ In id (map user_id (prisma.user_findMany_active db)) ->
           prisma.userStreak_findUnique id db' = prisma.userStreak_findUnique id db).
Proof.
  intros Hopen Hsubs Hids Htaken db'.
  destruct (findFirst_findUnique _ _ Hopen) as [w' Hid].
  set (subs := prisma.week_submissions (week_id w) db) in *.
  unfold compilation_taken in Htaken. fold subs in Htaken.
  set (d3 := with_journal
               (((journal db ++ [WeekWrite (week_id w) closed])
                 ++ [Sent (WeeklyCompilation (WeeklyAutomation.participants subs db)
                                             (weekNumber w))])
                ++ [WeekWrite (week_id w) compiled])
               (with_weeks
                  (update_where (fun x => week_id x =? week_id w)
                     (prisma.set_week_status compiled)
                     (update_where (fun x => week_id x =? week_id w)
                        (prisma.set_week_status closed) (weeks db))) db)).
  set (rows := map (WeeklyAutomation.with_streak db) (prisma.user_findMany_active db)).
  assert (Hdb' : forall id,
             prisma.userStreak_findUnique id db'
             = prisma.userStreak_findUnique id
                 (snd (for_each rows
                         (fun row =>
                            WeeklyAutomation.updateUserStreak env (fst row) (snd row)
                              (weekNumber w)
                              (existsb (Z.eqb (user_id (fst row))) (map userId subs))
                              now) d3))).
  { intros id. subst db'.
    unfold WeeklyAutomation.closeWeekAndCompile, bind, reads.
    rewrite Hopen. fold subs.
    rewrite (week_update_found _ closed _ Hid).
    rewrite (length_Z_nonempty Hsubs).
    unfold sgMail_send.
    set (d1 := with_journal _ (with_weeks _ db)).
    change (journal d1) with (journal db ++ [WeekWrite (week_id w) closed]).
    rewrite Htaken. cbn [negb].
    assert (Hid1 : forall j, prisma.week_findUnique (week_id w) (with_journal j d1)
                             = Some (prisma.set_week_status closed w')).
    { intros j. unfold prisma.week_findUnique in *. subst d1.
      cbn [weeks with_journal with_weeks].
      apply find_update_where_same; [|exact Hid]. intros y Hy. exact Hy. }
    rewrite (week_update_found _ compiled _ (Hid1 _)).
    unfold WeeklyAutomation.updateAllUserStreaks, bind, reads. cbv zeta.
    set (loop := for_each rows _ d3).
    match goal with
    | |- context [let (_, db') := ?m in _] => change m with loop
    end.
    destruct loop as [[] d4]. reflexivity. }
  assert (Hkeys : NoDup (map (fun row : User * option UserStreak => user_id (fst row))
                             rows)).
  { subst rows. rewrite map_map. cbn [fst WeeklyAutomation.with_streak].
    apply active_ids_distinct, Hids. }
  destruct (@streak_loop_independent env (weekNumber w) now subs rows d3 Hkeys)
    as [Hthese Hothers].
  exists d3. split; [reflexivity|]. split.
  - intros u Hu Hactive. rewrite Hdb'.
    assert (Hrow : In (WeeklyAutomation.with_streak db u) rows).
    { subst rows. apply in_map. apply filter_In. split; assumption. }
    specialize (Hthese _ Hrow). cbn [fst snd WeeklyAutomation.with_streak] in Hthese.
    exact Hthese.
  - intros id Hid'. rewrite Hdb'. rewrite Hothers; [reflexivity|].
    subst rows. rewrite map_map. exact Hid'.
Qed.

(** X13. The close settles every active member's streak from that
    member's own row, whatever the other members' rows (member ids being
    distinct and the week holding a submission), once the transport has
    taken the compilation.  A member who replied counts one more if the
    last reply was the week before, and 1 otherwise, with this week as
    the last; a member who did not reply is set to 0 and keeps the last
    week; the longest streak is the larger of the old one and the new
    count; a member without a row gets one.  Rows of anyone else are
    left as they are.  If the transport refuses the compilation no
    streak row is written at all. *)
Theorem close_settles_each_member env now db w :
  prisma.week_findFirst open db = Some w ->
  prisma.week_submissions (week_id w) db <> [] ->
  NoDup (map user_id (users db)) ->
  let db' := snd (WeeklyAutomation.closeWeekAndCompile env now db) in
  let submitted u :=
    existsb (Z.eqb (user_id u))
            (map userId (prisma.week_submissions (week_id w) db)) in
  if compilation_taken env db w
  then
    (forall u,
        In u (users db) -> isActive u = true ->
        exists st',
          prisma.userStreak_findUnique (user_id u) db' = Some st'
          /\ match prisma.userStreak_findUnique (user_id u) db with
             | None =>
                 st' = mkStreak (user_id u)
                                (if submitted u then 1 else 0)
                                (if submitted u then 1 else 0)
                                (if submitted u then Some (weekNumber w) else None)
                                false None
             | Some st =>
                 currentStreak st'
                 = (if submitted u
                    then if WeeklyAutomation.isConsecutiveWeek
                              (lastSubmissionWeek st) (weekNumber w)
                         then currentStreak st + 1 else 1
                    else 0)
                 /\ longestStreak st' = Z.max (longestStreak st) (currentStreak st')
                 /\ lastSubmissionWeek st'
                    = (if submitted u then Some (weekNumber w)
                       else lastSubmissionWeek st)
             end)
    /\ (forall id,
           ~ In id (map user_id (prisma.user_findMany_active db)) ->
           prisma.userStreak_findUnique id db' = prisma.userStreak_findUnique id db)
  else streaks db' = streaks db.
Proof.
  intros Hopen Hsubs Hids db' submitted.
  destruct (compilation_taken env db w) eqn:Htaken.
  - destruct (close_acts_member_by_member env now db Hopen Hsubs Hids Htaken)
      as (d3 & Hstreaks & Hthese & Hothers).
    fold db' in Hthese, Hothers.
    split; [|exact Hothers].
    intros u Hu Hactive. rewrite (Hthese u Hu Hactive).
    assert (Hsame : prisma.userStreak_findUnique (user_id u) d3
                    = prisma.userStreak_findUnique (user_id u) db)
      by (unfold prisma.userStreak_findUnique; rewrite Hstreaks; reflexivity).
    destruct (@WA_updateUserStreak_row env (weekNumber w) now
                (prisma.week_submissions (week_id w) db) u d3)
      as (st' & Hfound & Hshape).
    cbn [fst snd] in Hfound. rewrite Hsame in Hfound, Hshape.
    exists st'. split; [exact Hfound | exact Hshape].
  - pose proof (closeWeekAndCompile_open env now _ Hopen) as Hrun.
    cbv zeta in Hrun. rewrite (length_Z_nonempty Hsubs), Htaken in Hrun.
    cbn [orb] in Hrun. apply Hrun.
Qed.

Lemma close_settles_each_member_witness :
  let db' := snd (WeeklyAutomation.closeWeekAndCompile default_env 9
                    Scenario.week_with_bobs_reply) in
  exists ann' bob',
    prisma.userStreak_findUnique 1 db' = Some ann'
    /\ currentStreak ann' = 0
    /\ prisma.userStreak_findUnique 2 db' = Some bob'
    /\ currentStreak bob' = 1.
Proof.
  intros db'.
  pose proof (@close_settles_each_member default_env 9 Scenario.week_with_bobs_reply
                (mkWeek 1 202405 0 0 open 0) eq_refl ltac:(discriminate)
                ltac:(repeat constructor; cbn; intuition discriminate)) as Hclose.
  cbv zeta in Hclose.
  change (compilation_taken default_env Scenario.week_with_bobs_reply
            (mkWeek 1 202405 0 0 open 0)) with true in Hclose.
  destruct Hclose as [Hmembers _].
  destruct (Hmembers Scenario.ann) as (ann' & Hann & Hcount & _);
    [left; reflexivity | reflexivity |].
  destruct (Hmembers Scenario.bob) as (bob' & Hbob & Hrow);
    [right; left; reflexivity | reflexivity |].
  exists ann', bob'. split; [exact Hann|]. split; [exact Hcount|].
  split; [exact Hbob|]. cbn in Hrow. rewrite Hrow. reflexivity.
Defined.

(** ** Reminders *)

Lemma not_among_submitters uid wid db :
  negb (existsb (Z.eqb uid) (map userId (prisma.week_submissions wid db))) = true
  <-> prisma.submission_findUnique uid wid db = None.
Proof.
  unfold prisma.week_submissions, prisma.submission_findUnique.
  induction (submissions db) as [|s rest IH]; cbn [filter map existsb find].
  - split; reflexivity.
  - unfold prisma.is_pair at 1.
    destruct (Z.eqb_spec (weekId s) wid) as [Hw|Hw]; cbn [map existsb].
    + rewrite (Z.eqb_sym uid (userId s)).
      destruct (userId s =? uid); cbn [orb andb negb];
        [split; discriminate | exact IH].
    + rewrite andb_false_r. exact IH.
Qed.

(** X14. [sendReminders] writes nothing and hands nothing to the
    transport.  With no week open it answers "No active week", with the
    deadline more than 24 whole hours away "Too early for reminders".
    Otherwise (also when the deadline has passed) it builds one reminder
    per stored member who is active and has no submission in the open
    week, and no other, each naming the week and the hours left; with
    nobody to remind it answers success with 0, and with anybody to
    remind it throws, for it reaches for a transport that [EmailService]
    does not expose.  So it never answers success with a reminder
    sent. *)
Theorem sendReminders_recipients now db :
  let out := WeeklyAutomation.sendReminders now db in
  let batch := snd (fst out) in
  snd out = db
  /\ (prisma.week_findFirst open db = None ->
      fst out = (Failure "No active week", []))
  /\ (forall wk,
         prisma.week_findFirst open db = Some wk ->
         let hours := Z.quot (deadline wk - now) ms_per_hour in
         (hours > 24 -> fst out = (Failure "Too early for reminders", []))
         /\ (hours <= 24 ->
             batch
             = map (fun u => mkReminder (email u) (opt_or (firstName u) "Friend")
                                        (weekNumber wk) (deadline wk) hours)
                   (filter (fun u => isActive u
                                     && match prisma.submission_findUnique
                                                (user_id u) (week_id wk) db with
                                        | None => true
                                        | Some _ => false
                                        end)
                           (users db))
             /\ (batch = [] -> fst (fst out) = Success 0)
             /\ (batch <> [] -> fst (fst out) = Thrown)))
  /\ (forall n, fst (fst out) = Success n -> n = 0).
Proof.
  intros out batch. subst batch out.
  unfold WeeklyAutomation.sendReminders, bind, reads.
  destruct (prisma.week_findFirst open db) as [wk|].
  2:{ cbn [fst snd ret]. split; [reflexivity|]. split; [reflexivity|].
      split; intros; discriminate. }
  cbv zeta.
  set (hours := Z.quot (deadline wk - now) ms_per_hour).
  assert (Hfilter :
            filter (fun u => isActive u
                             && negb (existsb (Z.eqb (user_id u))
                                        (map userId
                                           (prisma.week_submissions (week_id wk) db))))
                   (users db)
            = filter (fun u => isActive u
                               && match prisma.submission_findUnique
                                          (user_id u) (week_id wk) db with
                                  | None => true
                                  | Some _ => false
                                  end)
                     (users db)).
  { apply filter_ext. intros u. f_equal.
    pose proof (not_among_submitters (user_id u) (week_id wk) db) as Hiff.
    destruct (prisma.submission_findUnique (user_id u) (week_id wk) db);
      destruct (negb _); try reflexivity.
    - destruct Hiff as [Hiff _]. discriminate (Hiff eq_refl).
    - destruct Hiff as [_ Hiff]. discriminate (Hiff eq_refl). }
  destruct (hours >? 24) eqn:Hlate.
  - cbn [fst snd ret]. split; [reflexivity|]. split; [discriminate|].
    split; [|intros n [=]].
    intros wk' [= <-]. split; [reflexivity|].
    apply Z.gtb_lt in Hlate. fold hours. lia.
  - rewrite Hfilter.
    set (due := filter _ (users db)).
    destruct (length_Z due =? 0) eqn:Hnone.
    + cbn [fst snd ret]. split; [reflexivity|]. split; [discriminate|].
      split; [|intros n [= <-]; reflexivity].
      intros wk' [= <-]. fold hours. split.
      { intros Hgt. rewrite Z.gtb_ltb in Hlate. apply Z.ltb_ge in Hlate. lia. }
      intros _. fold due.
      assert (Hdue : due = []).
      { apply Z.eqb_eq in Hnone. unfold length_Z in Hnone.
        destruct due; [reflexivity | cbn [List.length] in Hnone; lia]. }
      rewrite Hdue. split; [reflexivity|]. split; [reflexivity|].
      intros Hsome. contradiction Hsome. reflexivity.
    + cbn [fst snd ret]. split; [reflexivity|]. split; [discriminate|].
      split; [|intros n [=]].
      intros wk' [= <-]. fold hours. split.
      { intros Hgt. rewrite Z.gtb_ltb in Hlate. apply Z.ltb_ge in Hlate. lia. }
      intros _. fold due. split; [reflexivity|]. split; [|reflexivity].
      intros Hempty. apply map_eq_nil in Hempty. rewrite Hempty in Hnone.
      discriminate Hnone.
Qed.

Lemma sendReminders_recipients_witness :
  snd (fst (WeeklyAutomation.sendReminders 5 Scenario.week_with_bobs_reply))
  = [mkReminder "ann@example.com" "Ann" 202405 0 0]
  /\ fst (fst (WeeklyAutomation.sendReminders 5 Scenario.week_with_bobs_reply))
     = Thrown
  /\ journal (snd (WeeklyAutomation.sendReminders 5 Scenario.week_with_bobs_reply))
     = journal Scenario.week_with_bobs_reply.
Proof.
  destruct (sendReminders_recipients 5 Scenario.week_with_bobs_reply)
    as (Hsame & _ & Hopen & _).
  destruct (Hopen (mkWeek 1 202405 0 0 open 0) eq_refl) as [_ Hdue].
  destruct Hdue as (Hbatch & _ & Hthrows); [vm_compute; discriminate|].
  split; [exact Hbatch|]. split.
  - apply Hthrows. rewrite Hbatch. discriminate.
  - rewrite Hsame. reflexivity.
Defined.

(** Whoever is reminded is an active member without a submission in the
    open week. *)
Lemma reminded_has_not_submitted now db r :
  In r (snd (fst (WeeklyAutomation.sendReminders now db))) ->
  exists wk u,
    prisma.week_findFirst open db = Some wk
    /\ In u (users db) /\ isActive u = true
    /\ prisma.submission_findUnique (user_id u) (week_id wk) db = None
    /\ reminder_to r = email u.
Proof.
  unfold WeeklyAutomation.sendReminders, bind, reads.
  destruct (prisma.week_findFirst open db) as [wk|]; [|intros []].
  cbv zeta. destruct (_ >? 24); [intros []|].
  destruct (length_Z _ =? 0); [intros []|].
  cbn [fst snd ret]. intros Hr. apply in_map_iff in Hr.
  destruct Hr as (u & <- & Hu). apply filter_In in Hu. destruct Hu as [Hu Hdue].
  apply andb_prop in Hdue. destruct Hdue as [Hactive Hnot].
  exists wk, u. repeat split; try assumption.
  apply not_among_submitters, Hnot.
Qed.

Lemma findFirst_desc_sole db :
  at_most_one_open db ->
  prisma.week_findFirst_desc open db = prisma.week_findFirst open db.
Proof.
  intros Hone. destruct (prisma.week_findFirst open db) as [w|] eqn:Hopen.
  - pose proof (sole_open_week Hone Hopen) as Hsole.
    unfold prisma.week_findFirst_desc. unfold open_weeks in Hsole.
    rewrite Hsole. reflexivity.
  - pose proof (findFirst_None_no_open _ Hopen) as Hnone.
    unfold prisma.week_findFirst_desc. unfold open_weeks in Hnone.
    rewrite Hnone. reflexivity.
Qed.

Lemma found_by_email_unique (l : list User) e u v :
  NoDup (map email l) ->
  find (fun x => String.eqb (email x) e) l = Some u ->
  In v l -> email v = e -> v = u.
Proof.
  intros Hemails Hfound Hv He. apply find_some in Hfound.
  destruct Hfound as [Hu Heq]. apply String.eqb_eq in Heq.
  revert Hemails Hu Hv. induction l as [|x rest IH]; [contradiction|].
  cbn [map]. intros Hnd. apply NoDup_cons_iff in Hnd. destruct Hnd as [Hnew Hrest].
  intros [->|Hu] [->|Hv].
  - reflexivity.
  - exfalso. apply Hnew. rewrite Heq, <- He. apply in_map, Hv.
  - exfalso. apply Hnew. rewrite He, <- Heq. apply in_map, Hu.
  - apply IH; assumption.
Qed.

(** X15. A member whose reply was accepted is not reminded: in a store
    with at most one open week and distinct member addresses, after
    [processInboundEmail] has answered success no later [sendReminders]
    batch holds a reminder to the sender's address, for as long as the
    submissions, members and weeks stay as the intake left them. *)
Theorem accepted_reply_stops_reminders (T : TextParsing) env p now db sid db1
    sender now2 :
  EmailProcessor.processInboundEmail env p now db = (Success sid, db1) ->
  at_most_one_open db ->
  NoDup (map email (users db)) ->
  extractEmail (from p) = Some sender ->
  ~ In sender (map reminder_to
                   (snd (fst (WeeklyAutomation.sendReminders now2 db1)))).
Proof.
  intros Hrun Hone Hemails Hsender Hreminded.
  destruct (@processInboundEmail_accepted _ _ _ _ _ _ _ Hrun)
    as (sender' & user & wk & row & Hsender' & Huser & _ & Hweek & Hnone
        & _ & Hrow_user & Hrow_week & Hsubs & Husers & Hweeks).
  rewrite Hsender in Hsender'. injection Hsender' as <-.
  rewrite (findFirst_desc_sole Hone) in Hweek.
  assert (Hweek1 : prisma.week_findFirst open db1 = Some wk).
  { unfold prisma.week_findFirst in *. rewrite Hweeks. exact Hweek. }
  assert (Hfound : prisma.submission_findUnique (user_id user) (week_id wk) db1
                   = Some row).
  { unfold prisma.submission_findUnique in *. rewrite Hsubs.
    apply find_app_last; [exact Hnone|].
    unfold prisma.is_pair. rewrite Hrow_user, Hrow_week, !Z.eqb_refl. reflexivity. }
  apply in_map_iff in Hreminded. destruct Hreminded as (r & Hto & Hr).
  apply reminded_has_not_submitted in Hr.
  destruct Hr as (wk' & u & Hweek' & Hu & _ & Hnot & Hemail).
  rewrite Hweek1 in Hweek'. injection Hweek' as <-.
  rewrite Husers in Hu.
  assert (u = user).
  { apply (@found_by_email_unique (users db) sender user u Hemails);
      [exact Huser | exact Hu | congruence]. }
  subst u. rewrite Hfound in Hnot. discriminate.
Qed.

Lemma accepted_reply_stops_reminders_witness :
  let db := snd (WeeklyAutomation.startNewWeek default_env (Scenario.at_week 2024 1)
                   Scenario.members_only) in
  let first := EmailProcessor.processInboundEmail (T := Scenario.text_of_scenarios)
                 default_env Scenario.ann_submits 1 db in
  fst first = Success 1
  /\ ~ In "ann@example.com"
          (map reminder_to
               (snd (fst (WeeklyAutomation.sendReminders
                            (instant (Scenario.at_week 2024 1) + 3 * day_ms)
                            (snd first))))).
Proof.
  intros db first. split; [reflexivity|].
  apply (@accepted_reply_stops_reminders Scenario.text_of_scenarios default_env
           Scenario.ann_submits 1 db 1 (snd first)).
  - reflexivity.
  - unfold at_most_one_open. vm_compute. lia.
  - repeat constructor. intros [].
  - reflexivity.
Defined.

(** ** Guards and administration *)

Lemma substring_whole (s : string) (n : nat) :
  (String.length s <= n)%nat -> substring 0 n s = s.
Proof.
  revert n. induction s as [|c rest IH]; intros n Hn.
  - destruct n; reflexivity.
  - destruct n as [|n]; cbn [String.length] in Hn; [lia|].
    cbn [substring]. rewrite IH; [reflexivity | lia].
Qed.

Lemma first_piece_stops (a b : string) :
  has_comma a = false ->
  WebhookGuard.first_piece (a ++ String "," b)%string = a.
Proof.
  induction a as [|c rest IH]; cbn [has_comma append WebhookGuard.first_piece].
  - intros _. reflexivity.
  - intros Hc. apply orb_false_iff in Hc. destruct Hc as [Hc Hrest].
    rewrite Hc, (IH Hrest). reflexivity.
Qed.

Lemma first_piece_whole (a : string) :
  has_comma a = false -> WebhookGuard.first_piece a = a.
Proof.
  induction a as [|c rest IH]; cbn [has_comma WebhookGuard.first_piece].
  - intros _. reflexivity.
  - intros Hc. apply orb_false_iff in Hc. destruct Hc as [Hc Hrest].
    rewrite Hc, (IH Hrest). reflexivity.
Qed.

Lemma remove_version_prefix (mac : string) :
  WebhookGuard.remove_first "v1=" ("v1=" ++ mac)%string = mac.
Proof.
  cbn. replace (String.prefix "" mac) with true by (destruct mac; reflexivity).
  apply substring_whole. lia.
Qed.

(** X16. The webhook guard.  A request needs both signature headers.
    With [SENDGRID_WEBHOOK_SECRET] unset or empty every request that has
    them passes, whatever they hold.  With a secret, a request whose
    signature header is [v1=] followed by the HMAC of timestamp and body
    passes, also when further comma-separated pieces follow; and a
    request passes only if the first piece, with its first [v1=] removed,
    is that HMAC. *)
Theorem verifyWebhookSignature_guards
    (hmac : string -> string -> string) sig ts body secret :
  let verify := WebhookGuard.verifyWebhookSignature hmac in
  (missing sig || missing ts = true ->
   forall key, verify sig ts body key = Refuse 401 "Missing signature headers")
  /\ (missing sig || missing ts = false ->
      verify sig ts body None = Next /\ verify sig ts body (Some "") = Next)
  /\ (secret <> "" -> missing ts = false ->
      forall t, ts = Some t ->
        let mac := hmac secret (t ++ body)%string in
        has_comma mac = false ->
        verify (Some ("v1=" ++ mac)%string) ts body (Some secret) = Next
        /\ (forall more,
               verify (Some ("v1=" ++ mac ++ String "," more)%string) ts body (Some secret)
               = Next)
        /\ (forall s,
               verify (Some s) ts body (Some secret) = Next ->
               WebhookGuard.remove_first "v1=" (WebhookGuard.first_piece s) = mac)).
Proof.
  intros verify. subst verify. unfold WebhookGuard.verifyWebhookSignature, missing.
  split; [|split].
  - intros Hmissing key.
    destruct sig as [s|], ts as [t|]; try reflexivity.
    rewrite Hmissing. reflexivity.
  - intros Hboth. destruct sig as [s|], ts as [t|]; try discriminate;
      [|destruct (String.eqb s ""); discriminate].
    rewrite Hboth. split; reflexivity.
  - intros Hsecret Hts t Heq. subst ts. intros Hpieces.
    set (mac := hmac secret (t ++ body)%string) in *.
    assert (Hkey : String.eqb secret "" = false) by (apply String.eqb_neq, Hsecret).
    assert (Hsigned : has_comma ("v1=" ++ mac)%string = false)
      by (cbn; exact Hpieces).
    rewrite Hts, Hkey, !orb_false_r.
    split; [|split].
    + replace (("v1=" ++ mac)%string =? "")%string with false by reflexivity.
      rewrite (first_piece_whole _ Hsigned).
      rewrite remove_version_prefix, String.eqb_refl. reflexivity.
    + intros more.
      replace (("v1=" ++ mac ++ String "," more)%string =? "")%string
        with false by reflexivity.
      replace ("v1=" ++ mac ++ String "," more)%string
        with (("v1=" ++ mac) ++ String "," more)%string by reflexivity.
      rewrite (first_piece_stops _ _ Hsigned).
      rewrite remove_version_prefix, String.eqb_refl. reflexivity.
    + intros s.
      destruct (String.eqb s ""); [discriminate|].
      destruct (String.eqb_spec mac
                  (WebhookGuard.remove_first "v1=" (WebhookGuard.first_piece s)))
        as [->|_]; [reflexivity | discriminate].
Qed.

Lemma verifyWebhookSignature_guards_witness :
  let hmac := fun key data : string => ("mac-of-" ++ data)%string in
  WebhookGuard.verifyWebhookSignature hmac (Some "v1=mac-of-1700{},v0=old")
    (Some "1700") "{}" (Some "s3cret") = Next
  /\ WebhookGuard.verifyWebhookSignature hmac (Some "v1=forged")
       (Some "1700") "{}" (Some "s3cret") = Refuse 401 "Invalid signature".
Proof.
  intros hmac.
  destruct (@verifyWebhookSignature_guards hmac (Some "x") (Some "1700") "{}"
              "s3cret") as (_ & _ & Hsigned).
  destruct (Hsigned ltac:(discriminate) eq_refl "1700" eq_refl eq_refl)
    as (_ & Hmore & _).
  split; [exact (Hmore "v0=old") | reflexivity].
Defined.

Lemma find_update_where_test (A : Type) (q p : A -> bool) (f : A -> A)
    (l : list A) (x : A) :
  (forall y, q (f y) = q y) ->
  find q l = Some x ->
  find q (update_where p f l) = Some (if p x then f x else x).
Proof.
  intros Hq. induction l as [|y rest IH]; cbn [find update_where map];
    [discriminate|].
  fold (update_where p f rest).
  destruct (q y) eqn:Hy.
  - intros [= ->]. destruct (p x); [rewrite Hq|]; rewrite Hy; reflexivity.
  - intros Hrest. destruct (p y); [rewrite Hq|]; rewrite Hy; apply IH, Hrest.
Qed.

Lemma update_where_twice (A : Type) (p : A -> bool) (f g : A -> A) (l : list A) :
  (forall x, p x = true -> p (g x) = true) ->
  (forall x, In x l -> p x = true -> f (g x) = x) ->
  update_where p f (update_where p g l) = l.
Proof.
  intros Hp Hback. induction l as [|x rest IH]; cbn [update_where map];
    [reflexivity|].
  fold (update_where p g rest). fold (update_where p f (update_where p g rest)).
  rewrite IH by (intros y Hy; apply Hback; right; exact Hy).
  destruct (p x) eqn:Hx.
  - rewrite (Hp _ Hx), (Hback x (or_introl eq_refl) Hx). reflexivity.
  - rewrite Hx. reflexivity.
Qed.

(** X17. [DELETE /users/:id] is a soft delete that takes effect
    everywhere.  For a stored member it answers "User deactivated" and
    keeps every row: ids, addresses, streak rows, submissions and
    invitations are as before.  From then on the member's replies are
    turned down as "Unknown user" without a submission being stored,
    invitations in the member's name fail as "User not found or
    inactive", and the member is not among the active members that
    prompts, closes and sweeps go through.  Reactivating through
    [PATCH /users/:id] restores the member table when the rows with that
    id were active before. *)
Theorem deactivated_member_is_turned_down (T : TextParsing) env id db sender u :
  prisma.user_findUnique_email sender db = Some u ->
  user_id u = id ->
  let out := Admin.deleteUser id db in
  fst out = Json "User deactivated"
  /\ (map user_id (users (snd out)) = map user_id (users db)
      /\ map email (users (snd out)) = map email (users db)
      /\ streaks (snd out) = streaks db
      /\ submissions (snd out) = submissions db
      /\ invites (snd out) = invites db
      /\ weeks (snd out) = weeks db)
  /\ (forall p now,
         extractEmail (from p) = Some sender ->
         let reply := EmailProcessor.processInboundEmail env p now (snd out) in
         fst reply = Failure "Unknown user"
         /\ submissions (snd reply) = submissions db)
  /\ (forall invitee now token,
         InvitationService.sendInvitation env id invitee now token (snd out)
         = (Failure "User not found or inactive", snd out))
  /\ (forall v, In v (prisma.user_findMany_active (snd out)) -> user_id v <> id)
  /\ ((forall x, In x (users db) -> user_id x = id -> isActive x = true) ->
      users (snd (Admin.patchUser id (Admin.mkUserPatch (Some true) None None)
                    (snd out)))
      = users db).
Proof.
  intros Hfound Hid out.
  set (off := Admin.apply_patch (Admin.mkUserPatch (Some false) None None)).
  set (is_id := fun x => user_id x =? id).
  assert (Hby_id : exists x, prisma.user_findUnique id db = Some x).
  { unfold prisma.user_findUnique.
    destruct (find (fun x => user_id x =? id) (users db)) as [x|] eqn:Hx;
      [exists x; reflexivity|].
    apply find_some in Hfound. destruct Hfound as [Hin _].
    apply (find_none _ _ Hx) in Hin. rewrite Hid, Z.eqb_refl in Hin. discriminate. }
  destruct Hby_id as [x Hx].
  assert (Hout : out = (Json "User deactivated",
                        with_users (update_where is_id off (users db)) db)).
  { subst out. unfold Admin.deleteUser, bind, prisma.user_update.
    rewrite Hx. reflexivity. }
  rewrite Hout. cbn [fst snd users streaks submissions invites weeks with_users].
  set (db' := with_users (update_where is_id off (users db)) db).
  assert (Hsender : prisma.user_findUnique_email sender db' = Some (off u)).
  { unfold prisma.user_findUnique_email in *. subst db'. cbn [users with_users].
    rewrite (@find_update_where_test User (fun x => String.eqb (email x) sender)
               is_id off (users db) u (fun y => eq_refl) Hfound).
    unfold is_id. rewrite Hid, Z.eqb_refl. reflexivity. }
  assert (Hid' : prisma.user_findUnique id db' = Some (off x)).
  { unfold prisma.user_findUnique in *. subst db'. cbn [users with_users].
    apply find_update_where_same; [|exact Hx]. intros y Hy. exact Hy. }
  split; [reflexivity|]. split.
  { repeat split; unfold update_where; rewrite map_map; apply map_ext;
      intros y; destruct (is_id y); reflexivity. }
  split.
  { intros p now Hp. cbv zeta. unfold EmailProcessor.processInboundEmail.
    rewrite Hp. unfold bind, reads. rewrite Hsender. cbn [off Admin.apply_patch
      Admin.patch_isActive isActive negb]. split; reflexivity. }
  split.
  { intros invitee now token.
    unfold InvitationService.sendInvitation, bind, reads,
      InvitationService.checkInviteEligibility.
    rewrite Hid'. reflexivity. }
  split.
  { intros v Hv Heq. unfold prisma.user_findMany_active in Hv.
    apply filter_In in Hv. destruct Hv as [Hv Hactive].
    subst db'. cbn [users with_users] in Hv. apply update_where_origin in Hv.
    destruct Hv as (y & _ & [[Hno ->]|[_ ->]]).
    - unfold is_id in Hno. rewrite Heq, Z.eqb_refl in Hno. discriminate.
    - discriminate Hactive. }
  intros Hwere. unfold Admin.patchUser, bind, prisma.user_update.
  rewrite Hid'. cbn [snd ret users with_users]. subst db'. cbn [users with_users].
  apply update_where_twice.
  - intros y Hy. exact Hy.
  - intros y Hy Hp. unfold is_id in Hp. apply Z.eqb_eq in Hp.
    specialize (Hwere y Hy Hp). destruct y. cbn in *. subst. reflexivity.
Qed.

Lemma deactivated_member_is_turned_down_witness :
  let out := Admin.deleteUser 1 Scenario.quiet_week in
  fst out = Json "User deactivated"
  /\ fst (EmailProcessor.processInboundEmail (T := Scenario.text_of_scenarios)
            default_env Scenario.ann_submits 5 (snd out))
     = Failure "Unknown user".
Proof.
  intros out.
  destruct (@deactivated_member_is_turned_down Scenario.text_of_scenarios
              default_env 1 Scenario.quiet_week "ann@example.com" Scenario.ann)
    as (Hanswer & _ & Hreply & _).
  - reflexivity.
  - reflexivity.
  - split; [exact Hanswer|].
    destruct (Hreply Scenario.ann_submits 5 eq_refl) as [Hturned _].
    exact Hturned.
Defined.

(** ** Addresses read from mail *)

Lemma rep_sound (R : Type) (cls : ascii -> bool) (k : string -> option R) r s :
  forall min,
    Regex.rep cls min s k = Some r ->
    exists c rest,
      s = (c ++ rest)%string /\ all_in cls c = true
      /\ (min <= String.length c)%nat /\ k rest = Some r.
Proof.
  induction s as [|x t IH]; intros min; cbn [Regex.rep].
  - destruct (Nat.eqb_spec min 0) as [->|_]; [|discriminate].
    intros Hk. exists EmptyString, EmptyString. repeat split; [lia | exact Hk].
  - assert (Hstop : (if (min =? 0)%nat then k (String x t) else None) = Some r ->
                    exists c rest,
                      String x t = (c ++ rest)%string /\ all_in cls c = true
                      /\ (min <= String.length c)%nat /\ k rest = Some r).
    { destruct (Nat.eqb_spec min 0) as [->|_]; [|discriminate].
      intros Hk. exists EmptyString, (String x t).
      repeat split; [lia | exact Hk]. }
    destruct (cls x) eqn:Hx; [|exact Hstop].
    destruct (Regex.rep cls (pred min) t k) as [r'|] eqn:Hmore; [|exact Hstop].
    intros [= ->]. destruct (IH _ Hmore) as (c & rest & -> & Hc & Hlen & Hk).
    exists (String x c), rest. cbn [append all_in String.length].
    rewrite Hx, Hc. repeat split; [lia | exact Hk].
Qed.

Lemma rep_complete (R : Type) (cls : ascii -> bool) (k : string -> option R) v rest c :
  forall min,
    all_in cls c = true -> (min <= String.length c)%nat -> k rest = Some v ->
    exists v', Regex.rep cls min (c ++ rest) k = Some v'.
Proof.
  induction c as [|x c' IH]; intros min Hc Hlen Hk.
  - cbn [String.length] in Hlen. assert (min = 0)%nat by lia. subst min.
    cbn [append]. destruct rest as [|y t]; cbn [Regex.rep Nat.eqb].
    + exists v. exact Hk.
    + destruct (cls y); [|exists v; exact Hk].
      destruct (Regex.rep cls (pred 0) t k) as [r|]; [exists r | exists v];
        [reflexivity | exact Hk].
  - cbn [all_in] in Hc. apply andb_prop in Hc. destruct Hc as [Hx Hc'].
    cbn [append Regex.rep]. rewrite Hx.
    destruct (IH (pred min) Hc') as [v' Hv']; [cbn [String.length] in Hlen; lia
                                              | exact Hk |].
    rewrite Hv'. exists v'. reflexivity.
Qed.

Lemma run_sound (R : Type) items : forall s (k : string -> option R) r,
  Regex.run items s k = Some r ->
  exists c rest, s = (c ++ rest)%string /\ Matches items c /\ k rest = Some r.
Proof.
  induction items as [|[c|c|min cls] more IH]; intros s k r; cbn [Regex.run].
  - intros Hk. exists EmptyString, s. repeat split; [constructor | exact Hk].
  - destruct s as [|x t]; [discriminate|].
    destruct (Ascii.eqb_spec x c) as [->|_]; [|discriminate].
    intros Hrun. destruct (IH _ _ _ Hrun) as (c' & rest & -> & Hm & Hk).
    exists (String c c'), rest. repeat split; [constructor; exact Hm | exact Hk].
  - destruct s as [|x t]; [discriminate|].
    destruct (Ascii.eqb_spec (fold_char x) (fold_char c)) as [Hfold|_];
      [|discriminate].
    intros Hrun. destruct (IH _ _ _ Hrun) as (c' & rest & -> & Hm & Hk).
    exists (String x c'), rest.
    repeat split; [constructor; assumption | exact Hk].
  - intros Hrun. apply rep_sound in Hrun.
    destruct Hrun as (c1 & s1 & -> & Hc1 & Hlen & Hrun).
    destruct (IH _ _ _ Hrun) as (c2 & rest & -> & Hm & Hk).
    exists (c1 ++ c2)%string, rest.
    split; [|split; [constructor; assumption | exact Hk]].
    clear. induction c1 as [|x c1 IHc]; cbn [append]; [reflexivity|].
    rewrite IHc. reflexivity.
Qed.

Lemma append_assoc (a b c : string) :
  ((a ++ b) ++ c = a ++ (b ++ c))%string.
Proof.
  induction a as [|x a IH]; cbn [append]; [reflexivity | rewrite IH; reflexivity].
Qed.

Lemma run_complete (R : Type) items c :
  Matches items c ->
  forall rest (k : string -> option R) v,
    k rest = Some v -> exists v', Regex.run items (c ++ rest) k = Some v'.
Proof.
  induction 1 as [|c more s Hm IH|c x more s Hfold Hm IH
                  |min cls more c s Hc Hlen Hm IH];
    intros rest k v Hk; cbn [Regex.run append].
  - exists v. exact Hk.
  - rewrite Ascii.eqb_refl. apply (IH _ _ _ Hk).
  - rewrite Hfold, Ascii.eqb_refl. apply (IH _ _ _ Hk).
  - rewrite append_assoc.
    destruct (IH _ _ _ Hk) as [v1 Hv1].
    apply (@rep_complete _ cls (fun r => Regex.run more r k) v1 _ c min Hc Hlen Hv1).
Qed.

Lemma search_some (R : Type) (attempt : string -> option R) r s :
  Regex.search attempt s = Some r ->
  exists before from_here,
    s = (before ++ from_here)%string /\ attempt from_here = Some r.
Proof.
  induction s as [|x t IH]; cbn [Regex.search].
  - destruct (attempt EmptyString) eqn:Ha; [|discriminate].
    intros [= <-]. exists EmptyString, EmptyString. split; [reflexivity | exact Ha].
  - destruct (attempt (String x t)) eqn:Ha.
    + intros [= <-]. exists EmptyString, (String x t). split; [reflexivity | exact Ha].
    + intros Hlater. destruct (IH Hlater) as (b & f & -> & Hf).
      exists (String x b), f. split; [reflexivity | exact Hf].
Qed.

Lemma length_append (a b : string) :
  String.length (a ++ b) = (String.length a + String.length b)%nat.
Proof.
  induction a as [|x a IH]; cbn [append String.length]; [reflexivity | lia].
Qed.

Lemma consumed_prefix (c rest : string) : Regex.consumed (c ++ rest) rest = c.
Proof.
  unfold Regex.consumed. rewrite length_append.
  replace (String.length c + String.length rest - String.length rest)%nat
    with (String.length c) by lia.
  induction c as [|x c IH]; cbn [append String.length substring].
  - destruct rest; reflexivity.
  - rewrite IH. reflexivity.
Qed.

Lemma toLowerCase_append (a b : string) :
  toLowerCase (a ++ b) = (toLowerCase a ++ toLowerCase b)%string.
Proof.
  induction a as [|x a IH]; cbn [append toLowerCase]; [reflexivity|].
  rewrite IH. reflexivity.
Qed.

Lemma toLowerCase_length (a : string) :
  String.length (toLowerCase a) = String.length a.
Proof.
  induction a as [|x a IH]; cbn [toLowerCase String.length]; [reflexivity | lia].
Qed.

Lemma Matches_lower items c :
  Forall item_lower_stable items -> Matches items c ->
  Matches items (toLowerCase c).
Proof.
  intros Hstable Hm.
  induction Hm as [|c more s Hm IH|c x more s Hfold Hm IH
                   |min cls more c s Hc Hlen Hm IH];
    apply Forall_cons_iff in Hstable || idtac.
  - constructor.
  - destruct Hstable as [Hc Hmore]. cbn [toLowerCase item_lower_stable] in *.
    rewrite Hc. constructor. apply IH, Hmore.
  - destruct Hstable as [Hc Hmore]. cbn [toLowerCase item_lower_stable] in *.
    constructor; [apply Hc, Hfold | apply IH, Hmore].
  - destruct Hstable as [Hcls Hmore]. cbn [item_lower_stable] in Hcls.
    rewrite toLowerCase_append. constructor; [| |apply IH, Hmore].
    + clear -Hc Hcls. induction c as [|x c IH]; [reflexivity|].
      cbn [all_in toLowerCase] in *. apply andb_prop in Hc.
      destruct Hc as [Hx Hc]. rewrite (Hcls _ Hx), (IH Hc). reflexivity.
    + rewrite toLowerCase_length. exact Hlen.
Qed.

Lemma all_in_append cls (a b : string) :
  all_in cls (a ++ b) = all_in cls a && all_in cls b.
Proof.
  induction a as [|x a IH]; cbn [append all_in]; [reflexivity|].
  rewrite IH, andb_assoc. reflexivity.
Qed.

Lemma all_in_weaken (cls cls' : ascii -> bool) (s : string) :
  (forall x, cls x = true -> cls' x = true) ->
  all_in cls s = true -> all_in cls' s = true.
Proof.
  intros Hsub. induction s as [|x s IH]; cbn [all_in]; [reflexivity|].
  intros H. apply andb_prop in H. destruct H as [Hx Hs].
  rewrite (Hsub _ Hx), (IH Hs). reflexivity.
Qed.

Lemma Matches_within P items c :
  Forall (item_within P) items -> Matches items c -> all_in P c = true.
Proof.
  intros Hin Hm.
  induction Hm as [|c more s Hm IH|c x more s Hfold Hm IH
                   |min cls more c s Hc Hlen Hm IH];
    apply Forall_cons_iff in Hin || idtac.
  - reflexivity.
  - destruct Hin as [Hc Hmore]. cbn [all_in item_within] in *.
    rewrite Hc, (IH Hmore). reflexivity.
  - destruct Hin as [Hc Hmore]. cbn [all_in item_within] in *.
    rewrite (Hc _ Hfold), (IH Hmore). reflexivity.
  - destruct Hin as [Hcls Hmore]. cbn [item_within] in Hcls.
    rewrite all_in_append, (all_in_weaken _ _ _ Hcls Hc), (IH Hmore). reflexivity.
Qed.

Lemma Matches_weaken items items' c :
  Forall2 item_weaker items items' -> Matches items c -> Matches items' c.
Proof.
  intros Hweak Hm. revert items' Hweak.
  induction Hm as [|c more s Hm IH|c x more s Hfold Hm IH
                   |min cls more c s Hc Hlen Hm IH];
    intros items' Hweak; inversion Hweak as [|it it' l l' Hit Hrest]; subst.
  - constructor.
  - destruct it' as [c'|c'|min' cls']; cbn [item_weaker] in Hit; try contradiction.
    subst c'. constructor. apply IH, Hrest.
  - destruct it' as [c'|c'|min' cls']; cbn [item_weaker] in Hit; try contradiction.
    subst c'. constructor; [exact Hfold | apply IH, Hrest].
  - destruct it' as [c'|c'|min' cls']; cbn [item_weaker] in Hit; try contradiction.
    destruct Hit as [Hmin Hsub].
    constructor; [apply (all_in_weaken _ _ _ Hsub Hc) | lia | apply IH, Hrest].
Qed.

Lemma trimStart_no_space (s : string) : all_in not_space s = true -> trimStart s = s.
Proof.
  destruct s as [|x s]; [reflexivity|]. cbn [all_in trimStart]. intros H.
  apply andb_prop in H. destruct H as [Hx _]. unfold not_space in Hx.
  destruct (is_space x); [discriminate | reflexivity].
Qed.

Lemma trimEnd_no_space (s : string) : all_in not_space s = true -> trimEnd s = s.
Proof.
  induction s as [|x s IH]; [reflexivity|]. cbn [all_in trimEnd]. intros H.
  apply andb_prop in H. destruct H as [Hx Hs]. rewrite (IH Hs).
  unfold not_space in Hx. destruct s; [|reflexivity].
  destruct (is_space x); [discriminate | reflexivity].
Qed.

Lemma trim_no_space (s : string) : all_in not_space s = true -> trim s = s.
Proof.
  intros H. unfold trim. rewrite (trimStart_no_space _ H). apply trimEnd_no_space, H.
Qed.

Ltac every_char x :=
  destruct x as [[] [] [] [] [] [] [] []]; vm_compute; try reflexivity;
  try discriminate.

Lemma lower_char_idem (x : ascii) : lower_char (lower_char x) = lower_char x.
Proof. every_char x. Qed.

Lemma toLowerCase_idem (s : string) : toLowerCase (toLowerCase s) = toLowerCase s.
Proof.
  induction s as [|x s IH]; cbn [toLowerCase]; [reflexivity|].
  rewrite lower_char_idem, IH. reflexivity.
Qed.

Lemma address_lower_stable : Forall item_lower_stable Patterns.address.
Proof.
  unfold Patterns.address. repeat constructor; cbn [item_lower_stable];
    try reflexivity; intros x; every_char x; intros H; exact H.
Qed.

Lemma address_has_no_space : Forall (item_within not_space) Patterns.address.
Proof.
  unfold Patterns.address. repeat constructor; cbn [item_within];
    try reflexivity; intros x; every_char x; intros H; exact H.
Qed.

Lemma emailRegex_is_address : Forall2 item_weaker Patterns.emailRegex Patterns.address.
Proof.
  unfold Patterns.emailRegex, Patterns.address.
  repeat constructor; cbn [item_weaker]; try reflexivity; try lia;
    intros x; every_char x; intros H; exact H.
Qed.

(** A string the address pattern matches passes the address check, also
    after lower-casing, and cleaning it changes nothing more. *)
Lemma matched_address_is_valid (c : string) :
  Matches Patterns.address c ->
  Patterns.isValidEmail (trim (toLowerCase c)) = true
  /\ trim (toLowerCase (trim (toLowerCase c))) = trim (toLowerCase c).
Proof.
  intros Hm. apply (Matches_lower address_lower_stable) in Hm.
  pose proof (Matches_within address_has_no_space Hm) as Hclean.
  rewrite (trim_no_space _ Hclean), toLowerCase_idem, (trim_no_space _ Hclean).
  split; [|reflexivity].
  unfold Patterns.isValidEmail.
  destruct (@run_complete unit _ _ Hm EmptyString Regex.at_end tt eq_refl)
    as [v Hv].
  replace (toLowerCase c ++ "")%string with (toLowerCase c) in Hv.
  - rewrite Hv. reflexivity.
  - clear. induction (toLowerCase c) as [|x s IH]; cbn [append];
      [reflexivity | rewrite <- IH; reflexivity].
Qed.

(** X18. An address taken from an invite command is one the invitation
    service accepts: whatever [parseInviteCommand] returns passes
    [isValidEmail] and is left as it is by the cleaning that
    [sendInvitation] applies, so an invitation asked for by mail is never
    turned down as "Invalid email address". *)
Theorem parsed_invitee_is_valid parser env inviter body invitee now token db :
  Patterns.parseInviteCommand body = Some invitee ->
  Patterns.isValidEmail invitee = true
  /\ trim (toLowerCase invitee) = invitee
  /\ fst (InvitationService.sendInvitation (T := Patterns.text parser) env
            inviter invitee now token db)
     <> Failure "Invalid email address".
Proof.
  intros Hparsed. unfold Patterns.parseInviteCommand in Hparsed.
  apply search_some in Hparsed. destruct Hparsed as (before & s & _ & Hrun).
  apply run_sound in Hrun. destruct Hrun as (kw & s1 & _ & _ & Hrun).
  apply run_sound in Hrun. destruct Hrun as (c & rest & -> & Hm & Hk).
  rewrite consumed_prefix in Hk. injection Hk as <-.
  destruct (matched_address_is_valid Hm) as [Hvalid Hclean].
  split; [exact Hvalid|]. split; [exact Hclean|].
  unfold InvitationService.sendInvitation, bind, reads.
  destruct (InvitationService.checkInviteEligibility env inviter db)
    as [used remaining cur|reason] eqn:Hel.
  - cbv zeta. cbn [toLowerCase_trim isValidEmail Patterns.text].
    rewrite Hclean, Hvalid. cbn [negb].
    destruct (prisma.user_findUnique_email _ db); [discriminate|].
    destruct (prisma.invite_findFirst_pending _ now db); [discriminate|].
    destruct (prisma.invite_create _ _ _ _ db) as [[inv|] d1];
      destruct (prisma.user_findUnique inviter db); try discriminate.
    destruct (sgMail_send env _ d1) as [[] d2]; cbn [negb]; [|discriminate].
    destruct (prisma.user_increment_inviteCount inviter d2). discriminate.
  - cbn [fst ret]. intros [= Hreason].
    unfold InvitationService.checkInviteEligibility in Hel.
    destruct (prisma.user_findUnique inviter db) as [user|]; [|congruence].
    destruct (negb (isActive user)); [congruence|].
    destruct (prisma.userStreak_findUnique inviter db) as [st|]; [|congruence].
    destruct (_ <? _); [|destruct (_ >=? _)]; try discriminate;
      injection Hel as Hel; rewrite Hreason in Hel; discriminate Hel.
Qed.

Lemma parsed_invitee_is_valid_witness :
  Patterns.parseInviteCommand "Thanks! invite:  Carol@Example.COM - see you"
  = Some "carol@example.com"
  /\ Patterns.isValidEmail "carol@example.com" = true.
Proof.
  split; [reflexivity|].
  destruct (@parsed_invitee_is_valid (fun _ _ => mkParsed None None None)
              default_env 1 "Thanks! invite:  Carol@Example.COM - see you"
              "carol@example.com" 0 "" empty_db eq_refl) as [Hvalid _].
  exact Hvalid.
Defined.

(** X19. A sender address taken from the From field is lower-case and is
    one [isValidEmail] accepts; an empty field never yields one. *)
Theorem extracted_sender_is_valid from sender :
  Patterns.extractEmail from = Some sender ->
  from <> ""
  /\ toLowerCase sender = sender
  /\ Patterns.isValidEmail sender = true.
Proof.
  unfold Patterns.extractEmail.
  destruct (String.eqb_spec from "") as [->|Hfrom]; [discriminate|].
  intros Hfound. split; [exact Hfrom|].
  apply search_some in Hfound. destruct Hfound as (before & s & _ & Hrun).
  apply run_sound in Hrun. destruct Hrun as (c & rest & -> & Hm & Hk).
  rewrite consumed_prefix in Hk. injection Hk as <-.
  split; [apply toLowerCase_idem|].
  apply (Matches_weaken emailRegex_is_address) in Hm.
  destruct (matched_address_is_valid Hm) as [Hvalid _].
  apply (Matches_lower address_lower_stable) in Hm.
  rewrite (trim_no_space _ (Matches_within address_has_no_space Hm)) in Hvalid.
  exact Hvalid.
Qed.

Lemma extracted_sender_is_valid_witness :
  Patterns.extractEmail "Ann Lee <Ann.Lee@Example.com>" = Some "ann.lee@example.com"
  /\ Patterns.isValidEmail "ann.lee@example.com" = true.
Proof.
  split; [reflexivity|].
  destruct (@extracted_sender_is_valid "Ann Lee <Ann.Lee@Example.com>"
              "ann.lee@example.com" eq_refl) as (_ & _ & Hvalid).
  exact Hvalid.
Defined.

(** The table of the scenarios agrees with the patterns on its messages. *)
Lemma text_of_scenarios_agrees :
  Patterns.extractEmail (from Scenario.ann_submits)
  = extractEmail (TextParsing := Scenario.text_of_scenarios) (from Scenario.ann_submits)
  /\ Patterns.extractEmail (from Scenario.invite_from_nobody)
     = extractEmail (TextParsing := Scenario.text_of_scenarios)
         (from Scenario.invite_from_nobody)
  /\ Patterns.parseInviteCommand Scenario.invite_body
     = parseInviteCommand (TextParsing := Scenario.text_of_scenarios)
         Scenario.invite_body
  /\ Patterns.parseInviteCommand Scenario.reply_with_invite_body
     = parseInviteCommand (TextParsing := Scenario.text_of_scenarios)
         Scenario.reply_with_invite_body
  /\ Patterns.parseInviteCommand Scenario.submission_body
     = parseInviteCommand (TextParsing := Scenario.text_of_scenarios)
         Scenario.submission_body
  /\ Patterns.isValidEmail "carol@example.com"
     = isValidEmail (TextParsing := Scenario.text_of_scenarios) "carol@example.com".
Proof. vm_compute. repeat split. Qed.

(** ** The webhook's answer *)








(** ** The sweep, run twice *)

Lemma sweep_users env rows : forall now n,
  preserves users (InvitationService.sweep env rows now n).
Proof.
  induction rows as [|[[u [st|]] sent] rest IH]; intros now n;
    cbn [InvitationService.sweep].
  - apply preserves_ret.
  - cbv zeta.
    match goal with
    | |- preserves _ (if ?b then _ else _) => destruct b
    end; [apply IH|].
    apply preserves_bind; [auto with frames|]. intros ok.
    destruct ok; cbn [negb]; [|apply preserves_ret].
    apply preserves_bind; [|intros _; apply IH].
    match goal with
    | |- preserves _ (if ?b then _ else _) => destruct b
    end; [unfold send; auto with frames | apply preserves_ret].
  - apply IH.
Qed.

(** Rows whose flag already follows the rule are passed over. *)
Lemma sweep_settled env rows now : forall k db,
  (forall u st sent,
      In (u, Some st, sent) rows ->
      canInvite st
      = eligibility_flag (InvitationService.streakRequired env)
                         (InvitationService.maxInvitesPerUser env)
                         (currentStreak st) (length_Z sent)) ->
  InvitationService.sweep env rows now k db = (Some k, db).
Proof.
  induction rows as [|[[u [st|]] sent] rest IH]; intros k db Hsettled;
    cbn [InvitationService.sweep].
  - reflexivity.
  - cbv zeta. rewrite (Hsettled u st sent (or_introl eq_refl)).
    unfold eligibility_flag. rewrite eqb_reflx.
    apply IH. intros v st0 sent0 Hin. apply (Hsettled v st0 sent0). right. exact Hin.
  - apply IH. intros v st0 sent0 Hin. apply (Hsettled v st0 sent0). right. exact Hin.
Qed.

(** X21. The eligibility sweep is idempotent (member ids being
    distinct): after [checkAllUsersEligibility] every active member's
    flag is what the rule gives for the stored streak and invitations,
    so a second sweep, at any time, counts the same members, rewrites no
    row, sends nothing and leaves the store exactly as it is. *)
Theorem sweep_is_idempotent env now later db :
  NoDup (map user_id (users db)) ->
  let db' := snd (InvitationService.checkAllUsersEligibility env now db) in
  (forall u st',
      In u (prisma.user_findMany_active db') ->
      prisma.userStreak_findUnique (user_id u) db' = Some st' ->
      canInvite st'
      = eligibility_flag (InvitationService.streakRequired env)
                         (InvitationService.maxInvitesPerUser env)
                         (currentStreak st')
                         (length_Z (prisma.user_sentInvites (user_id u) db')))
  /\ InvitationService.checkAllUsersEligibility env later db'
     = (Success (length_Z (prisma.user_findMany_active db), 0), db').
Proof.
  intros Hids db'.
  assert (Husers : users db' = users db).
  { subst db'. unfold InvitationService.checkAllUsersEligibility.
    apply preserves_bind; [apply preserves_reads|]. intros rows.
    apply preserves_bind; [apply sweep_users|]. intros r. frame. }
  assert (Hactive : prisma.user_findMany_active db' = prisma.user_findMany_active db).
  { unfold prisma.user_findMany_active. rewrite Husers. reflexivity. }
  assert (Hflags : forall u st',
             In u (prisma.user_findMany_active db') ->
             prisma.userStreak_findUnique (user_id u) db' = Some st' ->
             canInvite st'
             = eligibility_flag (InvitationService.streakRequired env)
                 (InvitationService.maxInvitesPerUser env) (currentStreak st')
                 (length_Z (prisma.user_sentInvites (user_id u) db'))).
  { intros u st' Hu Hrow. rewrite Hactive in Hu.
    apply (@sweep_flag_follows_rule env now db Hids u st' Hu Hrow). }
  split; [exact Hflags|].
  unfold InvitationService.checkAllUsersEligibility at 1. unfold bind, reads.
  rewrite sweep_settled.
  - cbn [ret]. unfold length_Z. rewrite length_map, Hactive. reflexivity.
  - intros u st sent Hin. apply in_map_iff in Hin.
    destruct Hin as (v & Hv & Hactive_v).
    unfold InvitationService.with_relations in Hv. injection Hv as -> Hrow <-.
    apply (Hflags u st Hactive_v Hrow).
Qed.

Lemma sweep_is_idempotent_witness :
  let db' := snd (InvitationService.checkAllUsersEligibility default_env 9
                    Scenario.bob_with_lapsed_invitation) in
  option_map canInvite (prisma.userStreak_findUnique 2 db') = Some true
  /\ InvitationService.checkAllUsersEligibility default_env 10 db'
     = (Success (2, 0), db').
Proof.
  intros db'.
  destruct (@sweep_is_idempotent default_env 9 10 Scenario.bob_with_lapsed_invitation)
    as [_ Hagain].
  - repeat constructor; cbn; intuition discriminate.
  - split; [reflexivity | exact Hagain].
Defined.

(** ** The cap on invitations *)

Lemma keeps_of_invite_frame (Q : list Invite -> Prop) (A : Type) (m : M A) :
  preserves invites m -> keeps (fun db => Q (invites db)) m.
Proof. intros Hm db H. rewrite Hm. exact H. Qed.

Lemma week_create_invites a b c d e : preserves invites (prisma.week_create a b c d e).
Proof. unfold prisma.week_create. frame_prim. Qed.
Lemma week_update_invites id st : preserves invites (prisma.week_update id st).
Proof. unfold prisma.week_update. frame_prim. Qed.
Lemma userStreak_create_invites s : preserves invites (prisma.userStreak_create s).
Proof. unfold prisma.userStreak_create. frame_prim. Qed.
Lemma userStreak_update_invites uid d : preserves invites (prisma.userStreak_update uid d).
Proof. unfold prisma.userStreak_update. frame_prim. Qed.
Lemma user_create_invites e a b c : preserves invites (prisma.user_create e a b c).
Proof. unfold prisma.user_create. frame_prim. Qed.
Lemma user_increment_invites id : preserves invites (prisma.user_increment_inviteCount id).
Proof. unfold prisma.user_increment_inviteCount. frame_prim. Qed.
Lemma submission_create_invites a b c d e :
  preserves invites (prisma.submission_create a b c d e).
Proof. unfold prisma.submission_create. frame_prim. Qed.

#[export] Hint Resolve week_create_invites week_update_invites
  userStreak_create_invites userStreak_update_invites user_create_invites
  user_increment_invites submission_create_invites : frames.

Lemma EP_updateUserStreak_invites env uid n now :
  preserves invites (EmailProcessor.updateUserStreak env uid n now).
Proof. unfold EmailProcessor.updateUserStreak. frame. Qed.

Lemma WA_updateUserStreak_invites env user s n d now :
  preserves invites (WeeklyAutomation.updateUserStreak env user s n d now).
Proof. unfold WeeklyAutomation.updateUserStreak. frame. Qed.

Lemma updateAllUserStreaks_invites env n subs now :
  preserves invites (WeeklyAutomation.updateAllUserStreaks env n subs now).
Proof.
  unfold WeeklyAutomation.updateAllUserStreaks.
  apply preserves_bind; [apply preserves_reads|]. intros rows. cbv zeta.
  apply preserves_for_each. intros row. apply WA_updateUserStreak_invites.
Qed.

Lemma sweep_invites env rows : forall now n,
  preserves invites (InvitationService.sweep env rows now n).
Proof.
  induction rows as [|[[u [st|]] sent] rest IH]; intros now n;
    cbn [InvitationService.sweep].
  - apply preserves_ret.
  - cbv zeta.
    match goal with
    | |- preserves _ (if ?b then _ else _) => destruct b
    end; [apply IH|].
    apply preserves_bind; [auto with frames|]. intros ok.
    destruct ok; cbn [negb]; [|apply preserves_ret].
    apply preserves_bind; [|intros _; apply IH].
    match goal with
    | |- preserves _ (if ?b then _ else _) => destruct b
    end; [unfold send; auto with frames | apply preserves_ret].
  - apply IH.
Qed.

#[export] Hint Resolve EP_updateUserStreak_invites WA_updateUserStreak_invites
  updateAllUserStreaks_invites : frames.

(** A property of the invitation table that sending and accepting keep is
    kept by every trigger. *)
Section InviteTable.
Context {T : TextParsing}.
Variable env : Env.
Variable Q : list Invite -> Prop.

Let P (db : Db) : Prop := Q (invites db).

Hypothesis sending_keeps :
  forall a b c d, keeps P (InvitationService.sendInvitation env a b c d).
Hypothesis accepting_keeps :
  forall tok ud now, keeps P (InvitationService.processInviteAcceptance tok ud now).

Ltac untouched :=
  apply (@keeps_of_invite_frame Q); frame.

Lemma run_keeps_invites c db : P db -> P (run env c db).
Proof.
  destruct c as [now|now|id now|batch|tok ud now|now]; cbn [run].
  - unfold WeeklyAutomation.startNewWeek. untouched.
  - unfold WeeklyAutomation.closeWeekAndCompile. untouched.
  - unfold WeeklyAutomation.manualCompileWeek.
    destruct (falsy id); [unfold WeeklyAutomation.closeWeekAndCompile; untouched|].
    destruct id as [n|]; [|unfold WeeklyAutomation.closeWeekAndCompile; untouched].
    untouched.
  - revert db. induction batch as [|[e amb] rest IH]; intros db;
      cbn [Webhooks.inbound_email]; [intros H; exact H|].
    apply keeps_bind; [|intros entry; apply keeps_bind;
                         [exact IH | intros entries; apply keeps_ret]].
    unfold Webhooks.handle_email.
    destruct (extractEmail (from e)); [|apply keeps_ret]. cbv zeta.
    destruct (parseInviteCommand _).
    + apply keeps_bind; [|intros r; apply keeps_ret].
      unfold InvitationService.processInviteCommand.
      apply keeps_bind; [apply keeps_reads|]. intros [inviter|]; [|apply keeps_ret].
      apply keeps_bind; [apply sending_keeps|].
      intros [r|err|]; [| |apply keeps_ret];
        (apply keeps_bind; [untouched | intros _; apply keeps_ret]).
    + apply keeps_bind; [|intros r; apply keeps_ret].
      unfold EmailProcessor.processInboundEmail. untouched.
  - apply accepting_keeps.
  - unfold InvitationService.checkAllUsersEligibility.
    apply keeps_bind; [apply keeps_reads|]. intros rows.
    apply keeps_bind;
      [apply (@keeps_of_invite_frame Q), sweep_invites
      | intros [k|]; apply keeps_ret].
Qed.

Lemma reachable_keeps_invites init db : P init -> reachable env init db -> P db.
Proof.
  intros Hinit Hreach. induction Hreach as [|c db Hreach IH].
  - exact Hinit.
  - apply run_keeps_invites, IH.
Qed.

End InviteTable.

Lemma filter_update_where_le (A : Type) (q p : A -> bool) (f : A -> A) (l : list A) :
  (forall x, In x l -> p x = true -> q (f x) = true -> q x = true) ->
  (List.length (filter q (update_where p f l)) <= List.length (filter q l))%nat.
Proof.
  induction l as [|x rest IH]; intros Hq; cbn [update_where map filter];
    [apply Nat.le_refl|].
  fold (update_where p f rest).
  assert (Hrest : (List.length (filter q (update_where p f rest))
                   <= List.length (filter q rest))%nat)
    by (apply IH; intros y Hy; apply Hq; right; exact Hy).
  destruct (p x) eqn:Hp.
  - destruct (q (f x)) eqn:Hfx.
    + rewrite (Hq x (or_introl eq_refl) Hp Hfx). cbn [List.length]. lia.
    + destruct (q x); cbn [List.length]; lia.
  - destruct (q x); cbn [List.length]; lia.
Qed.

Lemma invite_ids_update_where (p : Invite -> bool) data l :
  (forall i, invite_id (data i) = invite_id i) ->
  map invite_id (update_where p data l) = map invite_id l.
Proof.
  intros Hdata. unfold update_where. rewrite map_map. apply map_ext.
  intros i. destruct (p i); [apply Hdata | reflexivity].
Qed.

Lemma invite_by_id_unique (l : list Invite) x y :
  NoDup (map invite_id l) -> In x l -> In y l -> invite_id x = invite_id y -> x = y.
Proof.
  induction l as [|i rest IH]; intros Hids Hx Hy Hsame; [contradiction|].
  cbn [map] in Hids. apply NoDup_cons_iff in Hids. destruct Hids as [Hnew Hrest].
  destruct Hx as [<-|Hx], Hy as [<-|Hy].
  - reflexivity.
  - exfalso. apply Hnew. rewrite Hsame. apply in_map, Hy.
  - exfalso. apply Hnew. rewrite <- Hsame. apply in_map, Hx.
  - apply IH; assumption.
Qed.

Section Cap.
Variable env : Env.

(** Rewriting a pending invitation never raises anybody's count. *)
Lemma within_cap_update inv data db :
  In inv (invites db) -> invite_status inv = pending ->
  (forall i, invite_id (data i) = invite_id i) ->
  (forall i, inviterId (data i) = inviterId i) ->
  within_cap env db ->
  within_cap env (with_invites
                    (update_where (fun i => invite_id i =? invite_id inv) data
                                  (invites db)) db).
Proof.
  intros Hin Hpending Hid Hinviter [Hids Hcap]. split.
  - cbn [invites with_invites]. rewrite invite_ids_update_where; assumption.
  - intros uid. specialize (Hcap uid).
    unfold prisma.user_sentInvites, length_Z in *. cbn [invites with_invites].
    eapply Z.le_trans; [|exact Hcap]. apply Nat2Z.inj_le.
    apply filter_update_where_le. intros x Hx Hp Hq.
    apply Z.eqb_eq in Hp.
    rewrite (@invite_by_id_unique (invites db) x inv Hids Hx Hin Hp) in *.
    rewrite Hinviter in Hq. apply andb_prop in Hq. destruct Hq as [Hq _].
    rewrite Hq, Hpending. reflexivity.
Qed.

Lemma processInviteAcceptance_within_cap tok ud now :
  keeps (within_cap env) (InvitationService.processInviteAcceptance tok ud now).
Proof.
  intros db H.
  unfold InvitationService.processInviteAcceptance, bind, reads.
  destruct (prisma.invite_findUnique_token tok db) as [inv|] eqn:Hinv; [|exact H].
  destruct (invite_status inv) eqn:Hpending; cbn [InviteStatus_eqb negb];
    try exact H.
  pose proof (invite_found_exists _ _ Hinv) as Hexists.
  assert (Hin : In inv (invites db)).
  { unfold prisma.invite_findUnique_token in Hinv. apply find_some in Hinv.
    apply Hinv. }
  destruct (now >? expiresAt inv).
  { unfold prisma.invite_update. rewrite Hexists. cbn [snd ret].
    apply within_cap_update; auto. }
  destruct (prisma.user_findUnique_email (inviteeEmail inv) db) eqn:Hmember.
  { unfold prisma.invite_update. rewrite Hexists. cbn [snd ret].
    apply within_cap_update; auto. }
  unfold prisma.user_create. rewrite Hmember.
  unfold prisma.userStreak_create. cbn [streak_userId].
  match goal with
  | |- context [prisma.userStreak_findUnique ?k ?d] =>
      destruct (prisma.userStreak_findUnique k d)
  end; cbn [negb snd ret]; [exact H|].
  unfold prisma.invite_update.
  cbn [invites with_users with_journal with_streaks]. rewrite Hexists.
  cbn [snd ret].
  match goal with
  | |- within_cap env (with_invites ?l ?d) =>
      change (within_cap env (with_invites l db))
  end.
  apply within_cap_update; auto.
Qed.

Lemma checkInviteEligibility_room uid db used remaining cur :
  InvitationService.checkInviteEligibility env uid db = Eligible used remaining cur ->
  length_Z (prisma.user_sentInvites uid db) < InvitationService.maxInvitesPerUser env.
Proof.
  unfold InvitationService.checkInviteEligibility.
  destruct (prisma.user_findUnique uid db) as [user|]; [|discriminate].
  destruct (negb (isActive user)); [discriminate|].
  destruct (prisma.userStreak_findUnique uid db) as [st|]; [|discriminate].
  destruct (_ <? _); [discriminate|].
  destruct (_ >=? _) eqn:Hfull; [discriminate|].
  intros _. rewrite Z.geb_leb in Hfull. apply Z.leb_gt in Hfull. exact Hfull.
Qed.

Lemma sendInvitation_within_cap (T : TextParsing) a b c d :
  keeps (within_cap env) (InvitationService.sendInvitation env a b c d).
Proof.
  intros db [Hids Hcap].
  destruct (@sendInvitation_outcome T env a b c d db)
    as [[e Hout]|[[Hout _]|(who & used & remaining & cur & Hel & _ & _ & _ & _ & _
                            & Hout)]];
    cbv zeta in Hout; rewrite Hout; cbn [snd]; try (split; assumption).
  apply checkInviteEligibility_room in Hel.
  destruct (transport env _ _); cbn [snd]; unfold stranded, invited; cbn [fst snd];
    (split;
     [ cbn [invites with_users with_journal with_invites]; rewrite map_app;
       apply NoDup_app; [exact Hids | repeat constructor; intros [] |];
       intros k Hk [<-|[]]; cbn [invite_id] in Hk; apply (next_id_fresh _ Hk)
     | intros uid; specialize (Hcap uid);
       unfold prisma.user_sentInvites, length_Z in *;
       cbn [invites with_users with_journal with_invites];
       rewrite filter_app, length_app;
       cbn [filter inviterId invite_status InviteStatus_eqb orb andb];
       rewrite andb_true_r;
       destruct (Z.eqb_spec a uid) as [->|_]; cbn [List.length]; lia ]).
Qed.

End Cap.

(** X22. The cap on invitations holds for good: started on a store where
    invitation ids are distinct and nobody has more pending or accepted
    invitations than [MAX_INVITES_PER_USER], the service never reaches a
    store where somebody has more, whatever triggers run. *)
Theorem reachable_within_cap (T : TextParsing) env init db :
  within_cap env init -> reachable env init db -> within_cap env db.
Proof.
  intros Hinit Hreach.
  apply (@reachable_keeps_invites T env
           (fun l => NoDup (map invite_id l)
                     /\ forall uid,
                          length_Z (filter (fun i => (inviterId i =? uid)
                                              && (InviteStatus_eqb (invite_status i) pending
                                                  || InviteStatus_eqb (invite_status i) accepted))
                                           l)
                          <= InvitationService.maxInvitesPerUser env))
    with (init := init);
    [ intros; apply sendInvitation_within_cap
    | intros; apply processInviteAcceptance_within_cap
    | exact Hinit | exact Hreach ].
Qed.

Lemma reachable_within_cap_witness :
  within_cap default_env
    (run (T := Scenario.text_of_scenarios) default_env
       (InboundEmail [(Scenario.reply_with_invite_from_ann, Scenario.at_noon)])
       Scenario.quiet_week).
Proof.
  apply (@reachable_within_cap Scenario.text_of_scenarios default_env
           Scenario.quiet_week).
  - split; [constructor | intros uid; vm_compute; discriminate].
  - apply reachable_step, reachable_init.
Defined.

(** ** From a new week to an accepted reply *)

Lemma find_nowhere (A : Type) (p : A -> bool) (l : list A) :
  (forall x, In x l -> p x = false) -> find p l = None.
Proof.
  intros Hp. induction l as [|x rest IH]; cbn [find]; [reflexivity|].
  rewrite (Hp x (or_introl eq_refl)). apply IH. intros y Hy. apply Hp. right. exact Hy.
Qed.

(** X23. A new week takes replies: when no week is open, the week number
    of the moment is not stored yet and every stored submission belongs
    to a stored week, [startNewWeek] followed by a reply from an active
    member in the template is taken in: the store then holds the
    member's submission with the parsed fields under the new week, and
    the confirmation for that week is the last thing handed over.  The
    answer is success when the transport takes that confirmation, as a
    transport that takes every message does, and "Processing failed"
    when it refuses, the reply being stored all the same. *)
Theorem reply_to_new_week_is_accepted (T : TextParsing) env moment db p now
    sender user data :
  prisma.week_findFirst open db = None ->
  existsb (fun w => weekNumber w =? year moment * 100 + week moment) (weeks db)
  = false ->
  (forall s, In s (submissions db) -> In (weekId s) (map week_id (weeks db))) ->
  extractEmail (from p) = Some sender ->
  prisma.user_findUnique_email sender db = Some user ->
  isActive user = true ->
  EmailProcessor.validateSubmissionFormat
    (parseSubmission (str_or (text p) (str_or (html p) "")) (subject p))
  = Some data ->
  let db1 := snd (WeeklyAutomation.startNewWeek env moment db) in
  let out := EmailProcessor.processInboundEmail env p now db1 in
  let row := mkSubmission (next_id (map submission_id (submissions db)))
                          (user_id user) (next_id (map week_id (weeks db)))
                          (data_recommendation data) (data_reasonWhy data)
                          (data_digressions data) in
  let confirmation :=
    SubmissionConfirmation sender (year moment * 100 + week moment) in
  (fst out = Success (submission_id row) \/ fst out = Failure "Processing failed")
  /\ (reliable env -> fst out = Success (submission_id row))
  /\ (exists before,
         journal (snd out) = before ++ [Sent confirmation]
         /\ fst out = if transport env before confirmation
                      then Success (submission_id row)
                      else Failure "Processing failed")
  /\ submissions (snd out) = submissions db ++ [row]
  /\ option_map weekNumber (prisma.week_findUnique (weekId row) (snd out))
     = Some (year moment * 100 + week moment).
Proof.
  intros Hnone Hfree Hrefs Hsender Huser Hactive Hvalid db1 out row confirmation.
  destruct (startNewWeek_fresh env moment _ Hnone Hfree) as (_ & Hweeks & Hopen).
  cbv zeta in Hweeks, Hopen. fold db1 in Hweeks, Hopen.
  set (new := mkWeek (next_id (map week_id (weeks db))) _ _ _ open _) in *.
  assert (Hsame : users db1 = users db /\ submissions db1 = submissions db).
  { subst db1. unfold WeeklyAutomation.startNewWeek, bind, reads, prisma.week_create.
    rewrite Hnone, Hfree.
    match goal with
    | |- context [if ?c then _ else _] => destruct c
    end; [split; reflexivity|].
    match goal with
    | |- context [sendWeeklyPrompt ?e ?us ?n ?d] =>
        pose proof (sendWeeklyPrompt_users e us n d) as Hu;
        pose proof (sendWeeklyPrompt_submissions e us n d) as Hs;
        destruct (sendWeeklyPrompt e us n d) as [emailsSent d1]
    end.
    cbn [snd ret] in *. rewrite Hu, Hs. split; reflexivity. }
  destruct Hsame as [Husers Hsubs].
  assert (Hweek : prisma.week_findFirst_desc open db1 = Some new).
  { unfold prisma.week_findFirst_desc. unfold open_weeks in Hopen.
    rewrite Hopen. reflexivity. }
  assert (Huser1 : prisma.user_findUnique_email sender db1 = Some user).
  { unfold prisma.user_findUnique_email in *. rewrite Husers. exact Huser. }
  assert (Hfresh : prisma.submission_findUnique (user_id user) (week_id new) db1
                   = None).
  { unfold prisma.submission_findUnique. rewrite Hsubs. apply find_nowhere.
    intros s Hs. unfold prisma.is_pair.
    destruct (Z.eqb_spec (weekId s) (week_id new)) as [Heq|_];
      [|apply andb_false_r].
    exfalso. apply Hrefs in Hs. rewrite Heq in Hs.
    apply (next_id_fresh _ Hs). }
  pose proof (@processInboundEmail_stores T env p now db1 sender user new data
                Hsender Huser1 Hactive Hweek Hfresh Hvalid) as Hrun.
  cbv zeta in Hrun. fold out in Hrun. rewrite Hsubs in Hrun.
  cbn [week_id new] in Hrun. fold row in Hrun.
  set (d0 := with_submissions (submissions db ++ [row]) db1) in Hrun.
  pose proof (EP_updateUserStreak_weeks env (user_id user) (weekNumber new) now d0)
    as Hw.
  pose proof (EP_updateUserStreak_submissions env (user_id user) (weekNumber new)
                now d0) as Hs.
  set (d1 := snd (EmailProcessor.updateUserStreak env (user_id user)
                    (weekNumber new) now d0)) in *.
  rewrite Hrun. cbn [fst snd submissions weeks with_journal].
  split; [destruct (transport env _ _); [left | right]; reflexivity|].
  split; [intros Hup; rewrite Hup; reflexivity|].
  split; [exists (journal d1); split; reflexivity|].
  split; [exact Hs|].
  unfold prisma.week_findUnique. cbn [weeks with_journal].
  rewrite Hw. subst d0. cbn [weeks with_submissions]. rewrite Hweeks.
  cbn [weekId row].
  rewrite find_app_last; [reflexivity | | cbn [week_id new]; apply Z.eqb_refl].
  apply find_nowhere. intros w Hwin.
  destruct (Z.eqb_spec (week_id w) (next_id (map week_id (weeks db)))) as [Heq|_];
    [|reflexivity].
  exfalso. apply (@next_id_fresh (map week_id (weeks db))).
  rewrite <- Heq. apply in_map, Hwin.
Qed.

Lemma reply_to_new_week_is_accepted_witness :
  let db1 := snd (WeeklyAutomation.startNewWeek default_env (Scenario.at_week 2024 2)
                    Scenario.after_first_cycle) in
  let out := EmailProcessor.processInboundEmail (T := Scenario.text_of_scenarios)
               default_env Scenario.ann_submits 7 db1 in
  fst out = Success 2
  /\ List.length (submissions (snd out)) = 2%nat.
Proof.
  intros db1 out.
  destruct (@reply_to_new_week_is_accepted Scenario.text_of_scenarios default_env
              (Scenario.at_week 2024 2) Scenario.after_first_cycle
              Scenario.ann_submits 7 "ann@example.com" Scenario.ann
              (mkData "The Wire" "It rewards patience" "Hello everyone"))
    as (_ & Hres & _ & Hsubs & _).
  - reflexivity.
  - reflexivity.
  - intros s [<-|[]]. left. reflexivity.
  - reflexivity.
  - reflexivity.
  - reflexivity.
  - reflexivity.
  - fold db1 out in Hres, Hsubs. split.
    + apply Hres. intros j m. reflexivity.
    + rewrite Hsubs. reflexivity.
Defined.

(** ** The member table stays well-formed *)

Lemma week_create_users a b c d e : preserves users (prisma.week_create a b c d e).
Proof. unfold prisma.week_create. frame_prim. Qed.
Lemma invite_create_users a b c d : preserves users (prisma.invite_create a b c d).
Proof. unfold prisma.invite_create. frame_prim. Qed.
Lemma invite_update_users id d : preserves users (prisma.invite_update id d).
Proof. unfold prisma.invite_update. frame_prim. Qed.

#[export] Hint Resolve week_create_users invite_create_users invite_update_users
  : frames.

Lemma keeps_of_member_frames (A : Type) (m : M A) :
  preserves users m -> preserves streaks m -> keeps members_well_formed m.
Proof.
  intros Hu Hs db (Hids & Hemails & Hrefs). split; [|split].
  - rewrite Hu. exact Hids.
  - rewrite Hu. exact Hemails.
  - intros s Hin. rewrite Hs in Hin. rewrite Hu. apply Hrefs, Hin.
Qed.

Lemma userStreak_update_well_formed uid data :
  (forall s, streak_userId s = uid -> streak_userId (data s) = uid) ->
  keeps members_well_formed (prisma.userStreak_update uid data).
Proof.
  intros Hkey db (Hids & Hemails & Hrefs). unfold prisma.userStreak_update.
  destruct (prisma.userStreak_findUnique uid db); [|repeat split; assumption].
  cbn [snd]. repeat split; try assumption.
  intros s Hs. cbn [streaks users with_journal with_streaks] in *.
  apply update_where_origin in Hs.
  destruct Hs as (x & Hx & [[_ ->]|[Hp ->]]); [apply Hrefs, Hx|].
  apply Z.eqb_eq in Hp. rewrite (Hkey _ Hp), <- Hp. apply Hrefs, Hx.
Qed.

Lemma userStreak_create_well_formed row db :
  In (streak_userId row) (map user_id (users db)) ->
  members_well_formed db ->
  members_well_formed (snd (prisma.userStreak_create row db)).
Proof.
  intros Hrow (Hids & Hemails & Hrefs). unfold prisma.userStreak_create.
  destruct (prisma.userStreak_findUnique (streak_userId row) db);
    [repeat split; assumption|].
  cbn [snd]. repeat split; try assumption.
  intros s Hs. cbn [streaks users with_journal with_streaks] in *.
  apply in_app_or in Hs. destruct Hs as [Hs|[<-|[]]]; [apply Hrefs, Hs | exact Hrow].
Qed.

Lemma user_increment_well_formed id :
  keeps members_well_formed (prisma.user_increment_inviteCount id).
Proof.
  intros db (Hids & Hemails & Hrefs). unfold prisma.user_increment_inviteCount.
  destruct (prisma.user_findUnique id db) as [found|];
    [|repeat split; assumption].
  cbn [snd].
  assert (Hsame_ids : map user_id (update_where (fun u => user_id u =? id)
                                     prisma.bump_inviteCount (users db))
                      = map user_id (users db))
    by (apply ids_update_where; reflexivity).
  assert (Hsame_emails : map email (update_where (fun u => user_id u =? id)
                                      prisma.bump_inviteCount (users db))
                         = map email (users db)).
  { unfold update_where. rewrite map_map. apply map_ext.
    intros x. destruct (user_id x =? id); reflexivity. }
  split; [|split]; cbn [users streaks with_users].
  - rewrite Hsame_ids. exact Hids.
  - rewrite Hsame_emails. exact Hemails.
  - intros s Hin. cbn [users streaks with_users] in *.
    rewrite Hsame_ids. apply Hrefs, Hin.
Qed.

Lemma EP_updateUserStreak_well_formed env uid n now db :
  In uid (map user_id (users db)) ->
  members_well_formed db ->
  members_well_formed (snd (EmailProcessor.updateUserStreak env uid n now db)).
Proof.
  intros Huid H. unfold EmailProcessor.updateUserStreak, bind, reads.
  destruct (prisma.userStreak_findUnique uid db) as [st|].
  - cbv zeta.
    match goal with
    | |- context [prisma.userStreak_update ?u ?d db] =>
        pose proof (@userStreak_update_well_formed u d (fun s _ => eq_refl) db H)
          as Hk;
        destruct (prisma.userStreak_update u d db) as [ok db1]
    end.
    cbn [snd] in Hk.
    destruct (ok && _ && _); [|exact Hk].
    destruct (prisma.user_findUnique uid db1); exact Hk.
  - pose proof (@userStreak_create_well_formed
                  (mkStreak uid 1 1 (Some n) false None) db Huid H) as Hk.
    destruct (prisma.userStreak_create _ db) as [ok db1]. exact Hk.
Qed.

Lemma WA_updateUserStreak_well_formed env user snapshot n didSubmit now db :
  In (user_id user) (map user_id (users db)) ->
  members_well_formed db ->
  members_well_formed
    (snd (WeeklyAutomation.updateUserStreak env user snapshot n didSubmit now db)).
Proof.
  intros Huid H. unfold WeeklyAutomation.updateUserStreak, bind.
  destruct snapshot as [st|].
  - cbv zeta.
    match goal with
    | |- context [prisma.userStreak_update ?u ?d db] =>
        pose proof (@userStreak_update_well_formed u d (fun s _ => eq_refl) db H)
          as Hk;
        destruct (prisma.userStreak_update u d db) as [ok db1]
    end.
    cbn [snd] in Hk. destruct (ok && _ && _); exact Hk.
  - match goal with
    | |- context [prisma.userStreak_create ?row db] =>
        pose proof (@userStreak_create_well_formed row db Huid H) as Hk;
        destruct (prisma.userStreak_create row db) as [ok db1]
    end.
    exact Hk.
Qed.

Lemma WA_updateUserStreak_users env user snapshot n didSubmit now :
  preserves users (WeeklyAutomation.updateUserStreak env user snapshot n didSubmit now).
Proof. unfold WeeklyAutomation.updateUserStreak. frame. Qed.

Lemma updateAllUserStreaks_well_formed env n subs now :
  keeps members_well_formed (WeeklyAutomation.updateAllUserStreaks env n subs now).
Proof.
  intros db H. unfold WeeklyAutomation.updateAllUserStreaks, bind, reads. cbv zeta.
  set (rows := map (WeeklyAutomation.with_streak db) (prisma.user_findMany_active db)).
  assert (Hloop : keeps (fun d => members_well_formed d /\ users d = users db)
                        (for_each rows
                           (fun row =>
                              WeeklyAutomation.updateUserStreak env (fst row) (snd row) n
                                (existsb (Z.eqb (user_id (fst row))) (map userId subs))
                                now))).
  { apply keeps_for_each. intros row Hrow d [Hd Husers]. split.
    - apply WA_updateUserStreak_well_formed; [|exact Hd].
      rewrite Husers. subst rows. apply in_map_iff in Hrow.
      destruct Hrow as (u & <- & Hu). cbn [fst WeeklyAutomation.with_streak].
      apply in_map. apply filter_In in Hu. apply Hu.
    - rewrite WA_updateUserStreak_users. exact Husers. }
  apply (Hloop db). split; [exact H | reflexivity].
Qed.

Lemma sweep_well_formed env rows : forall now k,
  keeps members_well_formed (InvitationService.sweep env rows now k).
Proof.
  induction rows as [|[[user [st|]] sent] rest IH]; intros now k;
    cbn [InvitationService.sweep].
  - apply keeps_ret.
  - cbv zeta. destruct (Bool.eqb _ _); [apply IH|].
    apply keeps_bind.
    + apply userStreak_update_well_formed. intros s Hs. exact Hs.
    + intros ok. destruct (negb ok); [apply keeps_ret|].
      apply keeps_bind; [|intros _; apply IH].
      destruct (_ && _); [intros db H; exact H | apply keeps_ret].
  - apply IH.
Qed.

Lemma email_absent e db :
  prisma.user_findUnique_email e db = None -> ~ In e (map email (users db)).
Proof.
  unfold prisma.user_findUnique_email. intros Hnone Hin.
  apply in_map_iff in Hin. destruct Hin as (u & Hu & Hin).
  apply (find_none _ _ Hnone) in Hin. rewrite Hu, String.eqb_refl in Hin.
  discriminate.
Qed.

Lemma processInviteAcceptance_well_formed tok ud now :
  keeps members_well_formed (InvitationService.processInviteAcceptance tok ud now).
Proof.
  intros db H.
  unfold InvitationService.processInviteAcceptance, bind, reads.
  destruct (prisma.invite_findUnique_token tok db) as [inv|]; [|exact H].
  destruct (negb _); [exact H|].
  destruct (now >? expiresAt inv).
  { apply (@keeps_of_member_frames _ (prisma.invite_update _ _ ;; ret _));
      [frame | frame | exact H]. }
  destruct (prisma.user_findUnique_email (inviteeEmail inv) db) eqn:Hmember.
  { apply (@keeps_of_member_frames _ (prisma.invite_update _ _ ;; ret _));
      [frame | frame | exact H]. }
  unfold prisma.user_create. rewrite Hmember.
  set (newUser := mkUser _ _ _ _ _ _).
  set (d1 := with_users (users db ++ [newUser]) db).
  assert (H1 : members_well_formed d1).
  { destruct H as (Hids & Hemails & Hrefs). subst d1.
    unfold members_well_formed, streaks_refer_to_users.
    cbn [users streaks with_users]. rewrite !map_app. cbn [map].
    split; [|split].
    - apply NoDup_app; [exact Hids | repeat constructor; intros [] |].
      intros k Hk [<-|[]]. apply (next_id_fresh _ Hk).
    - apply NoDup_app; [exact Hemails | repeat constructor; intros [] |].
      intros k Hk [<-|[]]. apply (email_absent _ _ Hmember Hk).
    - intros s Hs. apply in_or_app. left. apply Hrefs, Hs. }
  pose proof (@userStreak_create_well_formed
                (mkStreak (user_id newUser) 0 0 None false None) d1) as H2.
  destruct (prisma.userStreak_create _ d1) as [ok d2]. cbn [snd] in H2.
  assert (Hd2 : members_well_formed d2).
  { apply H2; [|exact H1]. subst d1. cbn [streak_userId users with_users].
    rewrite map_app. apply in_or_app. right. left. reflexivity. }
  destruct (negb ok); [exact Hd2|].
  apply (@keeps_of_member_frames _ (prisma.invite_update _ _ ;; ret _));
    [frame | frame | exact Hd2].
Qed.

Section MemberTable.
Context {T : TextParsing}.
Variable env : Env.

Lemma sendInvitation_well_formed a b c d :
  keeps members_well_formed (InvitationService.sendInvitation env a b c d).
Proof.
  unfold InvitationService.sendInvitation.
  repeat first
    [ apply keeps_ret | apply keeps_reads
    | apply user_increment_well_formed
    | solve [apply keeps_of_member_frames; unfold send; auto with frames]
    | apply keeps_bind; [|intros ?]
    | match goal with
      | |- keeps _ (match ?x with _ => _ end) => destruct x
      | |- keeps _ (if ?b then _ else _) => destruct b
      end
    | progress cbv zeta ].
Qed.

Lemma processInboundEmail_well_formed p now :
  keeps members_well_formed (EmailProcessor.processInboundEmail env p now).
Proof.
  intros db H.
  unfold EmailProcessor.processInboundEmail, bind, reads, send, emit, ret,
    sgMail_send, prisma.submission_create.
  destruct (extractEmail (from p)) as [sender|]; [|exact H].
  destruct (prisma.user_findUnique_email sender db) as [user|] eqn:Huser;
    [|exact H].
  destruct (isActive user); cbn [negb]; [|exact H].
  destruct (prisma.week_findFirst_desc open db) as [wk|]; [|exact H].
  destruct (prisma.submission_findUnique (user_id user) (week_id wk) db) eqn:Hold;
    [exact H|].
  destruct (EmailProcessor.validateSubmissionFormat _); [|exact H].
  rewrite Hold.
  match goal with
  | |- context [EmailProcessor.updateUserStreak ?a ?b ?c ?d ?e] =>
      pose proof (@EP_updateUserStreak_well_formed a b c d e) as Hk;
      destruct (EmailProcessor.updateUserStreak a b c d e) as [[] d1]
  end.
  cbn [snd] in *.
  assert (H1 : members_well_formed d1); [|destruct (transport env _ _); exact H1].
  apply Hk; [|exact H].
  cbn [users with_submissions]. unfold prisma.user_findUnique_email in Huser.
  apply find_some in Huser. apply in_map, Huser.
Qed.

Ltac well_formed :=
  repeat first
    [ apply keeps_ret | apply keeps_reads
    | apply updateAllUserStreaks_well_formed
    | apply sendInvitation_well_formed
    | solve [apply keeps_of_member_frames; unfold send; auto with frames]
    | apply keeps_bind; [|intros ?]
    | match goal with
      | |- keeps _ (match ?x with _ => _ end) => destruct x
      | |- keeps _ (if ?b then _ else _) => destruct b
      end
    | progress cbv zeta ].

Lemma run_well_formed c db :
  members_well_formed db -> members_well_formed (run env c db).
Proof.
  destruct c as [now|now|id now|batch|tok ud now|now]; cbn [run].
  - unfold WeeklyAutomation.startNewWeek. well_formed.
  - unfold WeeklyAutomation.closeWeekAndCompile. well_formed.
  - unfold WeeklyAutomation.manualCompileWeek.
    destruct (falsy id);
      [unfold WeeklyAutomation.closeWeekAndCompile; well_formed|].
    destruct id as [n|];
      [|unfold WeeklyAutomation.closeWeekAndCompile; well_formed].
    well_formed.
  - revert db. induction batch as [|[e amb] rest IH]; intros db;
      cbn [Webhooks.inbound_email]; [intros H; exact H|].
    apply keeps_bind; [|intros entry; apply keeps_bind;
                         [exact IH | intros entries; apply keeps_ret]].
    unfold Webhooks.handle_email.
    destruct (extractEmail (from e)); [|apply keeps_ret]. cbv zeta.
    destruct (parseInviteCommand _).
    + apply keeps_bind; [|intros r; apply keeps_ret].
      unfold InvitationService.processInviteCommand. well_formed.
    + apply keeps_bind; [|intros r; apply keeps_ret].
      apply processInboundEmail_well_formed.
  - apply processInviteAcceptance_well_formed.
  - unfold InvitationService.checkAllUsersEligibility.
    apply keeps_bind; [apply keeps_reads|]. intros rows.
    apply keeps_bind; [apply sweep_well_formed | intros [k|]; apply keeps_ret].
Qed.

End MemberTable.

(** X24. The member table stays well-formed: started on a store (the
    empty one, say) where member ids are distinct, member addresses are
    distinct and every streak row belongs to a stored member, the service
    only reaches stores of that kind, whatever triggers run.  These are
    the conditions under which an invitation can be taken up and the
    close and the sweep treat members one by one. *)
Theorem reachable_members_well_formed (T : TextParsing) env init db :
  members_well_formed init -> reachable env init db -> members_well_formed db.
Proof.
  intros Hinit Hreach. induction Hreach as [|c db Hreach IH].
  - exact Hinit.
  - apply run_well_formed, IH.
Qed.

Lemma reachable_members_well_formed_witness :
  members_well_formed
    (run (T := Scenario.text_of_scenarios) default_env
       (AcceptInvite "token-carol" (mkUserData (Some "Carol") None) 100)
       (run (T := Scenario.text_of_scenarios) default_env
          (InboundEmail [(Scenario.ann_submits, Scenario.at_noon)])
          (run (T := Scenario.text_of_scenarios) default_env
             (StartNewWeek (Scenario.at_week 2024 1))
             Scenario.with_invitations))).
Proof.
  apply (@reachable_members_well_formed Scenario.text_of_scenarios default_env
           Scenario.with_invitations).
  - split; [|split].
    + repeat constructor; cbn; intuition discriminate.
    + repeat constructor; cbn; intuition discriminate.
    + intros s [].
  - do 3 apply reachable_step. apply reachable_init.
Defined.

(** ** A reply, then the close *)

(** X25. A reply that was accepted counts as a streak of exactly 1 at the
    close of its week, whatever the member's streak was before: the
    intake has already written the week as the member's last submission
    week, so the close sees no continuation.  This is the close whose
    compilation the transport takes, as a transport that takes every
    message does; when the transport refuses the compilation the close
    stops before the streak updates and the member's row stays as the
    intake left it.  (One open week at most, member ids distinct.) *)
Theorem reply_counts_as_one_at_close (T : TextParsing) env p now db sid db1 later :
  EmailProcessor.processInboundEmail env p now db = (Success sid, db1) ->
  at_most_one_open db ->
  NoDup (map user_id (users db)) ->
  exists sender user wk st',
    extractEmail (from p) = Some sender
    /\ prisma.user_findUnique_email sender db = Some user
    /\ prisma.week_findFirst open db1 = Some wk
    /\ prisma.userStreak_findUnique (user_id user)
         (snd (WeeklyAutomation.closeWeekAndCompile env later db1)) = Some st'
    /\ (if compilation_taken env db1 wk
        then currentStreak st' = 1
        else prisma.userStreak_findUnique (user_id user) db1 = Some st')
    /\ (reliable env -> currentStreak st' = 1).
Proof.
  intros Hrun Hone Hids.
  destruct (@processInboundEmail_success_store _ _ _ _ _ _ _ Hrun)
    as (sender & user & wk & row & Hsender & Huser & Hactive & Hweek & Hnone
        & _ & Hrow_user & Hrow_week & Hdb1).
  cbv zeta in Hdb1.
  set (d0 := with_submissions (submissions db ++ [row]) db) in *.
  pose proof (EP_updateUserStreak_users env (user_id user) (weekNumber wk) now d0)
    as Husers.
  pose proof (EP_updateUserStreak_weeks env (user_id user) (weekNumber wk) now d0)
    as Hweeks.
  destruct (EP_updateUserStreak_row env (user_id user) (weekNumber wk) now d0)
    as (st & Hst & Hlast & _ & Hsubs).
  set (d1 := snd (EmailProcessor.updateUserStreak env (user_id user) (weekNumber wk)
                    now d0)) in *.
  assert (Husers1 : users db1 = users db) by (subst db1; exact Husers).
  assert (Hweeks1 : weeks db1 = weeks db) by (subst db1; exact Hweeks).
  assert (Hsubs1 : submissions db1 = submissions db ++ [row])
    by (subst db1; exact Hsubs).
  assert (Hst1 : prisma.userStreak_findUnique (user_id user) db1 = Some st)
    by (subst db1; exact Hst).
  assert (Hopen1 : prisma.week_findFirst open db1 = Some wk).
  { rewrite (findFirst_desc_sole Hone) in Hweek.
    unfold prisma.week_findFirst in *. rewrite Hweeks1. exact Hweek. }
  assert (Hin_subs : In row (prisma.week_submissions (week_id wk) db1)).
  { unfold prisma.week_submissions. rewrite Hsubs1. apply filter_In. split.
    - apply in_or_app. right. left. reflexivity.
    - rewrite Hrow_week. apply Z.eqb_refl. }
  assert (Hnonempty : prisma.week_submissions (week_id wk) db1 <> []).
  { intros Hempty. rewrite Hempty in Hin_subs. destruct Hin_subs. }
  assert (Hids1 : NoDup (map user_id (users db1))) by (rewrite Husers1; exact Hids).
  destruct (compilation_taken env db1 wk) eqn:Htaken.
  - destruct (close_acts_member_by_member env later db1 Hopen1 Hnonempty Hids1 Htaken)
      as (d3 & Hstreaks & Hthese & _).
    assert (Hmember : In user (users db1)).
    { rewrite Husers1. unfold prisma.user_findUnique_email in Huser.
      apply find_some in Huser. apply Huser. }
    specialize (Hthese user Hmember Hactive).
    rewrite Hst1 in Hthese.
    replace (existsb (Z.eqb (user_id user))
                     (map userId (prisma.week_submissions (week_id wk) db1)))
      with true in Hthese.
    2:{ symmetry. apply existsb_exists. exists (userId row). split.
        - apply in_map, Hin_subs.
        - rewrite Hrow_user. apply Z.eqb_refl. }
    assert (Hst3 : prisma.userStreak_findUnique (user_id user) d3 = Some st)
      by (unfold prisma.userStreak_findUnique in *; rewrite Hstreaks; exact Hst1).
    pose proof (@close_restarts_count_after_intake env user st (weekNumber wk) later
                  d3 Hlast Hst3) as Hone_week.
    rewrite <- Hthese in Hone_week.
    destruct (prisma.userStreak_findUnique (user_id user)
                (snd (WeeklyAutomation.closeWeekAndCompile env later db1)))
      as [st'|] eqn:Hrow; [|discriminate].
    injection Hone_week as Hcount.
    exists sender, user, wk, st'.
    split; [exact Hsender|]. split; [exact Huser|]. split; [exact Hopen1|].
    rewrite Htaken.
    split; [exact Hrow|]. split; [exact Hcount | intros _; exact Hcount].
  - pose proof (closeWeekAndCompile_open env later db1 Hopen1) as Hclose.
    cbv zeta in Hclose. rewrite Htaken in Hclose.
    assert (Hlen : (length_Z (prisma.week_submissions (week_id wk) db1) =? 0)
                   = false).
    { destruct (prisma.week_submissions (week_id wk) db1); [contradiction|].
      unfold length_Z. cbn [List.length]. apply Z.eqb_neq. lia. }
    rewrite Hlen in Hclose. cbn [orb] in Hclose.
    destruct Hclose as (_ & _ & Hstreaks).
    exists sender, user, wk, st.
    split; [exact Hsender|]. split; [exact Huser|]. split; [exact Hopen1|].
    rewrite Htaken.
    split; [|split; [exact Hst1|]].
    + unfold prisma.userStreak_findUnique in *. rewrite Hstreaks. exact Hst1.
    + intros Hup. unfold compilation_taken in Htaken. rewrite Hup in Htaken.
      discriminate Htaken.
Qed.

Lemma reply_counts_as_one_at_close_witness :
  let first := EmailProcessor.processInboundEmail (T := Scenario.text_of_scenarios)
                 default_env Scenario.ann_submits 5 Scenario.quiet_week in
  let closed_db := snd (WeeklyAutomation.closeWeekAndCompile default_env 9
                          (snd first)) in
  option_map currentStreak (prisma.userStreak_findUnique 1 (snd first)) = Some 5
  /\ option_map currentStreak (prisma.userStreak_findUnique 1 closed_db) = Some 1.
Proof.
  intros first closed_db. split; [reflexivity|].
  destruct (@reply_counts_as_one_at_close Scenario.text_of_scenarios default_env
              Scenario.ann_submits 5 Scenario.quiet_week 1 (snd first) 9)
    as (sender & user & wk & st' & Hsender & Huser & _ & Hrow & _ & Hcount).
  - reflexivity.
  - unfold at_most_one_open. vm_compute. lia.
  - repeat constructor. intros [].
  - vm_compute in Hsender. injection Hsender as <-.
    vm_compute in Huser. injection Huser as <-.
    cbn [user_id Scenario.ann] in Hrow. fold first closed_db in Hrow.
    rewrite Hrow. cbn [option_map]. rewrite Hcount; [reflexivity|].
    intros j m. reflexivity.
Defined.

(** ** Stored submissions *)

Lemma grows_refl db : grows db db.
Proof. repeat split; apply incl_refl. Qed.

Lemma grows_trans a b c : grows a b -> grows b c -> grows a c.
Proof.
  intros (Hs1 & Hw1 & Hu1) (Hs2 & Hw2 & Hu2). split; [congruence|].
  split; eapply incl_tran; eassumption.
Qed.

Lemma grows_well_formed db db' :
  grows db db' -> submissions_well_formed db -> submissions_well_formed db'.
Proof.
  intros (Hs & Hw & Hu) (Hvalid & Hrefs & Hone).
  unfold submissions_well_formed. rewrite Hs. split; [exact Hvalid|].
  split; [|exact Hone].
  intros s Hin. destruct (Hrefs s Hin) as [Hweek Huser].
  split; [apply Hw, Hweek | apply Hu, Huser].
Qed.

Section Extending.

Lemma extends_ret (A : Type) (a : A) : extends (ret a).
Proof. intros db. apply grows_refl. Qed.

Lemma extends_reads (A : Type) (g : Db -> A) : extends (reads g).
Proof. intros db. apply grows_refl. Qed.

Lemma extends_bind (A B : Type) (m : M A) (k : A -> M B) :
  extends m -> (forall a, extends (k a)) -> extends (bind m k).
Proof.
  intros Hm Hk db. unfold bind.
  specialize (Hm db). destruct (m db) as [a db']. cbn [snd] in Hm.
  eapply grows_trans; [exact Hm | apply Hk].
Qed.

Lemma extends_for_each (A : Type) (l : list A) (body : A -> M unit) :
  (forall x, extends (body x)) -> extends (for_each l body).
Proof.
  intros Hbody. induction l as [|x rest IH]; cbn [for_each].
  - apply extends_ret.
  - apply extends_bind; [apply Hbody | intros _; exact IH].
Qed.

Lemma extends_of_frames (A : Type) (m : M A) :
  preserves submissions m -> preserves weeks m -> preserves users m -> extends m.
Proof.
  intros Hs Hw Hu db. unfold grows. rewrite Hs, Hw, Hu.
  repeat split; apply incl_refl.
Qed.

End Extending.

Lemma week_create_extends a b c d e : extends (prisma.week_create a b c d e).
Proof.
  intros db. unfold prisma.week_create.
  destruct (existsb _ _); [apply grows_refl|].
  cbn [snd]. unfold grows. cbn [submissions weeks users with_journal with_weeks].
  split; [reflexivity|]. split; [|apply incl_refl].
  rewrite map_app. apply incl_appl, incl_refl.
Qed.

Lemma week_update_extends id st : extends (prisma.week_update id st).
Proof.
  intros db. unfold prisma.week_update.
  destruct (prisma.week_findUnique id db) as [found|]; [|apply grows_refl].
  cbn [snd]. unfold grows. cbn [submissions weeks users with_journal with_weeks].
  split; [reflexivity|]. split; [|apply incl_refl].
  replace (map week_id (update_where (fun w => week_id w =? id)
                          (prisma.set_week_status st) (weeks db)))
    with (map week_id (weeks db)); [apply incl_refl|].
  unfold update_where. rewrite map_map. apply map_ext.
  intros x. destruct (week_id x =? id); reflexivity.
Qed.

Lemma user_create_extends e a b c : extends (prisma.user_create e a b c).
Proof.
  intros db. unfold prisma.user_create.
  destruct (prisma.user_findUnique_email e db); [apply grows_refl|].
  cbn [snd]. unfold grows. cbn [submissions weeks users with_users].
  split; [reflexivity|]. split; [apply incl_refl|].
  rewrite map_app. apply incl_appl, incl_refl.
Qed.

Lemma user_increment_extends id : extends (prisma.user_increment_inviteCount id).
Proof.
  intros db. unfold prisma.user_increment_inviteCount.
  destruct (prisma.user_findUnique id db); [|apply grows_refl].
  cbn [snd]. unfold grows. cbn [submissions weeks users with_users].
  split; [reflexivity|]. split; [apply incl_refl|].
  rewrite ids_update_where; [apply incl_refl | reflexivity].
Qed.

Lemma invite_create_extends a b c d : extends (prisma.invite_create a b c d).
Proof.
  apply extends_of_frames; auto with frames.
Qed.

Lemma invite_update_extends id d : extends (prisma.invite_update id d).
Proof.
  apply extends_of_frames; auto with frames.
Qed.

Lemma userStreak_create_extends s : extends (prisma.userStreak_create s).
Proof. apply extends_of_frames; auto with frames. Qed.

Lemma userStreak_update_extends uid d : extends (prisma.userStreak_update uid d).
Proof. apply extends_of_frames; auto with frames. Qed.

Lemma emit_extends e : extends (emit e).
Proof. apply extends_of_frames; auto with frames. Qed.

Lemma sgMail_send_extends env m : extends (sgMail_send env m).
Proof. apply extends_of_frames; auto with frames. Qed.

Lemma sendWeeklyPrompt_extends env users n : extends (sendWeeklyPrompt env users n).
Proof. apply extends_of_frames; auto with frames. Qed.

Ltac extending :=
  repeat first
    [ apply extends_ret | apply extends_reads
    | apply week_create_extends | apply week_update_extends
    | apply user_create_extends | apply user_increment_extends
    | apply invite_create_extends | apply invite_update_extends
    | apply userStreak_create_extends | apply userStreak_update_extends
    | apply emit_extends | apply sgMail_send_extends
    | apply sendWeeklyPrompt_extends
    | apply extends_bind; [|intros ?]
    | apply extends_for_each; intros ?
    | match goal with
      | |- extends (match ?x with _ => _ end) => destruct x
      | |- extends (if ?b then _ else _) => destruct b
      end
    | progress cbv zeta
    | progress unfold send ].

Lemma EP_updateUserStreak_extends env uid n now :
  extends (EmailProcessor.updateUserStreak env uid n now).
Proof. unfold EmailProcessor.updateUserStreak. extending. Qed.

Lemma WA_updateUserStreak_extends env user s n d now :
  extends (WeeklyAutomation.updateUserStreak env user s n d now).
Proof. unfold WeeklyAutomation.updateUserStreak. extending. Qed.

Lemma closeWeekAndCompile_extends env now :
  extends (WeeklyAutomation.closeWeekAndCompile env now).
Proof.
  unfold WeeklyAutomation.closeWeekAndCompile, WeeklyAutomation.updateAllUserStreaks.
  extending; apply WA_updateUserStreak_extends.
Qed.

Lemma sweep_extends env rows : forall now k,
  extends (InvitationService.sweep env rows now k).
Proof.
  induction rows as [|[[user [st|]] sent] rest IH]; intros now k;
    cbn [InvitationService.sweep].
  - apply extends_ret.
  - cbv zeta. destruct (Bool.eqb _ _); [apply IH|].
    apply extends_bind; [apply userStreak_update_extends|].
    intros ok. destruct (negb ok); [apply extends_ret|].
    apply extends_bind; [|intros _; apply IH].
    destruct (_ && _); [apply emit_extends | apply extends_ret].
  - apply IH.
Qed.

Section SubmissionTable.
Context {T : TextParsing}.
Variable env : Env.

Lemma sendInvitation_extends a b c d :
  extends (InvitationService.sendInvitation env a b c d).
Proof. unfold InvitationService.sendInvitation. extending. Qed.

Lemma validateSubmissionFormat_bounds parsed data :
  EmailProcessor.validateSubmissionFormat parsed = Some data ->
  EmailProcessor.in_range 5 500 (data_recommendation data)
  && EmailProcessor.in_range 10 1000 (data_reasonWhy data)
  && EmailProcessor.in_range 5 1000 (data_digressions data) = true.
Proof.
  unfold EmailProcessor.validateSubmissionFormat.
  destruct (parsed_recommendation parsed) as [r|]; [|discriminate].
  destruct (parsed_reasonWhy parsed) as [w|]; [|discriminate].
  destruct (parsed_digressions parsed) as [d|]; [|discriminate].
  destruct (_ && _ && _) eqn:Hbounds; [|discriminate].
  intros [= <-]. exact Hbounds.
Qed.

Lemma processInboundEmail_submissions_well_formed p now :
  keeps submissions_well_formed (EmailProcessor.processInboundEmail env p now).
Proof.
  intros db H.
  unfold EmailProcessor.processInboundEmail, bind, reads, send, emit, ret,
    sgMail_send, prisma.submission_create.
  destruct (extractEmail (from p)) as [sender|]; [|exact H].
  destruct (prisma.user_findUnique_email sender db) as [user|] eqn:Huser;
    [|exact H].
  destruct (isActive user); cbn [negb]; [|exact H].
  destruct (prisma.week_findFirst_desc open db) as [wk|] eqn:Hweek; [|exact H].
  destruct (prisma.submission_findUnique (user_id user) (week_id wk) db) eqn:Hold;
    [exact H|].
  destruct (EmailProcessor.validateSubmissionFormat _) as [data|] eqn:Hvalid;
    [|exact H].
  rewrite Hold.
  set (row := mkSubmission _ _ _ _ _ _).
  set (d0 := with_submissions (submissions db ++ [row]) db).
  assert (H0 : submissions_well_formed d0).
  { destruct H as (Hbounds & Hrefs & Hone). subst d0.
    unfold submissions_well_formed. cbn [submissions weeks users with_submissions].
    split; [|split].
    - apply Forall_app. split; [exact Hbounds|]. constructor; [|constructor].
      apply (validateSubmissionFormat_bounds _ Hvalid).
    - intros s Hs. apply in_app_or in Hs. destruct Hs as [Hs|[<-|[]]];
        [apply Hrefs, Hs|]. cbn [weekId userId row]. split.
      + unfold prisma.week_findFirst_desc in Hweek.
        assert (Hin : In wk (filter (prisma.is_status open) (weeks db))).
        { clear -Hweek. induction (filter (prisma.is_status open) (weeks db))
            as [|w rest IH]; [discriminate|].
          cbn [prisma.latest] in Hweek.
          destruct (prisma.latest rest) as [w'|].
          - destruct (createdAt w' >? createdAt w).
            + right. apply IH. exact Hweek.
            + injection Hweek as <-. left. reflexivity.
          - injection Hweek as <-. left. reflexivity. }
        apply filter_In in Hin. apply in_map, Hin.
      + unfold prisma.user_findUnique_email in Huser. apply find_some in Huser.
        apply in_map, Huser.
    - rewrite map_app. apply NoDup_app; [exact Hone | repeat constructor; intros [] |].
      intros k Hk [<-|[]]. cbn [userId weekId row] in Hk.
      apply in_map_iff in Hk. destruct Hk as (s & Hpair & Hs).
      injection Hpair as Hu Hw.
      unfold prisma.submission_findUnique in Hold.
      apply (find_none _ _ Hold) in Hs. unfold prisma.is_pair in Hs.
      rewrite Hu, Hw, !Z.eqb_refl in Hs. discriminate. }
  match goal with
  | |- context [EmailProcessor.updateUserStreak ?a ?b ?c ?d ?e] =>
      pose proof (@EP_updateUserStreak_extends a b c d e) as Hgrow;
      destruct (EmailProcessor.updateUserStreak a b c d e) as [[] d1]
  end.
  cbn [snd] in *. apply (grows_well_formed Hgrow) in H0.
  destruct (transport env _ _); exact H0.
Qed.

Lemma run_submissions_well_formed c db :
  submissions_well_formed db -> submissions_well_formed (run env c db).
Proof.
  destruct c as [now|now|id now|batch|tok ud now|now]; cbn [run].
  - apply grows_well_formed. unfold WeeklyAutomation.startNewWeek.
    apply extends_bind; [apply extends_reads|]. intros [w|]; extending.
  - apply grows_well_formed, closeWeekAndCompile_extends.
  - apply grows_well_formed. unfold WeeklyAutomation.manualCompileWeek.
    destruct (falsy id); [apply closeWeekAndCompile_extends|].
    destruct id as [n|]; [|apply closeWeekAndCompile_extends].
    extending.
  - revert db. induction batch as [|[e amb] rest IH]; intros db;
      cbn [Webhooks.inbound_email]; [intros H; exact H|].
    apply keeps_bind; [|intros entry; apply keeps_bind;
                         [exact IH | intros entries; apply keeps_ret]].
    unfold Webhooks.handle_email.
    destruct (extractEmail (from e)); [|apply keeps_ret]. cbv zeta.
    destruct (parseInviteCommand _).
    + apply keeps_bind; [|intros r; apply keeps_ret].
      intros d. apply grows_well_formed.
      unfold InvitationService.processInviteCommand.
      apply extends_bind; [apply extends_reads|]. intros [inviter|];
        [|apply extends_ret].
      apply extends_bind; [apply sendInvitation_extends|]. intros r. extending.
    + apply keeps_bind; [|intros r; apply keeps_ret].
      apply processInboundEmail_submissions_well_formed.
  - apply grows_well_formed.
    unfold InvitationService.processInviteAcceptance. extending.
  - apply grows_well_formed.
    unfold InvitationService.checkAllUsersEligibility.
    apply extends_bind; [apply extends_reads|]. intros rows.
    apply extends_bind; [apply sweep_extends | intros [k|]; apply extends_ret].
Qed.

End SubmissionTable.

(** X26. Stored submissions stay well-formed: started on a store (the
    empty one, say) where every submission is within the length bounds
    of the schema, belongs to a stored week and a stored member, and is
    the only one of its member for its week, the service only reaches
    stores of that kind, whatever triggers run. *)
Theorem reachable_submissions_well_formed (T : TextParsing) env init db :
  submissions_well_formed init -> reachable env init db ->
  submissions_well_formed db.
Proof.
  intros Hinit Hreach. induction Hreach as [|c db Hreach IH].
  - exact Hinit.
  - apply run_submissions_well_formed, IH.
Qed.

Lemma reachable_submissions_well_formed_witness :
  submissions_well_formed
    (run (T := Scenario.text_of_scenarios) default_env
       (CloseWeekAndCompile 9)
       (run (T := Scenario.text_of_scenarios) default_env
          (InboundEmail [(Scenario.ann_submits, Scenario.at_noon);
                         (Scenario.ann_submits, Scenario.at_noon)])
          (run (T := Scenario.text_of_scenarios) default_env
             (StartNewWeek (Scenario.at_week 2024 1))
             Scenario.members_only))).
Proof.
  apply (@reachable_submissions_well_formed Scenario.text_of_scenarios default_env
           Scenario.members_only).
  - split; [constructor|]. split; [intros s [] | constructor].
  - do 3 apply reachable_step. apply reachable_init.
Defined.
